(** * PyTree: a shallow embedding of [tree.py]

    The module defines three classes: [Node] (an object with a [parent]
    attribute), [NonTerminalNode] (a [Node] that is also a Python [list] and
    keeps the [parent] attribute of its children up to date) and
    [BiDirectionalLookupNonTerminalNode] (a [NonTerminalNode] with a
    reverse-lookup dictionary from child to index).

    Python objects are mutable and shared, so the embedding is a store of
    objects addressed by identity, and every method is a computation over the
    store that may raise: a raised exception keeps the effects made before it.

    Conventions.  The module is Python 2, on a 64-bit build of CPython:
    integers are unbounded ([Z]), the index that [list.pop] takes has to fit
    a machine word, a simple slice [l[i:j]] goes through [__getslice__],
    [__setslice__] and [__delslice__], and values of different types are
    ordered.  An argument that the code goes through once (the children
    given to a constructor, the argument of the bidirectional [extend]) or
    that it measures and subscripts (a [seq]) is given as the list of its
    elements.  [__iadd__] and the inherited [extend] loop over their argument
    again after the built-in has consumed it: their argument is an
    [iterable], which says what each traversal yields.  A [while] loop is a
    recursion on a bound computed from the state at its entry; [OutOfFuel]
    marks a loop that ran past its bound, and the lemmas on the loops show
    that none does. *)

From stdpp Require Import gmap strings list fin_maps.
From Stdlib Require Import ZArith Lia.

(** ** Values and objects *)

(** The Python values that take part: [None], strings (standing for the
    hashable leaf values, which have no settable attribute) and references to
    instances of the three classes of the module, by identity. *)
Inductive value :=
  | VNone
  | VStr (s : string)
  | VRef (a : nat).

#[global] Instance value_eq_dec : EqDecision value.
Proof. solve_decision. Defined.

#[global] Instance value_countable : Countable value.
Proof.
  refine (inj_countable'
    (λ v, match v with
          | VNone => inl ()
          | VStr s => inr (inl s)
          | VRef a => inr (inr a)
          end)
    (λ x, match x with
          | inl _ => VNone
          | inr (inl s) => VStr s
          | inr (inr a) => VRef a
          end) _).
  by intros [].
Defined.

Inductive pyclass :=
  | ClsNode
  | ClsNonTerminalNode
  | ClsBiDirectionalLookupNonTerminalNode.

#[global] Instance pyclass_eq_dec : EqDecision pyclass.
Proof. solve_decision. Defined.

(** An instance.  [items] is the content of the [list] part (empty and unused
    for a plain [Node]); [indices] and [last_automatically_added_index] are the
    private attributes [__indices] and [__last_automatically_added_index] of
    the bidirectional class. *)
Record obj := Obj {
  cls : pyclass;
  parent : value;
  items : list value;
  indices : gmap value Z;
  last_automatically_added_index : Z
}.

(** The store, and what the [print] statement of [__get_next_free_index] has
    written so far. *)
Record world := World {
  heap : gmap nat obj;
  stdout : list Z
}.

Definition empty_world : world := World ∅ [].

(** The exceptions of Python that the module can raise, and [OutOfFuel], which
    is not one of them: a loop of the embedding that ran past its bound. *)
Inductive exn :=
  | AttributeError
  | IndexError
  | KeyError
  | NotImplementedError
  | OverflowError
  | RuntimeError
  | TypeError
  | OutOfFuel.

#[global] Instance exn_eq_dec : EqDecision exn.
Proof. solve_decision. Defined.

Inductive outcome (A : Type) :=
  | Ret (a : A)
  | Raise (e : exn).
Arguments Ret {A} a.
Arguments Raise {A} e.

(** ** The monad of store computations that may raise *)

Definition M (A : Type) : Type := world → world * outcome A.

Definition ret {A} (a : A) : M A := λ w, (w, Ret a).

Definition raise {A} (e : exn) : M A := λ w, (w, Raise e).

Definition bind {A B} (m : M A) (k : A → M B) : M B :=
  λ w, match m w with
       | (w', Ret a) => k a w'
       | (w', Raise e) => (w', Raise e)
       end.

Notation "'let*' x ':=' m 'in' k" := (bind m (λ x, k))
  (at level 10, x name, m at level 200, k at level 200).
Notation "m ';;;' k" := (bind m (λ _, k))
  (at level 100, k at level 200, right associativity).

(** [try: m except e: handler] *)
Definition try_except {A} (m : M A) (e : exn) (handler : M A) : M A :=
  λ w, match m w with
       | (w', Raise e') => if decide (e' = e) then handler w' else (w', Raise e')
       | r => r
       end.

Definition lift {A} (o : outcome A) : M A := λ w, (w, o).

(** [for x in l: body x] *)
Fixpoint for_each {A} (l : list A) (body : A → M unit) : M unit :=
  match l with
  | [] => ret tt
  | x :: l' => body x ;;; for_each l' body
  end.

(** [[f x for x in l]] *)
Fixpoint list_comprehension {A B} (f : A → M B) (l : list A) : M (list B) :=
  match l with
  | [] => ret []
  | x :: l' => let* y := f x in let* ys := list_comprehension f l' in ret (y :: ys)
  end.

Definition enumerate {A} (l : list A) : list (Z * A) :=
  imap (λ i x, (Z.of_nat i, x)) l.

(** Attribute access.  A method is only ever called on the address of a live
    instance; on a free address the readers see an empty instance and the
    writers do nothing. *)
Definition empty_obj (c : pyclass) : obj := Obj c VNone [] ∅ (-1).

(** The instance at an address, and one of its attributes. *)
Definition obj_at (w : world) (a : nat) : obj :=
  default (empty_obj ClsNode) (heap w !! a).

Definition attr {A} (f : obj → A) (w : world) (a : nat) : A := f (obj_at w a).

(** The store after [f] has been applied to the instance at [a]. *)
Definition upd (f : obj → obj) (a : nat) (w : world) : world :=
  World (alter f a (heap w)) (stdout w).

Definition read {A} (f : obj → A) (self : nat) : M A :=
  λ w, (w, Ret (attr f w self)).

Definition write (f : obj → obj) (self : nat) : M unit :=
  λ w, (upd f self w, Ret tt).

Definition with_parent (p : value) (o : obj) : obj :=
  Obj (cls o) p (items o) (indices o) (last_automatically_added_index o).
Definition with_items (l : list value) (o : obj) : obj :=
  Obj (cls o) (parent o) l (indices o) (last_automatically_added_index o).
Definition with_indices (d : gmap value Z) (o : obj) : obj :=
  Obj (cls o) (parent o) (items o) d (last_automatically_added_index o).
Definition with_last (i : Z) (o : obj) : obj :=
  Obj (cls o) (parent o) (items o) (indices o) i.

(** Instance creation ([cls.__new__]): a fresh identity. *)
Definition alloc (c : pyclass) : M nat :=
  λ w, let a := fresh (dom (heap w)) in
       (World (<[a := empty_obj c]> (heap w)) (stdout w), Ret a).

Definition print (z : Z) : M unit :=
  λ w, (World (heap w) (stdout w ++ [z]), Ret tt).

(** ** The built-in [list] (Python 2) *)

Definition len {A} (l : list A) : Z := Z.of_nat (length l).

(** A subscript is counted from the end when negative, and must then fall
    inside the list. *)
Definition norm_index {A} (l : list A) (i : Z) : option nat :=
  let i' := if (i <? 0)%Z then (i + len l)%Z else i in
  if ((0 <=? i') && (i' <? len l))%Z then Some (Z.to_nat i') else None.

Definition list_getitem (l : list value) (i : Z) : outcome value :=
  match norm_index l i with
  | Some n => match l !! n with Some v => Ret v | None => Raise IndexError end
  | None => Raise IndexError
  end.

Definition list_setitem (l : list value) (i : Z) (v : value) : outcome (list value) :=
  match norm_index l i with
  | Some n => Ret (<[n := v]> l)
  | None => Raise IndexError
  end.

Definition list_delitem (l : list value) (i : Z) : outcome (list value) :=
  match norm_index l i with
  | Some n => Ret (delete n l)
  | None => Raise IndexError
  end.

(** The bounds of [__getslice__], [__setslice__] and [__delslice__] are
    clipped to the list: [ilow] to [0 .. len], [ihigh] to [ilow .. len]. *)
Definition slice_bounds {A} (l : list A) (i j : Z) : nat * nat :=
  let lo := Z.to_nat (Z.max 0 (Z.min i (len l))) in
  let hi := Z.to_nat (Z.max 0 (Z.min j (len l))) in
  (lo, Nat.max lo hi).

Definition list_getslice (l : list value) (i j : Z) : list value :=
  let '(lo, hi) := slice_bounds l i j in take (hi - lo) (drop lo l).

Definition list_setslice (l : list value) (i j : Z) (seq : list value) : list value :=
  let '(lo, hi) := slice_bounds l i j in take lo l ++ seq ++ drop hi l.

Definition list_delslice (l : list value) (i j : Z) : list value :=
  let '(lo, hi) := slice_bounds l i j in take lo l ++ drop hi l.

(** The slice syntax [l[i:j]] adds the length to a negative bound before it
    calls [__getslice__]. *)
Definition slice_syntax (l : list value) (i j : Z) : list value :=
  let adj (k : Z) := if (k <? 0)%Z then (k + len l)%Z else k in
  list_getslice l (adj i) (adj j).

Definition list_insert (l : list value) (i : Z) (v : value) : list value :=
  let i' := if (i <? 0)%Z then (i + len l)%Z else i in
  let n := Z.to_nat (Z.max 0 (Z.min i' (len l))) in
  take n l ++ v :: drop n l.

(** The largest [Py_ssize_t], the machine word in which the built-ins that
    parse an index argument hold it. *)
Definition PY_SSIZE_T_MAX : Z := 2 ^ 63 - 1.

Definition fits_ssize_t (i : Z) : bool :=
  ((- PY_SSIZE_T_MAX - 1 <=? i) && (i <=? PY_SSIZE_T_MAX))%Z.

(** [l.pop(i)], or [l.pop()] for the last element.  The argument is converted
    to a machine word first: one that does not fit raises OverflowError,
    where a subscript that does not fit raises IndexError. *)
Definition list_pop (l : list value) (arg : option Z) : outcome (value * list value) :=
  if negb (fits_ssize_t (default (-1)%Z arg)) then Raise OverflowError
  else
    match norm_index l (default (-1)%Z arg) with
    | Some n => match l !! n with
                | Some v => Ret (v, delete n l)
                | None => Raise IndexError
                end
    | None => Raise IndexError
    end.

Definition list_count (l : list value) (v : value) : Z :=
  len (filter (λ x, x = v) l).

(** The default ordering of Python 2 on the values of a bidirectional node:
    [None] is below everything, instances of [Node] (type name "Node") are
    below strings (type name "str"), two strings compare by content and two
    instances by their memory addresses.  The program does not determine
    where the interpreter puts an instance: [address] gives the address of
    each, and the ordering is relative to it. *)
Definition py_cmp (address : nat → Z) (x y : value) : comparison :=
  match x, y with
  | VNone, VNone => Eq
  | VNone, _ => Lt
  | _, VNone => Gt
  | VRef a, VRef b => Z.compare (address a) (address b)
  | VRef _, VStr _ => Lt
  | VStr _, VRef _ => Gt
  | VStr s, VStr t => String.compare s t
  end.

Definition Z_of_comparison (c : comparison) : Z :=
  match c with Lt => (-1)%Z | Eq => 0%Z | Gt => 1%Z end.

(** [x] sorts strictly before [y] under the arguments of [sort]. *)
Definition sorts_before (address : nat → Z) (cmp : option (value → value → Z))
    (key : option (value → value)) (x y : value) : bool :=
  let kx := match key with Some k => k x | None => x end in
  let ky := match key with Some k => k y | None => y end in
  match cmp with
  | Some c => (c kx ky <? 0)%Z
  | None => (Z_of_comparison (py_cmp address kx ky) <? 0)%Z
  end.

(** [x], which stood before every element of the sorted [l], goes before the
    first element that does not sort strictly before it: it stays before the
    elements it is equal to. *)
Fixpoint sorted_insert (lt : value → value → bool) (x : value) (l : list value) : list value :=
  match l with
  | [] => [x]
  | y :: l' => if lt y x then y :: sorted_insert lt x l' else x :: y :: l'
  end.

(** The elements are inserted from the last one to the first one, so equal
    elements keep their order: the sort is stable, as [list.sort] is. *)
Definition stable_sort (lt : value → value → bool) (l : list value) : list value :=
  foldr (sorted_insert lt) [] l.

(** [l.sort(cmp, key, reverse)]: a stable sort; with [reverse] the list is
    reversed before and after, which keeps equal elements in their order. *)
Definition list_sort (address : nat → Z) (cmp : option (value → value → Z))
    (key : option (value → value)) (reverse_flag : bool) (l : list value) : list value :=
  if reverse_flag
  then reverse (stable_sort (sorts_before address cmp key) (reverse l))
  else stable_sort (sorts_before address cmp key) l.

(** ** The built-in [dict], as the attribute [__indices] of [self] *)

(** Instances of [Node] hash by identity.  The two container classes inherit
    [__hash__ = None] from [list] and are unhashable: using one as a key
    raises TypeError. *)
Definition is_hashable (h : gmap nat obj) (key : value) : bool :=
  match key with
  | VRef a => match h !! a with
              | Some o => bool_decide (cls o = ClsNode)
              | None => true
              end
  | _ => true
  end.

Definition check_hashable (key : value) : M unit :=
  λ w, (w, if is_hashable (heap w) key then Ret tt else Raise TypeError).

(** [self.__indices[key] = v] *)
Definition dict_setitem (self : nat) (key : value) (v : Z) : M unit :=
  check_hashable key ;;;
  write (λ o, with_indices (<[key := v]> (indices o)) o) self.

(** [self.__indices[key]] *)
Definition dict_getitem (self : nat) (key : value) : M Z :=
  check_hashable key ;;;
  let* d := read indices self in
  match d !! key with
  | Some i => ret i
  | None => raise KeyError
  end.

(** [del self.__indices[key]] *)
Definition dict_delitem (self : nat) (key : value) : M unit :=
  check_hashable key ;;;
  let* d := read indices self in
  match d !! key with
  | Some _ => write (λ o, with_indices (delete key (indices o)) o) self
  | None => raise KeyError
  end.

(** [key in self.__indices] *)
Definition dict_contains (self : nat) (key : value) : M bool :=
  check_hashable key ;;;
  let* d := read indices self in
  ret (bool_decide (is_Some (d !! key))).

(** ** Iterable arguments *)

(** An argument that is traversed more than once.  A list or tuple that is
    no node of the store yields its elements at every traversal.  An iterator
    or generator yields them at the first traversal and nothing afterwards.
    A node of the store, the receiver included, yields the children it has
    when the traversal starts. *)
Inductive iterable :=
  | Sequence (l : list value)
  | Iterator (l : list value)
  | Container (a : nat).

(** What a traversal yields; [consumed] tells that an earlier traversal has
    gone through the argument.  A plain [Node] is not iterable. *)
Definition traverse (it : iterable) (consumed : bool) : M (list value) :=
  match it with
  | Sequence l => ret l
  | Iterator l => ret (if consumed then [] else l)
  | Container a =>
      let* c := read cls a in
      if bool_decide (c = ClsNode) then raise TypeError
      else read items a
  end.

(** [list.extend(self, iterable)], which is [list.__iadd__] too: the first
    traversal of the argument.  The elements are collected before the list
    grows, also when the argument is the list itself. *)
Definition list_extend (self : nat) (it : iterable) : M unit :=
  let* new_items := traverse it false in
  write (λ o, with_items (items o ++ new_items) o) self.

(** ** Module-level functions *)

Definition _is_assigned (idx : Z) (seq : list value) : outcome bool :=
  if (len seq <=? idx)%Z then Ret false
  else match list_getitem seq idx with
       | Ret entry => Ret (negb (bool_decide (entry = VNone)))
       | Raise e => Raise e
       end.

(** [child.parent = parent]: [None] and strings have no such attribute. *)
Definition setattr_parent (child p : value) : M unit :=
  match child with
  | VRef a => write (with_parent p) a
  | _ => raise AttributeError
  end.

Definition _set_parent (child p : value) : M unit :=
  try_except (setattr_parent child p) AttributeError (ret tt).

(** [list.__new__(X, ...)], which is what [self.__new__] is on a subclass of
    [list]: [X] has to be a type object, a subtype of [list]; anything else
    raises TypeError.  No value above is a type object. *)
Definition is_type_object (v : value) : bool :=
  match v with
  | VNone | VStr _ | VRef _ => false
  end.

Definition list___new__ (X : value) (args : list value) : M value :=
  if is_type_object X
  then let* a := alloc ClsNonTerminalNode in ret (VRef a)
  else raise TypeError.

(** ** class Node *)

Module Node.

Definition __init__ (self : nat) (p : value) : M unit :=
  write (with_parent p) self.

(** [Node(parent)] *)
Definition new (p : value) : M nat :=
  let* self := alloc ClsNode in
  __init__ self p ;;;
  ret self.

End Node.

(** ** class NonTerminalNode(Node, list) *)

Module NonTerminalNode.

Definition __init__ (self : nat) (p : value) (args : option (list value)) : M unit :=
  Node.__init__ self p ;;;
  write (with_items (default [] args)) self ;;;
  let* children := read items self in
  for_each children (λ child, _set_parent child (VRef self)).

(** [NonTerminalNode(parent, children)] *)
Definition new (p : value) (args : option (list value)) : M nat :=
  let* self := alloc ClsNonTerminalNode in
  __init__ self p args ;;;
  ret self.

Definition __add__ (self : nat) (it : iterable) : M value :=
  raise NotImplementedError.

(** The loop is a second traversal of the argument. *)
Definition __iadd__ (self : nat) (it : iterable) : M value :=
  list_extend self it ;;;
  let* children := traverse it true in
  for_each children (λ child, _set_parent child (VRef self)) ;;;
  ret (VRef self).

(** [deepcopy] is the function of the [copy] module, called on each child
    without the memo. *)
Definition __deepcopy__ (deepcopy : value → M value) (self : nat)
    (memo : gmap nat value) : M value :=
  let* children := read items self in
  let* new_children := list_comprehension deepcopy children in
  let* p := read parent self in
  list___new__ p new_children.

Definition __delitem__ (self : nat) (index : Z) : M unit :=
  let* l := read items self in
  let* deletee := lift (list_getitem l index) in
  let* l' := lift (list_delitem l index) in
  write (with_items l') self ;;;
  _set_parent deletee VNone.

Definition __delslice__ (self : nat) (start stop : Z) : M unit :=
  let* l := read items self in
  let deletee_slice := list_getslice l start stop in
  write (with_items (list_delslice l start stop)) self ;;;
  for_each deletee_slice (λ child, _set_parent child VNone).

Definition __mul__ (self : nat) (n : Z) : M value :=
  raise NotImplementedError.

Definition __setitem__ (self : nat) (index : Z) (child : value) : M unit :=
  let* l := read items self in
  let* l' := lift (list_setitem l index child) in
  write (with_items l') self ;;;
  _set_parent child (VRef self).

Definition __setslice__ (self : nat) (start stop : Z) (seq : list value) : M unit :=
  let* l := read items self in
  write (with_items (list_setslice l start stop seq)) self ;;;
  let new_child_count := Z.min (stop - start - 1) (len seq) in
  let* l' := read items self in
  let new_children := slice_syntax l' start (start + new_child_count) in
  for_each new_children (λ child, _set_parent child (VRef self)).

Definition append (self : nat) (child : value) : M unit :=
  write (λ o, with_items (items o ++ [child]) o) self ;;;
  _set_parent child (VRef self).

(** As in [__iadd__], the loop is a second traversal of the argument. *)
Definition extend (self : nat) (it : iterable) : M unit :=
  list_extend self it ;;;
  let* children := traverse it true in
  for_each children (λ child, _set_parent child (VRef self)).

Definition pop (self : nat) (arg : option Z) : M value :=
  let* l := read items self in
  let* r := lift (list_pop l arg) in
  write (with_items r.2) self ;;;
  _set_parent r.1 VNone ;;;
  ret r.1.

End NonTerminalNode.

(** ** [copy.deepcopy]

    [None] and strings are copied as themselves.  An instance with a
    [__deepcopy__] method is copied by that method.  A plain [Node] is rebuilt:
    the new instance is entered in the memo, then its state (the [parent]
    attribute) is copied with the same memo.  [fuel] is the recursion limit of
    the interpreter, past which RuntimeError is raised. *)
Fixpoint deepcopy (fuel : nat) (x : value) (memo : gmap nat value)
    : M (value * gmap nat value) :=
  match fuel with
  | O => raise RuntimeError
  | S fuel' =>
      match x with
      | VNone | VStr _ => ret (x, memo)
      | VRef a =>
          match memo !! a with
          | Some y => ret (y, memo)
          | None =>
              let* c := read cls a in
              match c with
              | ClsNode =>
                  let* b := alloc ClsNode in
                  let* p := read parent a in
                  let* r := deepcopy fuel' p (<[a := VRef b]> memo) in
                  write (with_parent r.1) b ;;;
                  ret (VRef b, <[a := VRef b]> r.2)
              | _ =>
                  let* y := NonTerminalNode.__deepcopy__
                              (λ child, let* r := deepcopy fuel' child ∅ in ret r.1)
                              a memo in
                  ret (y, <[a := y]> memo)
              end
          end
      end
  end.

(** ** class BiDirectionalLookupNonTerminalNode(NonTerminalNode) *)

Module BiDirectionalLookupNonTerminalNode.

Definition __delete_from_indices (self : nat) (child : value) : M unit :=
  try_except (dict_delitem self child) KeyError (ret tt).

(** [while len(self) <= index: append(None)], by the inherited [append].  The
    loop runs [index + 1 - len(self)] times. *)
Fixpoint ensure_valid_index_loop (fuel : nat) (self : nat) (index : Z) : M unit :=
  match fuel with
  | O => raise OutOfFuel
  | S fuel' =>
      let* l := read items self in
      if (len l <=? index)%Z
      then NonTerminalNode.append self VNone ;;;
           ensure_valid_index_loop fuel' self index
      else ret tt
  end.

Definition __ensure_valid_index (self : nat) (index : Z) : M unit :=
  let* l := read items self in
  ensure_valid_index_loop (S (Z.to_nat (index + 1 - len l))) self index.

(** [while _is_assigned(next_free_index, self): print ...; next_free_index += 1],
    which stops at the end of the list at the latest. *)
Fixpoint next_free_index_loop (fuel : nat) (self : nat) (next_free_index : Z) : M Z :=
  match fuel with
  | O => raise OutOfFuel
  | S fuel' =>
      let* l := read items self in
      let* assigned := lift (_is_assigned next_free_index l) in
      if assigned : bool
      then print next_free_index ;;;
           next_free_index_loop fuel' self (next_free_index + 1)
      else ret next_free_index
  end.

Definition __get_next_free_index (self : nat) : M Z :=
  let* last := read last_automatically_added_index self in
  let next_free_index := (last + 1)%Z in
  let* l := read items self in
  next_free_index_loop (S (Z.to_nat (len l - next_free_index))) self next_free_index.

Definition __update_dict_indices (self : nat) (start stop shift_value : Z) : M unit :=
  let* l := read items self in
  let items_to_update := list_getslice l start stop in
  for_each items_to_update (λ item,
    let* i := dict_getitem self item in
    dict_setitem self item (i + shift_value)).

Definition __init__ (self : nat) (p : value) (args : option (list value)) : M unit :=
  NonTerminalNode.__init__ self p args ;;;
  write (with_indices ∅) self ;;;
  let* l := read items self in
  for_each (enumerate l) (λ ic, dict_setitem self ic.2 ic.1) ;;;
  write (with_last (-1)) self.

(** [BiDirectionalLookupNonTerminalNode(parent, children)] *)
Definition new (p : value) (args : option (list value)) : M nat :=
  let* self := alloc ClsBiDirectionalLookupNonTerminalNode in
  __init__ self p args ;;;
  ret self.

Definition __delitem__ (self : nat) (index : Z) : M unit :=
  let* l := read items self in
  let* deletee := lift (list_getitem l index) in
  NonTerminalNode.__delitem__ self index ;;;
  __delete_from_indices self deletee ;;;
  let* l' := read items self in
  __update_dict_indices self (index + 1) (len l') (-1).

Definition __delslice__ (self : nat) (start stop : Z) : M unit :=
  let* l := read items self in
  let deletee_slice := slice_syntax l start stop in
  NonTerminalNode.__delslice__ self start stop ;;;
  for_each deletee_slice (λ deletee, __delete_from_indices self deletee) ;;;
  let shift_value := (len deletee_slice * -1)%Z in
  __update_dict_indices self start stop shift_value.

(** The [enumerate] loop is a third traversal of the argument. *)
Definition __iadd__ (self : nat) (it : iterable) : M value :=
  let* l := read items self in
  let original_len := len l in
  let* result := NonTerminalNode.__iadd__ self it in
  let* children := traverse it true in
  for_each (enumerate children) (λ ic,
    let index := (ic.1 + original_len)%Z in
    dict_setitem self ic.2 index) ;;;
  ret result.

Definition __imul__ (self : nat) (n : Z) : M value :=
  raise NotImplementedError.

Definition __mul__ (self : nat) (n : Z) : M value :=
  raise NotImplementedError.

Definition __rmul__ (self : nat) (n : Z) : M value :=
  raise NotImplementedError.

Definition __setitem__ (self : nat) (index : Z) (child : value) : M unit :=
  let* l := read items self in
  if (len l >? index)%Z
  then
    let* replacee := lift (list_getitem l index) in
    NonTerminalNode.__setitem__ self index child ;;;
    __delete_from_indices self replacee ;;;
    dict_setitem self child index
  else
    __ensure_valid_index self index ;;;
    NonTerminalNode.__setitem__ self index child.

(** [while replaced_item_index < stop: ...], at most [stop - start] times. *)
Fixpoint add_new_items_loop (fuel : nat) (self : nat) (seq : list value)
    (stop replaced_item_index seq_item_index : Z) : M unit :=
  match fuel with
  | O => raise OutOfFuel
  | S fuel' =>
      if (replaced_item_index <? stop)%Z
      then
        let* item := lift (list_getitem seq seq_item_index) in
        dict_setitem self item replaced_item_index ;;;
        add_new_items_loop fuel' self seq stop
          (replaced_item_index + 1) (seq_item_index + 1)
      else ret tt
  end.

Definition __setslice__ (self : nat) (start stop : Z) (seq : list value) : M unit :=
  let* l := read items self in
  let replacee_slice := slice_syntax l start stop in
  NonTerminalNode.__setslice__ self start stop seq ;;;
  for_each replacee_slice (λ replacee, __delete_from_indices self replacee) ;;;
  add_new_items_loop (S (Z.to_nat (stop - start))) self seq stop start 0.

Definition append (self : nat) (child : value) : M unit :=
  let* index := __get_next_free_index self in
  __setitem__ self index child ;;;
  write (with_last index) self.

Definition count (self : nat) (v : value) : M Z :=
  let* present := dict_contains self v in
  if present : bool then ret 1%Z
  else if bool_decide (v = VNone)
       then let* l := read items self in ret (list_count l VNone)
       else ret 0%Z.

(** The loop is the only traversal of the argument, which is given as the
    list of what that traversal yields. *)
Definition extend (self : nat) (children : list value) : M unit :=
  for_each children (λ child, append self child).

Definition index (self : nat) (child : value) : M Z :=
  dict_getitem self child.

Definition insert (self : nat) (index : Z) (child : value) : M unit :=
  let* l := read items self in
  __update_dict_indices self index (len l) 1 ;;;
  write (λ o, with_items (list_insert (items o) index child) o) self ;;;
  if bool_decide (child = VNone) then ret tt
  else dict_setitem self child index.

Definition pop (self : nat) (arg : option Z) : M value :=
  let* item := NonTerminalNode.pop self arg in
  dict_delitem self item ;;;
  ret item.

Definition remove (self : nat) (item : value) : M unit :=
  let* index := dict_getitem self item in
  __delitem__ self index.

Definition reverse (self : nat) : M unit :=
  write (λ o, with_items (reverse (items o)) o) self ;;;
  let* l := read items self in
  for_each (enumerate l) (λ ic, dict_setitem self ic.2 ic.1).

(** The arguments are not passed on: the call is
    [sort(cmp=None, key=None, reverse=False)].  [address] is the address of
    each instance, by which the default ordering compares two of them. *)
Definition sort (address : nat → Z) (self : nat) (cmp : option (value → value → Z))
    (key : option (value → value)) (reverse_flag : bool) : M unit :=
  write (λ o, with_items (list_sort address None None false (items o)) o) self ;;;
  let* l := read items self in
  for_each (enumerate l) (λ ic, dict_setitem self ic.2 ic.1).

(** The property [indices]. *)
Definition indices (self : nat) : M (gmap value Z) :=
  read indices self.

End BiDirectionalLookupNonTerminalNode.

(** ** The reverse map that the children determine *)

(** The map that has the entry [c ↦ i] for each occupied position [i] holding
    child [c], for the list [l] whose first position is [i].  (The children of
    a node are pairwise distinct, so no entry is written twice.) *)
Fixpoint rederive_from (i : Z) (l : list value) : gmap value Z :=
  match l with
  | [] => ∅
  | c :: l' =>
      if bool_decide (c = VNone) then rederive_from (i + 1) l'
      else <[c := i]> (rederive_from (i + 1) l')
  end.

Definition rederive (l : list value) : gmap value Z := rederive_from 0 l.

(** The live map of the node at [self] is the map its children determine. *)
Definition consistent (w : world) (self : nat) : Prop :=
  attr indices w self = rederive (attr items w self).

(** ** The scenarios of the specification *)

(** Three plain nodes A, B, C (at 0, 1, 2) in a bidirectional node (at 3). *)
Definition build_ABC : M nat :=
  let* a := Node.new VNone in
  let* b := Node.new VNone in
  let* c := Node.new VNone in
  BiDirectionalLookupNonTerminalNode.new VNone (Some [VRef a; VRef b; VRef c]).

Definition world_ABC : world := (build_ABC empty_world).1.

(** A plain node A (at 0) and an empty bidirectional node (at 1). *)
Definition build_empty : M nat :=
  let* a := Node.new VNone in
  BiDirectionalLookupNonTerminalNode.new VNone None.

Definition world_empty : world := (build_empty empty_world).1.

(** A bidirectional node (at 1) whose slot 0 is a placeholder and whose slot 1
    holds the plain node A (at 0), with the entry of A in its map: the node
    starts empty and A is assigned to index 1 twice (the first assignment pads
    slot 0, the second one records the entry). *)
Definition build_gap : M nat :=
  let* a := Node.new VNone in
  let* n := BiDirectionalLookupNonTerminalNode.new VNone None in
  BiDirectionalLookupNonTerminalNode.__setitem__ n 1 (VRef a) ;;;
  BiDirectionalLookupNonTerminalNode.__setitem__ n 1 (VRef a) ;;;
  ret n.

Definition world_gap : world := (build_gap empty_world).1.

(** Plain nodes A, C, D (at 0, 1, 2) and a bidirectional node (at 3) holding
    A and C. *)
Definition build_AC : M nat :=
  let* a := Node.new VNone in
  let* c := Node.new VNone in
  let* d := Node.new VNone in
  BiDirectionalLookupNonTerminalNode.new VNone (Some [VRef a; VRef c]).

Definition world_AC : world := (build_AC empty_world).1.

(** Plain nodes X and Y (at 0 and 1) and a [NonTerminalNode] (at 2) holding X. *)
Definition build_X : M nat :=
  let* x := Node.new VNone in
  let* y := Node.new VNone in
  NonTerminalNode.new VNone (Some [VRef x]).

Definition world_X : world := (build_X empty_world).1.

(** A tree of depth 2: a root (at 1) whose one child is a [NonTerminalNode]
    (at 0) holding a string. *)
Definition build_tree : M nat :=
  let* c := NonTerminalNode.new VNone (Some [VStr "leaf"]) in
  NonTerminalNode.new VNone (Some [VRef c]).

Definition world_tree : world := (build_tree empty_world).1.

(** A bidirectional node (at 0) holding the strings "a" and "b". *)
Definition build_ab : M nat :=
  BiDirectionalLookupNonTerminalNode.new VNone (Some [VStr "a"; VStr "b"]).

Definition world_ab : world := (build_ab empty_world).1.

(** A bidirectional node (at 1) built from ["a", None, "c", None, "e"]:
    positions 0, 2, 4 occupied, 1 and 3 empty; and a plain node X (at 0). *)
Definition build_sparse : M nat :=
  let* x := Node.new VNone in
  BiDirectionalLookupNonTerminalNode.new VNone
    (Some [VStr "a"; VNone; VStr "c"; VNone; VStr "e"]).

Definition world_sparse : world := (build_sparse empty_world).1.

(** ** Further nodes *)

(** A plain node X (at 0) and a [NonTerminalNode] without children (at 1). *)
Definition build_childless : M nat :=
  let* x := Node.new VNone in
  NonTerminalNode.new VNone None.

Definition world_childless : world := (build_childless empty_world).1.

(** Plain nodes X, Y, Z (at 0, 1, 2) and a [NonTerminalNode] (at 3) holding
    X and Y. *)
Definition build_XY : M nat :=
  let* x := Node.new VNone in
  let* y := Node.new VNone in
  let* z := Node.new VNone in
  NonTerminalNode.new VNone (Some [VRef x; VRef y]).

Definition world_XY : world := (build_XY empty_world).1.

(** ** Stores after the elementary effects *)

(** There is an instance at [a]. *)
Definition live (w : world) (a : nat) : Prop := is_Some (heap w !! a).

(** The store after [_set_parent(child, p)]. *)
Definition set_parent_w (child p : value) (w : world) : world :=
  match child with
  | VRef a => upd (with_parent p) a w
  | _ => w
  end.

(** The store after [self.__indices[key] = v]. *)
Definition set_index_w (self : nat) (key : value) (v : Z) (w : world) : world :=
  upd (λ o, with_indices (<[key := v]> (indices o)) o) self w.

(** The store after [key] has left [self.__indices]. *)
Definition del_index_w (self : nat) (key : value) (w : world) : world :=
  upd (λ o, with_indices (delete key (indices o)) o) self w.

(** The store after [print z]. *)
Definition print_w (z : Z) (w : world) : world := World (heap w) (stdout w ++ [z]).

(** The map after the entries of the elements of [s] have been shifted. *)
Definition shift_entries (shift_value : Z) (s : list value) (d : gmap value Z)
    : gmap value Z :=
  foldl (λ d item, alter (λ i, (i + shift_value)%Z) item d) d s.

(** The occupied slots hold pairwise distinct children. *)
Definition unique_children (l : list value) : Prop :=
  ∀ j k c, l !! j = Some c → l !! k = Some c → c ≠ VNone → j = k.

(** The store after an instance of class [c] has been created. *)
Definition alloc_w (c : pyclass) (w : world) : world :=
  World (<[fresh (dom (heap w)) := empty_obj c]> (heap w)) (stdout w).

(** The slot [i] exists and holds something other than [None]. *)
Definition assigned (l : list value) (i : nat) : Prop :=
  ∃ v, l !! i = Some v ∧ v ≠ VNone.

(** The elements of [s] with the positions [i], [i + 1], ... *)
Fixpoint pairs_from (i : Z) (s : list value) : list (Z * value) :=
  match s with
  | [] => []
  | x :: s' => (i, x) :: pairs_from (i + 1) s'
  end.

(** * Properties *)

(** ** Running the monad *)

Lemma bind_run {A B} (m : M A) (k : A → M B) w w' a :
  m w = (w', Ret a) → bind m k w = k a w'.
Proof. intros H. unfold bind. by rewrite H. Qed.

Lemma bind_raise {A B} (m : M A) (k : A → M B) w w' e :
  m w = (w', Raise e) → bind m k w = (w', Raise e).
Proof. intros H. unfold bind. by rewrite H. Qed.

(** ** Attributes after an update of the store *)

Lemma obj_eta o :
  Obj (cls o) (parent o) (items o) (indices o) (last_automatically_added_index o) = o.
Proof. by destruct o. Qed.

Lemma obj_at_upd f a w b :
  obj_at (upd f a w) b =
  if decide (a = b) then
    match heap w !! a with Some o => f o | None => empty_obj ClsNode end
  else obj_at w b.
Proof.
  unfold obj_at, upd; simpl. rewrite lookup_alter.
  destruct (decide (a = b)); [destruct (heap w !! a)|]; reflexivity.
Qed.

Lemma attr_upd_same {A} (g : obj → A) f a w :
  live w a → attr g (upd f a w) a = g (f (obj_at w a)).
Proof.
  intros [o Ho]. unfold attr. rewrite obj_at_upd, decide_True by done.
  unfold obj_at. by rewrite Ho.
Qed.

Lemma attr_upd_ne {A} (g : obj → A) f a w b :
  a ≠ b → attr g (upd f a w) b = attr g w b.
Proof. intros. unfold attr. by rewrite obj_at_upd, decide_False. Qed.

(** An update that does not touch the attribute [g] is not seen through [g],
    whether or not the two addresses are the same. *)
Lemma attr_upd_frame {A} (g : obj → A) f a w b :
  (∀ o, g (f o) = g o) → attr g (upd f a w) b = attr g w b.
Proof.
  intros Hg. unfold attr. rewrite obj_at_upd.
  destruct (decide (a = b)) as [->|]; [|done].
  unfold obj_at. destruct (heap w !! b); simpl; auto.
Qed.

Lemma upd_id f a w :
  (∀ o, heap w !! a = Some o → f o = o) → upd f a w = w.
Proof.
  intros Hf. unfold upd. destruct w as [h s]; simpl in *. f_equal.
  apply map_eq. intros b. rewrite lookup_alter.
  destruct (decide (a = b)) as [->|]; [|done].
  destruct (h !! b) eqn:E; simpl; [|done]. by rewrite Hf.
Qed.

Lemma live_upd f a w b : live (upd f a w) b ↔ live w b.
Proof.
  unfold live, upd; simpl. rewrite lookup_alter.
  destruct (decide (a = b)) as [->|]; [|done].
  by rewrite fmap_is_Some.
Qed.

Lemma live_set_parent_w child p w b : live (set_parent_w child p w) b ↔ live w b.
Proof. destruct child; simpl; try done. apply live_upd. Qed.

Lemma live_set_index_w self k v w b : live (set_index_w self k v w) b ↔ live w b.
Proof. apply live_upd. Qed.

Lemma live_del_index_w self k w b : live (del_index_w self k w) b ↔ live w b.
Proof. apply live_upd. Qed.

Lemma live_print_w z w b : live (print_w z w) b ↔ live w b.
Proof. reflexivity. Qed.

Ltac live_tac :=
  repeat first
    [ assumption
    | apply live_upd
    | apply live_set_parent_w
    | apply live_set_index_w
    | apply live_del_index_w
    | apply live_print_w ].

(** Hashability depends on the class alone, which no update changes. *)
Lemma is_hashable_upd f a w key :
  (∀ o, cls (f o) = cls o) →
  is_hashable (heap (upd f a w)) key = is_hashable (heap w) key.
Proof.
  intros Hf. destruct key as [| |b]; try done. simpl.
  rewrite lookup_alter. destruct (decide (a = b)) as [->|]; [|done].
  destruct (heap w !! b); simpl; [by rewrite Hf | done].
Qed.

Lemma is_hashable_set_parent_w child p w key :
  is_hashable (heap (set_parent_w child p w)) key = is_hashable (heap w) key.
Proof. destruct child; simpl; try done. by apply is_hashable_upd. Qed.

Lemma is_hashable_set_index_w self k v w key :
  is_hashable (heap (set_index_w self k v w)) key = is_hashable (heap w) key.
Proof. by apply is_hashable_upd. Qed.

Lemma is_hashable_del_index_w self k w key :
  is_hashable (heap (del_index_w self k w)) key = is_hashable (heap w) key.
Proof. by apply is_hashable_upd. Qed.

(** ** [_set_parent] and the loops over it *)

Lemma _set_parent_run child p w :
  _set_parent child p w = (set_parent_w child p w, Ret tt).
Proof. by destruct child. Qed.

Lemma for_each_set_parent_run l p : ∀ w,
  for_each l (λ child, _set_parent child p) w
  = (foldl (λ w child, set_parent_w child p w) w l, Ret tt).
Proof.
  induction l as [|c l IH]; intros w; simpl; [done|].
  erewrite bind_run by apply _set_parent_run. apply IH.
Qed.

Lemma attr_set_parent_w_frame {A} (g : obj → A) child p w b :
  (∀ q o, g (with_parent q o) = g o) →
  attr g (set_parent_w child p w) b = attr g w b.
Proof.
  intros Hg. destruct child; simpl; try done. by apply attr_upd_frame.
Qed.

Lemma attr_set_parents_frame {A} (g : obj → A) l p : ∀ w b,
  (∀ q o, g (with_parent q o) = g o) →
  attr g (foldl (λ w child, set_parent_w child p w) w l) b = attr g w b.
Proof.
  induction l as [|c l IH]; intros w b Hg; simpl; [done|].
  rewrite IH by done. by apply attr_set_parent_w_frame.
Qed.

Lemma live_set_parents l p : ∀ w b,
  live (foldl (λ w child, set_parent_w child p w) w l) b ↔ live w b.
Proof.
  induction l as [|c l IH]; intros w b; simpl; [done|].
  rewrite IH. apply live_set_parent_w.
Qed.

Lemma is_hashable_set_parents l p key : ∀ w,
  is_hashable (heap (foldl (λ w child, set_parent_w child p w) w l)) key
  = is_hashable (heap w) key.
Proof.
  induction l as [|c l IH]; intros w; simpl; [done|].
  rewrite IH. apply is_hashable_set_parent_w.
Qed.

(** Every instance among the children of the loop ends with parent [p]. *)
Lemma parent_set_parents l p : ∀ w b,
  live w b → VRef b ∈ l →
  attr parent (foldl (λ w child, set_parent_w child p w) w l) b = p.
Proof.
  induction l as [|c l IH] using rev_ind; intros w b Hb Hin.
  - by apply elem_of_nil in Hin.
  - rewrite foldl_app. simpl.
    destruct (decide (c = VRef b)) as [->|Hne].
    + simpl. rewrite attr_upd_same; [done|]. by apply live_set_parents.
    + apply elem_of_app in Hin as [Hin|Hin].
      * destruct c as [| |a]; simpl; auto.
        rewrite attr_upd_ne by congruence. auto.
      * apply list_elem_of_singleton in Hin. congruence.
Qed.

(** ** The dictionary operations *)

Lemma dict_setitem_run self key v w :
  is_hashable (heap w) key = true →
  dict_setitem self key v w = (set_index_w self key v w, Ret tt).
Proof.
  intros H. unfold dict_setitem, check_hashable, bind. by rewrite H.
Qed.

(** Deleting through [__delete_from_indices] never raises on a hashable key:
    the KeyError of an absent key is caught, and the map is left as it is. *)
Lemma delete_from_indices_run self key w :
  is_hashable (heap w) key = true →
  BiDirectionalLookupNonTerminalNode.__delete_from_indices self key w
  = (del_index_w self key w, Ret tt).
Proof.
  intros Hh.
  unfold BiDirectionalLookupNonTerminalNode.__delete_from_indices, try_except,
    dict_delitem, check_hashable, bind, read. rewrite Hh.
  destruct (attr indices w self !! key) eqn:E.
  - reflexivity.
  - unfold raise. rewrite decide_True by done. unfold ret. f_equal.
    symmetry. apply upd_id. intros o Ho.
    unfold attr, obj_at in E. rewrite Ho in E. simpl in E.
    unfold with_indices. rewrite delete_id by done. apply obj_eta.
Qed.

Lemma for_each_setitem_run self (g : Z * value → Z) kvs : ∀ w,
  Forall (λ ic, is_hashable (heap w) ic.2 = true) kvs →
  for_each kvs (λ ic, dict_setitem self ic.2 (g ic)) w
  = (foldl (λ w ic, set_index_w self ic.2 (g ic) w) w kvs, Ret tt).
Proof.
  induction kvs as [|ic kvs IH]; intros w Hh; simpl; [done|].
  inversion Hh as [|? ? H1 H2]; subst.
  erewrite bind_run by (by apply dict_setitem_run).
  apply IH. eapply Forall_impl; [exact H2|].
  intros x Hx. cbv beta. by rewrite is_hashable_set_index_w.
Qed.

Lemma attr_set_indices_frame {A} (f : obj → A) self (g : Z * value → Z) kvs : ∀ w b,
  (∀ d o, f (with_indices d o) = f o) →
  attr f (foldl (λ w ic, set_index_w self ic.2 (g ic) w) w kvs) b = attr f w b.
Proof.
  induction kvs as [|ic kvs IH]; intros w b Hf; simpl; [done|].
  rewrite IH by done. apply attr_upd_frame. intros o. apply Hf.
Qed.

Lemma indices_set_indices self (g : Z * value → Z) kvs : ∀ w,
  live w self →
  attr indices (foldl (λ w ic, set_index_w self ic.2 (g ic) w) w kvs) self
  = foldl (λ d ic, <[ic.2 := g ic]> d) (attr indices w self) kvs.
Proof.
  induction kvs as [|ic kvs IH]; intros w Hl; simpl; [done|].
  rewrite IH by (by apply live_upd).
  unfold set_index_w. by rewrite attr_upd_same.
Qed.

Lemma enumerate_snoc {A} (l : list A) x :
  enumerate (l ++ [x]) = enumerate l ++ [(len l, x)].
Proof.
  unfold enumerate. rewrite imap_app. simpl.
  by rewrite Nat.add_0_r.
Qed.

(** After the entries of [enumerate l] have been written in order, each
    element of a duplicate-free [l] is mapped to the value written at its own
    position. *)
Lemma lookup_fold_enumerate (g : Z * value → Z) (l : list value) :
  ∀ (d : gmap value Z) k c,
  NoDup l → l !! k = Some c →
  foldl (λ d ic, <[ic.2 := g ic]> d) d (enumerate l) !! c
  = Some (g (Z.of_nat k, c)).
Proof.
  induction l as [|x l IH] using rev_ind; intros d k c Hnd Hk; [done|].
  rewrite enumerate_snoc, foldl_app. simpl.
  apply NoDup_app in Hnd as (Hnd & Hdisj & _).
  destruct (decide (k < length l)) as [Hlt|Hge].
  - rewrite lookup_app_l in Hk by done.
    assert (x ≠ c) as Hne.
    { intros ->. apply (Hdisj c); [by eapply list_elem_of_lookup_2|].
      by apply list_elem_of_singleton. }
    rewrite lookup_insert_ne by done. by apply IH.
  - rewrite lookup_app_r in Hk by lia.
    destruct (k - length l) as [|n] eqn:Hkl; simpl in Hk; [|done].
    injection Hk as ->. rewrite lookup_insert_eq.
    unfold len. do 3 f_equal. lia.
Qed.

(** ** The methods of [NonTerminalNode] *)

(** With a list or tuple, the parent loop sees the elements again. *)
Lemma NT_iadd_run self l w :
  NonTerminalNode.__iadd__ self (Sequence l) w
  = (foldl (λ w child, set_parent_w child (VRef self) w)
       (upd (λ o, with_items (items o ++ l) o) self w) l,
     Ret (VRef self)).
Proof.
  unfold NonTerminalNode.__iadd__, list_extend.
  erewrite bind_run by reflexivity.
  erewrite bind_run by reflexivity.
  erewrite bind_run by apply for_each_set_parent_run.
  reflexivity.
Qed.

(** With an iterator, the parent loop finds it exhausted. *)
Lemma NT_iadd_iterator_run self l w :
  NonTerminalNode.__iadd__ self (Iterator l) w
  = (upd (λ o, with_items (items o ++ l) o) self w, Ret (VRef self)).
Proof. reflexivity. Qed.

Lemma NT_setitem_run self index child w n :
  norm_index (attr items w self) index = Some n →
  NonTerminalNode.__setitem__ self index child w
  = (set_parent_w child (VRef self)
       (upd (with_items (<[n := child]> (attr items w self))) self w), Ret tt).
Proof.
  intros Hn. unfold NonTerminalNode.__setitem__.
  erewrite bind_run by reflexivity.
  unfold list_setitem. rewrite Hn.
  erewrite bind_run by reflexivity.
  erewrite bind_run by reflexivity.
  apply _set_parent_run.
Qed.

(** ** The scan for the next free index *)

Lemma next_free_index_loop_S fuel self i w :
  BiDirectionalLookupNonTerminalNode.next_free_index_loop (S fuel) self i w
  = match _is_assigned i (attr items w self) with
    | Ret true =>
        BiDirectionalLookupNonTerminalNode.next_free_index_loop fuel self (i + 1)
          (print_w i w)
    | Ret false => (w, Ret i)
    | Raise e => (w, Raise e)
    end.
Proof.
  simpl. unfold bind at 1. unfold read at 1. cbv beta iota.
  unfold bind at 1. unfold lift at 1.
  destruct (_is_assigned i (attr items w self)) as [[]|]; reflexivity.
Qed.

(** ** Deep copy *)

Lemma list___new___raises X args w :
  list___new__ X args w = (w, Raise TypeError).
Proof. by destruct X. Qed.

(** [__deepcopy__] never returns: either the copy of a child raises, or the
    call of [__new__] on the parent does. *)
Lemma NT_deepcopy_raises f self memo w :
  ∃ w' e, NonTerminalNode.__deepcopy__ f self memo w = (w', Raise e).
Proof.
  unfold NonTerminalNode.__deepcopy__.
  erewrite bind_run by reflexivity.
  destruct (list_comprehension f (attr items w self) w) as [w1 [ys|e]] eqn:E.
  - erewrite bind_run by exact E.
    erewrite bind_run by reflexivity.
    rewrite list___new___raises. eauto.
  - erewrite bind_raise by exact E. eauto.
Qed.

(** Whatever the recursion limit, the deep copy of a container that is not in
    the memo raises. *)
Lemma deepcopy_container_raises fuel a memo w :
  memo !! a = None → attr cls w a ≠ ClsNode →
  ∃ w' e, deepcopy fuel (VRef a) memo w = (w', Raise e).
Proof.
  intros Hmemo Hcls. destruct fuel as [|fuel]; simpl; [by eauto|].
  rewrite Hmemo. erewrite bind_run by reflexivity.
  destruct (attr cls w a) eqn:E; [done| |];
    match goal with
    | |- context [NonTerminalNode.__deepcopy__ ?f a memo] =>
        destruct (NT_deepcopy_raises f a memo w) as (w' & e & H)
    end;
    erewrite bind_raise by exact H; eauto.
Qed.

(** ** Padding with placeholders *)

Lemma upd_ext f g a w :
  (∀ o, heap w !! a = Some o → f o = g o) → upd f a w = upd g a w.
Proof.
  intros Hfg. unfold upd. f_equal. apply map_eq. intros b.
  rewrite !lookup_alter. destruct (decide (a = b)) as [->|]; [|done].
  destruct (heap w !! b) eqn:E; simpl; [|done]. by rewrite Hfg.
Qed.

Lemma upd_upd_items l1 l2 a w :
  upd (with_items l2) a (upd (with_items l1) a w) = upd (with_items l2) a w.
Proof.
  unfold upd; simpl. f_equal.
  apply map_eq. intros b. rewrite !lookup_alter.
  destruct (decide (a = b)) as [->|]; [|done].
  rewrite ?decide_True by done. by destruct (heap w !! b).
Qed.

Lemma NT_append_run self child w :
  live w self →
  NonTerminalNode.append self child w
  = (set_parent_w child (VRef self)
       (upd (with_items (attr items w self ++ [child])) self w), Ret tt).
Proof.
  intros [o Ho]. unfold NonTerminalNode.append.
  erewrite bind_run by reflexivity. rewrite _set_parent_run.
  do 2 f_equal. apply upd_ext. intros o' Ho'.
  unfold attr, obj_at. rewrite Ho'. reflexivity.
Qed.

(** The loop of [__ensure_valid_index] returns within its bound, having
    appended placeholders until the index is valid. *)
Lemma ensure_valid_index_loop_run self index : ∀ fuel w,
  live w self →
  Z.to_nat (index + 1 - len (attr items w self)) < fuel →
  BiDirectionalLookupNonTerminalNode.ensure_valid_index_loop fuel self index w
  = (upd (with_items
            (attr items w self
             ++ replicate (Z.to_nat (index + 1 - len (attr items w self))) VNone))
       self w, Ret tt).
Proof.
  induction fuel as [|fuel IH]; intros w Hlive Hfuel; [lia|].
  simpl. erewrite bind_run by reflexivity.
  destruct (Z.leb_spec (len (attr items w self)) index) as [Hle|Hgt].
  - erewrite bind_run by (by apply NT_append_run). simpl.
    set (w1 := upd (with_items (attr items w self ++ [VNone])) self w).
    assert (attr items w1 self = attr items w self ++ [VNone]) as Hitems1.
    { unfold w1. by rewrite attr_upd_same. }
    assert (len (attr items w1 self) = len (attr items w self) + 1)%Z as Hlen1.
    { rewrite Hitems1. unfold len. rewrite length_app. simpl. lia. }
    rewrite IH; [|by apply live_upd|lia].
    f_equal. rewrite Hlen1, Hitems1. unfold w1. rewrite upd_upd_items.
    f_equal. f_equal. rewrite <- app_assoc. f_equal.
    replace (Z.to_nat (index + 1 - len (attr items w self)))
      with (S (Z.to_nat (index + 1 - (len (attr items w self) + 1)))) by lia.
    reflexivity.
  - replace (Z.to_nat (index + 1 - len (attr items w self))) with 0 by lia.
    simpl. rewrite app_nil_r. unfold ret. f_equal. symmetry.
    apply upd_id. intros o Ho. unfold attr, obj_at. rewrite Ho. simpl.
    apply obj_eta.
Qed.

(** [set(index, child)] with the index at or beyond the length: the sequence
    is padded and the child stored, and no attribute but the sequence of the
    node and the parent of the child changes; the map in particular is what
    it was. *)
Lemma setitem_past_end_run self index child w :
  live w self →
  (len (attr items w self) <= index)%Z →
  BiDirectionalLookupNonTerminalNode.__setitem__ self index child w
  = (set_parent_w child (VRef self)
       (upd (with_items
               (attr items w self
                ++ replicate (Z.to_nat (index - len (attr items w self))) VNone
                ++ [child]))
          self w), Ret tt).
Proof.
  intros Hlive Hle. unfold BiDirectionalLookupNonTerminalNode.__setitem__.
  erewrite bind_run by reflexivity.
  destruct (Z.gtb_spec (len (attr items w self)) index) as [Hgt|_]; [lia|].
  unfold BiDirectionalLookupNonTerminalNode.__ensure_valid_index.
  erewrite bind_run.
  2:{ erewrite bind_run by reflexivity.
      apply ensure_valid_index_loop_run; [done|lia]. }
  set (old := attr items w self) in *.
  set (k := Z.to_nat (index - len old)).
  replace (Z.to_nat (index + 1 - len old)) with (S k) by lia.
  set (w1 := upd (with_items (old ++ replicate (S k) VNone)) self w).
  assert (attr items w1 self = old ++ replicate (S k) VNone) as Hitems1.
  { unfold w1. by rewrite attr_upd_same. }
  rewrite (NT_setitem_run self index child w1 (Z.to_nat index)).
  - rewrite Hitems1. unfold w1. rewrite upd_upd_items. do 3 f_equal.
    assert (Z.to_nat index = length old + k) as -> by (unfold k, len in *; lia).
    rewrite insert_app_r_alt by lia.
    replace (length old + k - length old) with k by lia. f_equal.
    rewrite replicate_S_end.
    rewrite insert_app_r_alt by (rewrite length_replicate; lia).
    rewrite length_replicate. by replace (k - k) with 0 by lia.
  - rewrite Hitems1. unfold norm_index.
    assert (len (old ++ replicate (S k) VNone) = index + 1)%Z as ->.
    { unfold len in *. rewrite length_app, length_replicate. unfold k. lia. }
    assert (0 <= index)%Z by (unfold len in *; lia).
    destruct (Z.ltb_spec index 0); [lia|].
    destruct (Z.leb_spec 0 index); [|lia].
    destruct (Z.ltb_spec index (index + 1)); [|lia]. done.
Qed.

Lemma setitem_past_end_keeps_indices self index child w b :
  live w self →
  (len (attr items w self) <= index)%Z →
  attr indices (BiDirectionalLookupNonTerminalNode.__setitem__ self index child w).1 b
  = attr indices w b.
Proof.
  intros Hlive Hle. rewrite setitem_past_end_run by done. simpl.
  rewrite attr_set_parent_w_frame by done. by rewrite attr_upd_frame.
Qed.

(** ** Recomputing the map from the sequence *)

(** The loop [for index, item in enumerate(self): self.__indices[item] = index]
    on a sequence of hashable, pairwise distinct elements: it returns, and
    every element is then mapped to its position. *)
Lemma recompute_indices_run self l w :
  live w self →
  attr items w self = l →
  Forall (λ c, is_hashable (heap w) c = true) l →
  NoDup l →
  ∃ w', for_each (enumerate l) (λ ic, dict_setitem self ic.2 ic.1) w = (w', Ret tt) ∧
        attr items w' self = l ∧
        ∀ i c, l !! i = Some c → attr indices w' self !! c = Some (Z.of_nat i).
Proof.
  intros Hlive Hitems Hhash Hnd.
  eexists. split; [|split].
  - apply (for_each_setitem_run self (λ ic, ic.1)).
    apply Forall_forall. intros [i c] Hin. simpl.
    rewrite Forall_forall in Hhash. apply Hhash.
    unfold enumerate in Hin. apply elem_of_lookup_imap in Hin as (k & y & Heq & Hk).
    injection Heq as -> ->. by eapply list_elem_of_lookup_2.
  - by rewrite attr_set_indices_frame.
  - intros i c Hi. rewrite indices_set_indices by done.
    by rewrite (lookup_fold_enumerate (λ ic, ic.1) l _ i c).
Qed.

Lemma sorted_insert_perm lt x l : sorted_insert lt x l ≡ₚ x :: l.
Proof.
  induction l as [|y l IH]; simpl; [done|].
  destruct (lt y x); [|done]. rewrite IH. apply Permutation_swap.
Qed.

Lemma stable_sort_perm lt l : stable_sort lt l ≡ₚ l.
Proof.
  induction l as [|x l IH]; simpl; [done|].
  rewrite sorted_insert_perm. by rewrite IH.
Qed.

(** The sort is stable: elements none of which sorts before another one stay
    in their order. *)
Lemma stable_sort_keeps_equal lt l :
  (∀ x y, x ∈ l → y ∈ l → lt x y = false) → stable_sort lt l = l.
Proof.
  induction l as [|x l IH]; intros Heq; simpl; [done|].
  rewrite IH by (intros y z Hy Hz; apply Heq; by right).
  destruct l as [|y l]; [done|]. simpl.
  rewrite Heq; [done| |]; [right|]; by left.
Qed.

(** Sorted by their first letter, in either direction, "b1" stays before
    "b2", as in the list. *)
Lemma list_sort_is_stable address :
  let first_letter (v : value) :=
    match v with VStr (String c _) => VStr (String c EmptyString) | _ => v end in
  let l := [VStr "b1"; VStr "a"; VStr "b2"] in
  list_sort address None (Some first_letter) false l = [VStr "a"; VStr "b1"; VStr "b2"] ∧
  list_sort address None (Some first_letter) true l = [VStr "b1"; VStr "b2"; VStr "a"].
Proof. split; vm_compute; reflexivity. Qed.

(** [reverse] on a node of hashable, pairwise distinct children: the sequence
    is reversed and every child is mapped to its new position. *)
Lemma reverse_recomputes_indices self w :
  live w self →
  Forall (λ c, is_hashable (heap w) c = true) (attr items w self) →
  NoDup (attr items w self) →
  let r := BiDirectionalLookupNonTerminalNode.reverse self w in
  r.2 = Ret tt ∧
  attr items r.1 self = reverse (attr items w self) ∧
  ∀ i c, attr items r.1 self !! i = Some c →
         attr indices r.1 self !! c = Some (Z.of_nat i).
Proof.
  intros Hlive Hhash Hnd r.
  set (w1 := upd (λ o, with_items (reverse (items o)) o) self w).
  assert (attr items w1 self = reverse (attr items w self)) as Hitems1.
  { unfold w1. by rewrite attr_upd_same. }
  destruct (recompute_indices_run self (reverse (attr items w self)) w1)
    as (w' & Hrun & Hitems' & Hidx).
  - by apply live_upd.
  - exact Hitems1.
  - rewrite reverse_Permutation. eapply Forall_impl; [exact Hhash|].
    intros c Hc. cbv beta. unfold w1. by rewrite is_hashable_upd.
  - by rewrite reverse_Permutation.
  - assert (r = (w', Ret tt)) as ->.
    { unfold r, BiDirectionalLookupNonTerminalNode.reverse.
      erewrite bind_run by reflexivity. fold w1.
      erewrite bind_run by reflexivity. rewrite Hitems1. exact Hrun. }
    simpl. rewrite Hitems'. auto.
Qed.

(** [sort], whatever its arguments: the sequence is sorted in the default
    ascending order and every child is mapped to its new position. *)
Lemma sort_recomputes_indices address self cmp key reverse_flag w :
  live w self →
  Forall (λ c, is_hashable (heap w) c = true) (attr items w self) →
  NoDup (attr items w self) →
  let r := BiDirectionalLookupNonTerminalNode.sort address self cmp key reverse_flag w in
  r.2 = Ret tt ∧
  attr items r.1 self = list_sort address None None false (attr items w self) ∧
  ∀ i c, attr items r.1 self !! i = Some c →
         attr indices r.1 self !! c = Some (Z.of_nat i).
Proof.
  intros Hlive Hhash Hnd r.
  set (w1 := upd (λ o, with_items (list_sort address None None false (items o)) o) self w).
  assert (attr items w1 self = list_sort address None None false (attr items w self)) as Hitems1.
  { unfold w1. by rewrite attr_upd_same. }
  assert (list_sort address None None false (attr items w self) ≡ₚ attr items w self) as Hperm.
  { apply stable_sort_perm. }
  destruct (recompute_indices_run self (list_sort address None None false (attr items w self)) w1)
    as (w' & Hrun & Hitems' & Hidx).
  - by apply live_upd.
  - exact Hitems1.
  - rewrite Hperm. eapply Forall_impl; [exact Hhash|].
    intros c Hc. cbv beta. unfold w1. by rewrite is_hashable_upd.
  - by rewrite Hperm.
  - assert (r = (w', Ret tt)) as ->.
    { unfold r, BiDirectionalLookupNonTerminalNode.sort.
      erewrite bind_run by reflexivity. fold w1.
      erewrite bind_run by reflexivity. rewrite Hitems1. exact Hrun. }
    simpl. rewrite Hitems'. auto.
Qed.

(** ** Termination of the scan, and the failure of [pop] *)

Lemma _is_assigned_true i l : _is_assigned i l = Ret true → (i < len l)%Z.
Proof.
  unfold _is_assigned. destruct (Z.leb_spec (len l) i); [discriminate|done].
Qed.

Lemma _is_assigned_raise i l e : _is_assigned i l = Raise e → e = IndexError.
Proof.
  unfold _is_assigned, list_getitem.
  destruct (len l <=? i)%Z; [discriminate|].
  destruct (norm_index l i) as [n|]; [destruct (l !! n)|]; congruence.
Qed.

(** The scan of [__get_next_free_index] stops within its bound. *)
Lemma next_free_index_loop_terminates self : ∀ fuel i w,
  Z.to_nat (len (attr items w self) - i) < fuel →
  (BiDirectionalLookupNonTerminalNode.next_free_index_loop fuel self i w).2
  ≠ Raise OutOfFuel.
Proof.
  induction fuel as [|fuel IH]; intros i w Hfuel; [lia|].
  rewrite next_free_index_loop_S.
  destruct (_is_assigned i (attr items w self)) as [[]|e] eqn:E; simpl.
  - apply IH. apply _is_assigned_true in E.
    change (attr items (print_w i w) self) with (attr items w self). lia.
  - discriminate.
  - apply _is_assigned_raise in E. by subst.
Qed.

Lemma get_next_free_index_terminates self w :
  (BiDirectionalLookupNonTerminalNode.__get_next_free_index self w).2
  ≠ Raise OutOfFuel.
Proof.
  unfold BiDirectionalLookupNonTerminalNode.__get_next_free_index.
  erewrite bind_run by reflexivity. cbv zeta.
  erewrite bind_run by reflexivity.
  apply next_free_index_loop_terminates. lia.
Qed.

(** The loop of [__setslice__] over the new items stops within its bound. *)
Lemma add_new_items_loop_terminates self seq stop : ∀ fuel i j w,
  Z.to_nat (stop - i) < fuel →
  (BiDirectionalLookupNonTerminalNode.add_new_items_loop fuel self seq stop i j w).2
  ≠ Raise OutOfFuel.
Proof.
  induction fuel as [|fuel IH]; intros i j w Hfuel; [lia|].
  simpl. destruct (Z.ltb_spec i stop) as [Hlt|Hge]; [|discriminate].
  unfold bind at 1, lift at 1.
  destruct (list_getitem seq j) as [item|e] eqn:Hget.
  - unfold bind at 1.
    destruct (dict_setitem self item i w) as [w1 [[]|e]] eqn:Hset.
    + apply IH. lia.
    + simpl. intros [= ->].
      unfold dict_setitem, check_hashable, bind, write in Hset.
      destruct (is_hashable (heap w) item); discriminate.
  - simpl. unfold list_getitem in Hget.
    destruct (norm_index seq j) as [n|]; [destruct (seq !! n)|]; congruence.
Qed.

(** Whenever [pop] raises KeyError, the element has already left the
    sequence, which is one shorter than before the call. *)
Lemma pop_keyerror_has_removed self arg w :
  live w self →
  (BiDirectionalLookupNonTerminalNode.pop self arg w).2 = Raise KeyError →
  length (attr items (BiDirectionalLookupNonTerminalNode.pop self arg w).1 self) + 1
  = length (attr items w self).
Proof.
  intros Hlive.
  unfold BiDirectionalLookupNonTerminalNode.pop, NonTerminalNode.pop.
  set (l := attr items w self).
  destruct (list_pop l arg) as [[v l']|e] eqn:Hpop.
  - assert (length l' + 1 = length l) as Hlen.
    { unfold list_pop in Hpop.
      destruct (negb (fits_ssize_t (default (-1)%Z arg))); [discriminate|].
      destruct (norm_index l (default (-1)%Z arg)) as [n|]; [|discriminate].
      destruct (l !! n) eqn:Hn; [|discriminate].
      injection Hpop as <- <-. rewrite length_delete by eauto.
      apply lookup_lt_Some in Hn. lia. }
    set (w1 := set_parent_w v VNone (upd (with_items l') self w)).
    assert (attr items w1 self = l') as Hitems1.
    { unfold w1. rewrite attr_set_parent_w_frame by done.
      by rewrite attr_upd_same. }
    erewrite (bind_run _ _ w w1 v).
    2:{ erewrite bind_run by reflexivity. fold l. rewrite Hpop.
        erewrite bind_run by reflexivity. simpl.
        erewrite bind_run by reflexivity.
        erewrite bind_run by apply _set_parent_run. reflexivity. }
    unfold dict_delitem, check_hashable, bind, read, raise, write, ret.
    destruct (is_hashable (heap w1) v); [|discriminate].
    destruct (attr indices w1 self !! v); [discriminate|].
    simpl. intros _. by rewrite Hitems1.
  - erewrite (bind_raise _ _ w w e); [simpl; intros He|].
    + unfold list_pop in Hpop.
      destruct (negb (fits_ssize_t (default (-1)%Z arg))); [congruence|].
      destruct (norm_index l (default (-1)%Z arg)) as [n|];
        [destruct (l !! n)|]; congruence.
    + erewrite bind_run by reflexivity. fold l. rewrite Hpop. reflexivity.
Qed.

(** ** Shifting the entries of a slice *)

Lemma lookup_shift_entries sh s : ∀ (d : gmap value Z) c,
  NoDup s →
  shift_entries sh s d !! c
  = if decide (c ∈ s) then (λ i, (i + sh)%Z) <$> d !! c else d !! c.
Proof.
  induction s as [|x s IH] using rev_ind; intros d c Hnd.
  - destruct (decide (c ∈ [])) as [H|]; [by apply elem_of_nil in H|done].
  - unfold shift_entries in *. rewrite foldl_app. simpl.
    apply NoDup_app in Hnd as (Hnd & Hdisj & _).
    rewrite lookup_alter. destruct (decide (x = c)) as [->|Hne].
    + rewrite IH by done.
      rewrite decide_False.
      2:{ intros Hin. apply (Hdisj c Hin). by apply list_elem_of_singleton. }
      rewrite decide_True; [done|].
      apply elem_of_app. right. by apply list_elem_of_singleton.
    + rewrite IH by done.
      destruct (decide (c ∈ s)) as [Hin|Hnin].
      * rewrite decide_True; [done|]. apply elem_of_app. by left.
      * rewrite decide_False; [done|].
        intros [?|Hx%list_elem_of_singleton]%elem_of_app; congruence.
Qed.

Lemma update_dict_indices_run self start stop sh w :
  live w self →
  let s := list_getslice (attr items w self) start stop in
  Forall (λ c, is_hashable (heap w) c = true ∧ is_Some (attr indices w self !! c)) s →
  BiDirectionalLookupNonTerminalNode.__update_dict_indices self start stop sh w
  = (upd (λ o, with_indices (shift_entries sh s (indices o)) o) self w, Ret tt).
Proof.
  intros Hlive s Hs.
  unfold BiDirectionalLookupNonTerminalNode.__update_dict_indices.
  erewrite bind_run by reflexivity. cbv zeta. fold s.
  clearbody s. revert w Hlive Hs.
  induction s as [|x s IH]; intros w Hlive Hs.
  - simpl. unfold ret. f_equal. symmetry. apply upd_id.
    intros o _. apply obj_eta.
  - inversion Hs as [|? ? [Hh [i Hi]] Hs']; subst. simpl.
    set (w1 := upd (λ o, with_indices (alter (λ i, (i + sh)%Z) x (indices o)) o) self w).
    assert ((let* i := dict_getitem self x in dict_setitem self x (i + sh)) w
            = (w1, Ret tt)) as Hstep.
    { erewrite bind_run.
      2:{ unfold dict_getitem, check_hashable. unfold bind at 1. rewrite Hh.
          erewrite bind_run by reflexivity. rewrite Hi. reflexivity. }
      rewrite dict_setitem_run by done. f_equal.
      apply upd_ext. intros o Ho. f_equal.
      unfold attr, obj_at in Hi. rewrite Ho in Hi. simpl in Hi.
      apply map_eq. intros c. rewrite lookup_alter, lookup_insert.
      destruct (decide (x = c)) as [->|]; [by rewrite Hi|done]. }
    erewrite bind_run by exact Hstep.
    rewrite IH.
    + f_equal. unfold w1, upd. simpl. f_equal.
      apply map_eq. intros b. rewrite !lookup_alter.
      destruct (decide (self = b)) as [->|]; [|done].
      rewrite ?decide_True by done. by destruct (heap w !! b).
    + by apply live_upd.
    + eapply Forall_impl; [exact Hs'|]. intros c [Hc1 Hc2]. cbv beta.
      unfold w1. rewrite is_hashable_upd by done. split; [done|].
      rewrite attr_upd_same by done. simpl. rewrite lookup_alter.
      destruct (decide (x = c)) as [->|]; [|done].
      by apply fmap_is_Some.
Qed.

(** ** The map that the children determine *)

Lemma unique_children_tail x l : unique_children (x :: l) → unique_children l.
Proof.
  intros Hu j k c Hj Hk Hc.
  assert (S j = S k) by (by apply (Hu (S j) (S k) c)). lia.
Qed.

Lemma lookup_rederive_from l : ∀ i k c,
  c ≠ VNone → unique_children l → l !! k = Some c →
  rederive_from i l !! c = Some (i + Z.of_nat k)%Z.
Proof.
  induction l as [|x l IH]; intros i k c Hc Hu Hk; [done|].
  simpl. destruct k as [|k]; simpl in Hk.
  - injection Hk as ->. rewrite bool_decide_eq_false_2 by done.
    rewrite lookup_insert_eq. f_equal. lia.
  - assert (x ≠ c) as Hne.
    { intros ->. by specialize (Hu 0 (S k) c eq_refl Hk Hc). }
    pose proof (IH (i + 1)%Z k c Hc (unique_children_tail _ _ Hu) Hk) as Hl.
    case_bool_decide.
    + rewrite Hl. f_equal. lia.
    + rewrite lookup_insert_ne by done. rewrite Hl. f_equal. lia.
Qed.

Lemma lookup_rederive_from_None l : ∀ i c,
  c = VNone ∨ c ∉ l → rederive_from i l !! c = None.
Proof.
  induction l as [|x l IH]; intros i c Hc; [done|].
  simpl. case_bool_decide as Hx.
  - apply IH. destruct Hc as [?|Hc]; [by left|].
    right. intros ?. apply Hc. by right.
  - assert (x ≠ c) as Hne.
    { intros ->. destruct Hc as [?|Hc]; [done|]. apply Hc. by left. }
    rewrite lookup_insert_ne by done. apply IH.
    destruct Hc as [?|Hc]; [by left|].
    right. intros ?. apply Hc. by right.
Qed.

Lemma unique_children_insert l n child :
  unique_children l → n ≤ length l → child ∉ l →
  unique_children (take n l ++ child :: drop n l).
Proof.
  intros Hu Hn Hchild j k c Hj Hk Hc.
  assert (∀ i, (take n l ++ child :: drop n l) !! i = Some c →
               (c = child ∧ i = n) ∨
               (c ≠ child ∧ ∃ i', l !! i' = Some c ∧
                  i = if decide (i' < n) then i' else S i')) as Hpos.
  { intros i Hi.
    assert (length (take n l) = n) as Hlen by (rewrite length_take; lia).
    destruct (decide (i < n)) as [Hlt|Hge].
    - rewrite lookup_app_l in Hi by lia. rewrite lookup_take_lt in Hi by done.
      right. split.
      + intros ->. apply Hchild. by eapply list_elem_of_lookup_2.
      + exists i. by rewrite decide_True.
    - rewrite lookup_app_r in Hi by lia. rewrite Hlen in Hi.
      destruct (i - n) as [|m] eqn:Hm; simpl in Hi.
      + injection Hi as <-. left. split; [done|lia].
      + rewrite lookup_drop in Hi. right. split.
        * intros ->. apply Hchild. by eapply list_elem_of_lookup_2.
        * exists (n + m). split; [done|]. rewrite decide_False by lia. lia. }
  destruct (Hpos j Hj) as [[-> ->]|[Hne (j' & Hj' & ->)]];
    destruct (Hpos k Hk) as [[? ->]|[? (k' & Hk' & ->)]]; try done.
  assert (j' = k') as -> by (by apply (Hu j' k' c)). done.
Qed.

(** Shifting the entries from position [n] on by one and adding the entry of
    the new child gives the map of the sequence with the child inserted. *)
Lemma rederive_insert l n child :
  unique_children l → n ≤ length l → VNone ∉ drop n l →
  child ≠ VNone → child ∉ l →
  <[child := Z.of_nat n]> (shift_entries 1 (drop n l) (rederive l))
  = rederive (take n l ++ child :: drop n l).
Proof.
  intros Hu Hn Hnone Hchild Hfresh.
  assert (length (take n l) = n) as Hlen by (rewrite length_take; lia).
  assert (NoDup (drop n l)) as Hnd.
  { apply NoDup_alt. intros i j c Hi Hj. rewrite lookup_drop in Hi, Hj.
    assert (n + i = n + j); [|lia]. apply (Hu _ _ c); [done..|].
    intros ->. apply Hnone. eapply list_elem_of_lookup_2.
    by rewrite lookup_drop. }
  pose proof (unique_children_insert l n child Hu Hn Hfresh) as Hu'.
  apply map_eq. intros c. unfold rederive.
  destruct (decide (child = c)) as [<-|Hne].
  - rewrite lookup_insert_eq. symmetry.
    rewrite (lookup_rederive_from (take n l ++ child :: drop n l) 0 n child);
      [f_equal; lia|done|done|].
    rewrite lookup_app_r by lia. by rewrite Hlen, Nat.sub_diag.
  - rewrite lookup_insert_ne by done.
    rewrite lookup_shift_entries by done.
    destruct (decide (c ∈ drop n l)) as [Hin|Hnin].
    + apply list_elem_of_lookup in Hin as [i Hi].
      assert (c ≠ VNone) as Hc.
      { intros ->. apply Hnone. by eapply list_elem_of_lookup_2. }
      rewrite lookup_drop in Hi.
      rewrite (lookup_rederive_from l 0 (n + i) c) by done. simpl.
      rewrite (lookup_rederive_from (take n l ++ child :: drop n l) 0 (S (n + i)) c);
        [f_equal; lia|done|done|].
      rewrite lookup_app_r by lia. rewrite Hlen.
      replace (S (n + i) - n) with (S i) by lia. simpl. by rewrite lookup_drop.
    + destruct (decide (c ≠ VNone ∧ c ∈ take n l)) as [[Hc Hin]|Hout].
      * apply list_elem_of_lookup in Hin as [i Hi].
        pose proof (lookup_lt_Some _ _ _ Hi) as Hlt. rewrite Hlen in Hlt.
        rewrite (lookup_rederive_from (take n l ++ child :: drop n l) 0 i c);
          [|done|done|].
        2:{ rewrite lookup_app_l by lia. exact Hi. }
        rewrite lookup_take_lt in Hi by done.
        by rewrite (lookup_rederive_from l 0 i c).
      * assert (c = VNone ∨ c ∉ take n l) as Hout'.
        { destruct (decide (c = VNone)); [by left|]. right. naive_solver. }
        rewrite !lookup_rederive_from_None; [done| |].
        -- destruct Hout' as [?|Hout']; [by left|]. right.
           intros [?|[?|?]%elem_of_cons]%elem_of_app; congruence.
        -- destruct Hout' as [?|Hout']; [by left|]. right.
           rewrite <- (take_drop n l).
           intros [?|?]%elem_of_app; congruence.
Qed.

(** ** [insert] where no placeholder is shifted *)

Lemma list_getslice_to_end l n :
  n ≤ length l → list_getslice l (Z.of_nat n) (len l) = drop n l.
Proof.
  intros Hn. unfold list_getslice, slice_bounds, len.
  replace (Z.to_nat (0 `max` (Z.of_nat n `min` Z.of_nat (length l)))) with n by lia.
  replace (Z.to_nat (0 `max` (Z.of_nat (length l) `min` Z.of_nat (length l))))
    with (length l) by lia.
  replace (n `max` length l) with (length l) by lia.
  apply take_ge. rewrite length_drop. lia.
Qed.

Lemma list_insert_inside l n v :
  n ≤ length l → list_insert l (Z.of_nat n) v = take n l ++ v :: drop n l.
Proof.
  intros Hn. unfold list_insert, len.
  destruct (Z.ltb_spec (Z.of_nat n) 0); [lia|].
  by replace (Z.to_nat (0 `max` (Z.of_nat n `min` Z.of_nat (length l)))) with n by lia.
Qed.

(** On a consistent node whose slots from [index] on are all occupied,
    [insert(index, child)] of a new child returns; the child is at [index],
    the elements from [index] on have moved up by one, their entries have
    been shifted by one, the child has the entry [index], and the node is
    consistent again. *)
Lemma insert_shifts_and_records self (n : nat) child w :
  live w self →
  consistent w self →
  unique_children (attr items w self) →
  Forall (λ c, is_hashable (heap w) c = true) (attr items w self) →
  n ≤ length (attr items w self) →
  VNone ∉ drop n (attr items w self) →
  child ≠ VNone → child ∉ attr items w self → is_hashable (heap w) child = true →
  let r := BiDirectionalLookupNonTerminalNode.insert self (Z.of_nat n) child w in
  r.2 = Ret tt ∧
  attr items r.1 self = take n (attr items w self) ++ child :: drop n (attr items w self) ∧
  attr indices r.1 self
    = <[child := Z.of_nat n]>
        (shift_entries 1 (drop n (attr items w self)) (attr indices w self)) ∧
  consistent r.1 self.
Proof.
  intros Hlive Hcons Hu Hhash Hn Hnone Hchild Hfresh Hhc r.
  set (l := attr items w self) in *.
  set (w1 := upd (λ o, with_indices (shift_entries 1 (drop n l) (indices o)) o) self w).
  set (w2 := upd (λ o, with_items (list_insert (items o) (Z.of_nat n) child) o) self w1).
  set (w3 := set_index_w self child (Z.of_nat n) w2).
  assert (r = (w3, Ret tt)) as ->.
  { unfold r, BiDirectionalLookupNonTerminalNode.insert.
    erewrite bind_run by reflexivity. fold l.
    erewrite bind_run.
    2:{ apply update_dict_indices_run; [done|]. fold l.
        rewrite list_getslice_to_end by done.
        apply Forall_forall. intros c Hc. split.
        - rewrite Forall_forall in Hhash. apply Hhash.
          rewrite <- (take_drop n l). apply elem_of_app. by right.
        - unfold consistent in Hcons. rewrite Hcons. fold l.
          apply list_elem_of_lookup in Hc as [i Hi].
          assert (c ≠ VNone).
          { intros ->. apply Hnone. by eapply list_elem_of_lookup_2. }
          rewrite lookup_drop in Hi. unfold rederive.
          by rewrite (lookup_rederive_from l 0 (n + i) c). }
    fold l. rewrite list_getslice_to_end by done. fold w1.
    erewrite bind_run by reflexivity. fold w2.
    rewrite bool_decide_eq_false_2 by done.
    apply dict_setitem_run. unfold w2, w1. by rewrite !is_hashable_upd. }
  simpl.
  assert (attr items w3 self = take n l ++ child :: drop n l) as Hitems.
  { unfold w3, set_index_w. rewrite attr_upd_frame by done.
    unfold w2. rewrite attr_upd_same by (unfold w1; by apply live_upd). simpl.
    change (items (obj_at w1 self)) with (attr items w1 self).
    unfold w1. rewrite attr_upd_frame by done. fold l.
    by apply list_insert_inside. }
  assert (attr indices w3 self
          = <[child := Z.of_nat n]> (shift_entries 1 (drop n l) (attr indices w self)))
    as Hidx.
  { unfold w3, set_index_w.
    rewrite attr_upd_same by (unfold w2, w1; by do 2 apply live_upd). simpl.
    change (indices (obj_at w2 self)) with (attr indices w2 self).
    unfold w2. rewrite attr_upd_frame by done.
    unfold w1. by rewrite attr_upd_same. }
  split; [done|]. split; [done|]. split; [done|].
  unfold consistent. rewrite Hidx, Hitems. rewrite Hcons. fold l.
  by apply rederive_insert.
Qed.

(** * The claims *)

(** The scenario node of C1: children A, B, C with map {A:0, B:1, C:2}, every
    child pointing back to the node, and the map consistent with the children. *)
Lemma world_ABC_state :
  build_ABC empty_world = (world_ABC, Ret 3) ∧
  attr cls world_ABC 3 = ClsBiDirectionalLookupNonTerminalNode ∧
  attr items world_ABC 3 = [VRef 0; VRef 1; VRef 2] ∧
  attr indices world_ABC 3 = {[VRef 0 := 0%Z; VRef 1 := 1%Z; VRef 2 := 2%Z]} ∧
  attr parent world_ABC 1 = VRef 3 ∧
  consistent world_ABC 3.
Proof. repeat split; vm_compute; reflexivity. Qed.

(** C1, which the code breaks.  On the node [A, B, C] with map
    {A:0, B:1, C:2}, [remove(B)] returns, leaves the sequence [A, C], clears
    the parent of B and makes [index(B)] raise KeyError; but the entry of C
    stays 2 where the claim has {A:0, C:1}.  [__delitem__] shifts the elements
    of the slice from [index + 1] of the list after the deletion, so the
    element that moved down to [index] is never shifted. *)
Theorem remove_leaves_stale_index :
  let r := BiDirectionalLookupNonTerminalNode.remove 3 (VRef 1) world_ABC in
  r.2 = Ret tt ∧
  attr items r.1 3 = [VRef 0; VRef 2] ∧
  attr parent r.1 1 = VNone ∧
  (BiDirectionalLookupNonTerminalNode.index 3 (VRef 1) r.1).2 = Raise KeyError ∧
  attr indices r.1 3 = {[VRef 0 := 0%Z; VRef 2 := 2%Z]} ∧
  attr indices r.1 3 ≠ {[VRef 0 := 0%Z; VRef 2 := 1%Z]}.
Proof.
  repeat split; try (vm_compute; reflexivity).
  intros H. apply (f_equal (λ m : gmap value Z, m !! VRef 2)) in H.
  vm_compute in H. discriminate.
Qed.

(** The node with a placeholder used below: sequence [None, A], map {A:1},
    consistent with its children. *)
Lemma world_gap_state :
  build_gap empty_world = (world_gap, Ret 1) ∧
  attr items world_gap 1 = [VNone; VRef 0] ∧
  attr indices world_gap 1 = {[VRef 0 := 1%Z]} ∧
  attr parent world_gap 0 = VRef 1 ∧
  consistent world_gap 1.
Proof. repeat split; vm_compute; reflexivity. Qed.

(** C2, which the code breaks.  After [remove(B)] on the consistent node
    [A, B, C] the children determine {A:0, C:1} while the live map is
    {A:0, C:2}; and after [reverse()] on the consistent node [None, A] the
    placeholder has the entry None:1. *)
Theorem operations_break_consistency :
  (let r := BiDirectionalLookupNonTerminalNode.remove 3 (VRef 1) world_ABC in
   consistent world_ABC 3 ∧
   r.2 = Ret tt ∧
   rederive (attr items r.1 3) = {[VRef 0 := 0%Z; VRef 2 := 1%Z]} ∧
   attr indices r.1 3 = {[VRef 0 := 0%Z; VRef 2 := 2%Z]} ∧
   ¬ consistent r.1 3) ∧
  (let r := BiDirectionalLookupNonTerminalNode.reverse 1 world_gap in
   consistent world_gap 1 ∧
   r.2 = Ret tt ∧
   attr items r.1 1 = [VRef 0; VNone] ∧
   attr indices r.1 1 !! VNone = Some 1%Z).
Proof.
  repeat split; try (vm_compute; reflexivity).
  unfold consistent. intros H.
  apply (f_equal (λ m : gmap value Z, m !! VRef 2)) in H.
  vm_compute in H. discriminate.
Qed.

(** The scenario node of C3: a [NonTerminalNode] holding X, which points back
    to it; Y has no parent. *)
Lemma world_X_state :
  build_X empty_world = (world_X, Ret 2) ∧
  attr cls world_X 2 = ClsNonTerminalNode ∧
  attr items world_X 2 = [VRef 0] ∧
  attr parent world_X 0 = VRef 2 ∧
  attr parent world_X 1 = VNone.
Proof. repeat split; vm_compute; reflexivity. Qed.

(** C3, which the code breaks.  On the node [X], [set_slice(0, 1, [Y])]
    replaces the range, so the sequence is [Y]; but X, now removed, still has
    the node as its parent, and Y, now present, has no parent: the method
    never clears a parent, and it sets the parent of the first
    [min(stop - start - 1, len(seq))] new children only, none here. *)
Theorem setslice_misses_parents :
  let r := NonTerminalNode.__setslice__ 2 0 1 [VRef 1] world_X in
  r.2 = Ret tt ∧
  attr items r.1 2 = [VRef 1] ∧
  attr parent r.1 0 = VRef 2 ∧
  attr parent r.1 1 = VNone.
Proof. repeat split; vm_compute; reflexivity. Qed.

(** C4, which the code breaks.  On an empty node, [set(0, A)] stores A at
    position 0 and sets its parent, but records nothing: the map stays empty
    and [index(A)] raises KeyError.  With index 2 the sequence is padded to
    [None, None, A], again with an empty map.  The branch of [__setitem__] for
    an index at or beyond the length has no assignment to the map. *)
Theorem setitem_past_end_records_nothing :
  (let r := BiDirectionalLookupNonTerminalNode.__setitem__ 1 0 (VRef 0) world_empty in
   attr items world_empty 1 = [] ∧
   r.2 = Ret tt ∧
   attr items r.1 1 = [VRef 0] ∧
   attr parent r.1 0 = VRef 1 ∧
   attr indices r.1 1 = ∅ ∧
   (BiDirectionalLookupNonTerminalNode.index 1 (VRef 0) r.1).2 = Raise KeyError) ∧
  (let r := BiDirectionalLookupNonTerminalNode.__setitem__ 1 2 (VRef 0) world_empty in
   r.2 = Ret tt ∧
   attr items r.1 1 = [VNone; VNone; VRef 0] ∧
   attr indices r.1 1 !! VRef 0 = None).
Proof. repeat split; vm_compute; reflexivity. Qed.

(** C5, which the code breaks.  [sort] passes the constants
    [cmp=None, key=None, reverse=False] to the sort of the list, whatever the
    caller asked for: on ["a", "b"], [sort(reverse=True)] leaves ["a", "b"],
    where the sort of a list with [reverse=True] gives ["b", "a"].  (The
    children are strings: where the instances lie in memory plays no part.) *)
Theorem sort_ignores_arguments (address : nat → Z) :
  (∀ self cmp key reverse_flag,
     BiDirectionalLookupNonTerminalNode.sort address self cmp key reverse_flag
     = BiDirectionalLookupNonTerminalNode.sort address self None None false) ∧
  (let r := BiDirectionalLookupNonTerminalNode.sort address 0 None None true world_ab in
   attr items world_ab 0 = [VStr "a"; VStr "b"] ∧
   r.2 = Ret tt ∧
   attr items r.1 0 = [VStr "a"; VStr "b"] ∧
   list_sort address None None true [VStr "a"; VStr "b"] = [VStr "b"; VStr "a"]).
Proof. split; [reflexivity|]. repeat split; vm_compute; reflexivity. Qed.

(** C6, which the code breaks.  On the tree of depth 2 (a root whose child is
    a node holding a string) the deep copy of the root raises TypeError:
    [__deepcopy__] calls [__new__] with the parent of the node, which is not
    a type, as its first argument.  No recursion limit makes it return. *)
Theorem deepcopy_of_tree_raises :
  attr cls world_tree 1 = ClsNonTerminalNode ∧
  attr items world_tree 1 = [VRef 0] ∧
  attr cls world_tree 0 = ClsNonTerminalNode ∧
  attr items world_tree 0 = [VStr "leaf"] ∧
  (deepcopy 1000 (VRef 1) ∅ world_tree).2 = Raise TypeError ∧
  (∀ fuel, ∃ w' e, deepcopy fuel (VRef 1) ∅ world_tree = (w', Raise e)).
Proof.
  repeat split; try (vm_compute; reflexivity).
  intros fuel. apply deepcopy_container_raises; [done|].
  vm_compute. discriminate.
Qed.

(** C7.  On a bidirectional node whose positions 0, 2, 4 are occupied, whose
    positions 1 and 3 are empty and whose last automatically added index is
    -1, [append(x)] of a hashable [x] returns and places [x] at position 1,
    not at the end; the map has the entry x:1 (and no entry for None any
    more, the other entries being kept); the last automatically added index
    is 1; the scan has printed the one assigned index it passed, 0; and [x],
    if it is an instance, has the node as its parent. *)
Theorem append_fills_first_gap (w : world) (self : nat) (a c e x : value) :
  live w self →
  attr cls w self = ClsBiDirectionalLookupNonTerminalNode →
  attr items w self = [a; VNone; c; VNone; e] →
  a ≠ VNone → c ≠ VNone → e ≠ VNone →
  attr last_automatically_added_index w self = (-1)%Z →
  is_hashable (heap w) x = true →
  let r := BiDirectionalLookupNonTerminalNode.append self x w in
  r.2 = Ret tt ∧
  attr items r.1 self = [a; x; c; VNone; e] ∧
  attr indices r.1 self !! x = Some 1%Z ∧
  attr indices r.1 self = <[x := 1%Z]> (delete VNone (attr indices w self)) ∧
  attr last_automatically_added_index r.1 self = 1%Z ∧
  stdout r.1 = stdout w ++ [0%Z] ∧
  (∀ b, x = VRef b → live w b → attr parent r.1 b = VRef self).
Proof.
  intros Hlive Hcls Hitems Ha Hc He Hlast Hx r.
  set (l' := [a; x; c; VNone; e]).
  set (w1 := print_w 0 w).
  set (w2 := set_parent_w x (VRef self) (upd (with_items l') self w1)).
  set (w3 := set_index_w self x 1 (del_index_w self VNone w2)).
  set (w4 := upd (with_last 1) self w3).
  assert (attr items w1 self = [a; VNone; c; VNone; e]) as Hitems1 by exact Hitems.
  assert (BiDirectionalLookupNonTerminalNode.__get_next_free_index self w
          = (w1, Ret 1%Z)) as Hnext.
  { unfold BiDirectionalLookupNonTerminalNode.__get_next_free_index.
    erewrite bind_run by reflexivity. rewrite Hlast. cbv zeta.
    erewrite bind_run by reflexivity. rewrite Hitems.
    change (-1 + 1)%Z with 0%Z.
    change (S (Z.to_nat (len [a; VNone; c; VNone; e] - 0))) with 6.
    rewrite next_free_index_loop_S, Hitems.
    assert (_is_assigned 0 [a; VNone; c; VNone; e] = Ret true) as ->.
    { unfold _is_assigned. simpl. by rewrite bool_decide_eq_false_2. }
    change (0 + 1)%Z with 1%Z. fold w1.
    rewrite next_free_index_loop_S, Hitems1.
    reflexivity. }
  assert (r = (w4, Ret tt)) as ->.
  { unfold r, BiDirectionalLookupNonTerminalNode.append.
    erewrite bind_run by exact Hnext.
    unfold BiDirectionalLookupNonTerminalNode.__setitem__.
    erewrite bind_run; [reflexivity|].
    erewrite bind_run by reflexivity. rewrite Hitems1.
    change (len [a; VNone; c; VNone; e] >? 1)%Z with true. cbv iota.
    erewrite bind_run by reflexivity.
    erewrite bind_run.
    2:{ apply (NT_setitem_run _ _ _ _ 1). by rewrite Hitems1. }
    rewrite Hitems1. change (<[1:=x]> [a; VNone; c; VNone; e]) with l'.
    fold w2.
    erewrite bind_run by (by apply delete_from_indices_run).
    apply dict_setitem_run.
    rewrite is_hashable_del_index_w. unfold w2.
    rewrite is_hashable_set_parent_w. by rewrite is_hashable_upd. }
  simpl.
  assert (attr indices w4 self = <[x := 1%Z]> (delete VNone (attr indices w self)))
    as Hidx.
  { unfold w4. rewrite attr_upd_frame by done.
    unfold w3, set_index_w. rewrite attr_upd_same by (unfold w2, w1; live_tac).
    unfold del_index_w.
    change (indices (obj_at ?W self)) with (attr indices W self).
    rewrite attr_upd_same by (unfold w2, w1; live_tac). simpl.
    change (indices (obj_at ?W self)) with (attr indices W self).
    unfold w2. rewrite attr_set_parent_w_frame by done.
    by rewrite attr_upd_frame by done. }
  repeat split.
  - unfold w4. rewrite attr_upd_frame by done.
    unfold w3, set_index_w, del_index_w. rewrite !attr_upd_frame by done.
    unfold w2. rewrite attr_set_parent_w_frame by done.
    rewrite attr_upd_same by (unfold w1; live_tac). done.
  - rewrite Hidx. apply lookup_insert_eq.
  - exact Hidx.
  - unfold w4. rewrite attr_upd_same; [done|]. unfold w3, w2, w1. live_tac.
  - unfold w4, w3, w2. simpl. by destruct x.
  - intros b -> Hb. unfold w4, w3, set_index_w, del_index_w.
    assert (self ≠ b) as Hne.
    { intros ->. simpl in Hx. destruct Hb as [o Ho]. rewrite Ho in Hx.
      unfold attr, obj_at in Hcls. rewrite Ho in Hcls. simpl in Hcls.
      rewrite Hcls in Hx. done. }
    rewrite !attr_upd_ne by done.
    unfold w2. simpl. rewrite attr_upd_same; [done|]. unfold w1. live_tac.
Qed.

(** The theorem at the node built from ["a", None, "c", None, "e"], appending
    the plain node X. *)
Lemma append_fills_first_gap_witness :
  (live world_sparse 1 ∧
   attr cls world_sparse 1 = ClsBiDirectionalLookupNonTerminalNode ∧
   attr items world_sparse 1 = [VStr "a"; VNone; VStr "c"; VNone; VStr "e"] ∧
   VStr "a" ≠ VNone ∧ VStr "c" ≠ VNone ∧ VStr "e" ≠ VNone ∧
   attr last_automatically_added_index world_sparse 1 = (-1)%Z ∧
   is_hashable (heap world_sparse) (VRef 0) = true) ∧
  (let r := BiDirectionalLookupNonTerminalNode.append 1 (VRef 0) world_sparse in
   r.2 = Ret tt ∧
   attr items r.1 1 = [VStr "a"; VRef 0; VStr "c"; VNone; VStr "e"] ∧
   attr indices r.1 1 !! VRef 0 = Some 1%Z ∧
   attr indices r.1 1 = <[VRef 0 := 1%Z]> (delete VNone (attr indices world_sparse 1)) ∧
   attr last_automatically_added_index r.1 1 = 1%Z ∧
   stdout r.1 = stdout world_sparse ++ [0%Z] ∧
   (∀ b, VRef 0 = VRef b → live world_sparse b → attr parent r.1 b = VRef 1)).
Proof.
  assert (live world_sparse 1) as Hlive by (vm_compute; eauto).
  split.
  - repeat split; try done; vm_compute; reflexivity.
  - apply (append_fills_first_gap world_sparse 1 (VStr "a") (VStr "c") (VStr "e") (VRef 0));
      try done; vm_compute; reflexivity.
Defined.

(** The scenario node of C8: children A, C with map {A:0, C:1}. *)
Lemma world_AC_state :
  build_AC empty_world = (world_AC, Ret 3) ∧
  attr items world_AC 3 = [VRef 0; VRef 1] ∧
  attr indices world_AC 3 = {[VRef 0 := 0%Z; VRef 1 := 1%Z]} ∧
  consistent world_AC 3.
Proof. repeat split; vm_compute; reflexivity. Qed.

(** C8, which the code breaks.  The scenario holds: on [A, C] with map
    {A:0, C:1}, [insert(1, D)] gives the sequence [A, D, C] and the map
    {A:0, D:1, C:2}.  But on the consistent node [None, A] with map {A:1},
    [insert(0, D)] raises KeyError and inserts nothing: the shift in
    [__update_dict_indices] looks up every element of the slice in the map,
    the placeholder included, which has no entry. *)
Theorem insert_fails_on_placeholder :
  (let r := BiDirectionalLookupNonTerminalNode.insert 3 1 (VRef 2) world_AC in
   r.2 = Ret tt ∧
   attr items r.1 3 = [VRef 0; VRef 2; VRef 1] ∧
   attr indices r.1 3 = {[VRef 0 := 0%Z; VRef 2 := 1%Z; VRef 1 := 2%Z]}) ∧
  (let r := BiDirectionalLookupNonTerminalNode.insert 1 0 (VStr "d") world_gap in
   consistent world_gap 1 ∧
   r.2 = Raise KeyError ∧
   attr items r.1 1 = [VNone; VRef 0] ∧
   attr indices r.1 1 = {[VRef 0 := 1%Z]}).
Proof. repeat split; vm_compute; reflexivity. Qed.

(** C9, which the code breaks.  On the node [None, A] with map {A:1},
    [pop(0)] raises KeyError, the placeholder having no entry; but the
    sequence is [A] afterwards, not [None, A]: the element is removed from the
    list before the entry is deleted from the map.  The map still has A:1,
    which is now the position past the end. *)
Theorem pop_raises_after_removal :
  let r := BiDirectionalLookupNonTerminalNode.pop 1 (Some 0%Z) world_gap in
  attr items world_gap 1 = [VNone; VRef 0] ∧
  attr indices world_gap 1 !! VNone = None ∧
  r.2 = Raise KeyError ∧
  attr items r.1 1 = [VRef 0] ∧
  attr indices r.1 1 = {[VRef 0 := 1%Z]} ∧
  r.1 ≠ world_gap.
Proof.
  repeat split; try (vm_compute; reflexivity).
  intros H. apply (f_equal (λ w, attr items w 1)) in H.
  vm_compute in H. discriminate.
Qed.

(** [+=] with a list or tuple (one that is no node of the store) of
    hashable, pairwise distinct children, on a bidirectional node with [n]
    children: it returns the node itself (it does not raise, where [+] and
    [*] raise NotImplementedError); the new sequence is the old one followed
    by the children, whatever gaps the old one has; and the child at
    position [k] of the argument is at position [n + k] of the sequence, has
    the entry [n + k] in the map and, if it is an instance, has the node as
    its parent. *)
Lemma iadd_places_at_end_and_records (w : world) (self : nat)
    (children : list value) :
  live w self →
  attr cls w self = ClsBiDirectionalLookupNonTerminalNode →
  Forall (λ c, is_hashable (heap w) c = true) children →
  NoDup children →
  let old := attr items w self in
  let r := BiDirectionalLookupNonTerminalNode.__iadd__ self (Sequence children) w in
  r.2 = Ret (VRef self) ∧
  attr items r.1 self = old ++ children ∧
  (∀ k c, children !! k = Some c →
     attr items r.1 self !! (length old + k) = Some c ∧
     attr indices r.1 self !! c = Some (len old + Z.of_nat k)%Z ∧
     (∀ b, c = VRef b → live w b → attr parent r.1 b = VRef self)) ∧
  (NonTerminalNode.__add__ self (Sequence children) w).2 = Raise NotImplementedError ∧
  (∀ m, (BiDirectionalLookupNonTerminalNode.__mul__ self m w).2
        = Raise NotImplementedError).
Proof.
  intros Hlive Hcls Hhash Hnd old r.
  set (w1 := upd (λ o, with_items (items o ++ children) o) self w).
  set (w2 := foldl (λ w child, set_parent_w child (VRef self) w) w1 children).
  set (g := λ ic : Z * value, (ic.1 + len old)%Z).
  set (w3 := foldl (λ w ic, set_index_w self ic.2 (g ic) w) w2 (enumerate children)).
  assert (r = (w3, Ret (VRef self))) as ->.
  { unfold r, BiDirectionalLookupNonTerminalNode.__iadd__.
    erewrite bind_run by reflexivity. cbv beta zeta.
    erewrite bind_run by apply NT_iadd_run.
    erewrite bind_run by reflexivity.
    erewrite bind_run; [reflexivity|].
    fold w1 w2. rewrite (for_each_setitem_run self g); [reflexivity|].
    apply Forall_forall. intros [i c] Hin. simpl.
    unfold w2. rewrite is_hashable_set_parents.
    unfold w1. rewrite is_hashable_upd by done.
    rewrite Forall_forall in Hhash. apply Hhash.
    unfold enumerate in Hin. apply elem_of_lookup_imap in Hin as (k & y & Heq & Hk).
    injection Heq as -> ->. by eapply list_elem_of_lookup_2. }
  simpl.
  assert (attr items w3 self = old ++ children) as Hitems.
  { unfold w3. rewrite attr_set_indices_frame by done.
    unfold w2. rewrite attr_set_parents_frame by done.
    unfold w1. by rewrite attr_upd_same. }
  split; [done|]. split; [done|]. split; [|done].
  intros k c Hk. rewrite Hitems. split; [|split].
  - rewrite lookup_app_r by lia.
    by replace (length old + k - length old) with k by lia.
  - unfold w3. rewrite indices_set_indices.
    + rewrite (lookup_fold_enumerate g children _ k c) by done.
      unfold g. simpl. f_equal. lia.
    + apply live_set_parents. by apply live_upd.
  - intros b -> Hb. unfold w3. rewrite attr_set_indices_frame by done.
    apply parent_set_parents; [by apply live_upd | by eapply list_elem_of_lookup_2].
Qed.

(** [+=] with an iterator or generator, on any node and whatever the iterator
    yields: the built-in consumes it and extends the sequence; the parent
    loop and the [enumerate] loop then go through an exhausted iterator, so
    no parent and no entry of the map is written. *)
Lemma iadd_of_iterator_run (w : world) (self : nat) (children : list value) :
  BiDirectionalLookupNonTerminalNode.__iadd__ self (Iterator children) w
  = (upd (λ o, with_items (items o ++ children) o) self w, Ret (VRef self)).
Proof. reflexivity. Qed.

(** [n += n] on the node holding A and C: the sequence is doubled, and the
    [enumerate] loop, which runs over the doubled sequence, leaves the
    entries A:4 and C:5, past the end. *)
Lemma iadd_of_the_node_itself :
  let r := BiDirectionalLookupNonTerminalNode.__iadd__ 3 (Container 3) world_AC in
  r.2 = Ret (VRef 3) ∧
  attr items r.1 3 = [VRef 0; VRef 1; VRef 0; VRef 1] ∧
  attr indices r.1 3 = {[VRef 0 := 4%Z; VRef 1 := 5%Z]}.
Proof. repeat split; vm_compute; reflexivity. Qed.

(** C10, which the code breaks.  [+=] is supported, and with a list it does
    what the claim says: on the node holding A and C, [n += [D]] puts D at
    position 2, records the entry D:2 and makes the node the parent of D.
    But the code goes through its argument three times (the built-in, the
    parent loop, the [enumerate] loop), and an iterator can be gone through
    once: [n += iter([D])] puts D at position 2 and returns the node, but D
    has no parent, the map has no entry for D and [index(D)] raises
    KeyError (and so for every node and every iterator, in both classes).
    The bidirectional [extend], which loops over its argument once, does
    make the node the parent of what the same iterator yields. *)
Theorem iadd_loses_children_of_iterator :
  (let r := BiDirectionalLookupNonTerminalNode.__iadd__ 3 (Sequence [VRef 2]) world_AC in
   r.2 = Ret (VRef 3) ∧
   attr items r.1 3 = [VRef 0; VRef 1; VRef 2] ∧
   attr parent r.1 2 = VRef 3 ∧
   attr indices r.1 3 = {[VRef 0 := 0%Z; VRef 1 := 1%Z; VRef 2 := 2%Z]}) ∧
  (let r := BiDirectionalLookupNonTerminalNode.__iadd__ 3 (Iterator [VRef 2]) world_AC in
   attr parent world_AC 2 = VNone ∧
   r.2 = Ret (VRef 3) ∧
   attr items r.1 3 = [VRef 0; VRef 1; VRef 2] ∧
   attr parent r.1 2 = VNone ∧
   attr indices r.1 3 = {[VRef 0 := 0%Z; VRef 1 := 1%Z]} ∧
   (BiDirectionalLookupNonTerminalNode.index 3 (VRef 2) r.1).2 = Raise KeyError) ∧
  (∀ w self children,
     BiDirectionalLookupNonTerminalNode.__iadd__ self (Iterator children) w
     = (upd (λ o, with_items (items o ++ children) o) self w, Ret (VRef self))) ∧
  (∀ w self children,
     NonTerminalNode.__iadd__ self (Iterator children) w
     = (upd (λ o, with_items (items o ++ children) o) self w, Ret (VRef self))) ∧
  (let r := BiDirectionalLookupNonTerminalNode.extend 3 [VRef 2] world_AC in
   r.2 = Ret tt ∧
   attr parent r.1 2 = VRef 3).
Proof.
  split; [repeat split; vm_compute; reflexivity|].
  split; [repeat split; vm_compute; reflexivity|].
  split; [reflexivity|].
  split; [reflexivity|].
  split; vm_compute; reflexivity.
Qed.

(** The lemma on lists at the node [None, A] with the list ["x", "y"]; the
    new children go to positions 2 and 3, past the gap at position 0. *)
Lemma iadd_places_at_end_and_records_witness :
  (live world_gap 1 ∧
   attr cls world_gap 1 = ClsBiDirectionalLookupNonTerminalNode ∧
   Forall (λ c, is_hashable (heap world_gap) c = true) [VStr "x"; VStr "y"] ∧
   NoDup [VStr "x"; VStr "y"]) ∧
  (let old := attr items world_gap 1 in
   let r := BiDirectionalLookupNonTerminalNode.__iadd__ 1
              (Sequence [VStr "x"; VStr "y"]) world_gap in
   r.2 = Ret (VRef 1) ∧
   attr items r.1 1 = old ++ [VStr "x"; VStr "y"] ∧
   (∀ k c, [VStr "x"; VStr "y"] !! k = Some c →
      attr items r.1 1 !! (length old + k) = Some c ∧
      attr indices r.1 1 !! c = Some (len old + Z.of_nat k)%Z ∧
      (∀ b, c = VRef b → live world_gap b → attr parent r.1 b = VRef 1)) ∧
   (NonTerminalNode.__add__ 1 (Sequence [VStr "x"; VStr "y"]) world_gap).2
     = Raise NotImplementedError ∧
   (∀ m, (BiDirectionalLookupNonTerminalNode.__mul__ 1 m world_gap).2
         = Raise NotImplementedError)).
Proof.
  assert (live world_gap 1) as Hlive by (vm_compute; eauto).
  assert (NoDup [VStr "x"; VStr "y"]) as Hnd.
  { apply NoDup_cons. split; [|apply NoDup_singleton].
    intros H. apply list_elem_of_singleton in H. discriminate. }
  assert (Forall (λ c, is_hashable (heap world_gap) c = true) [VStr "x"; VStr "y"])
    as Hhash by (repeat constructor).
  split.
  - repeat split; try done.
  - apply (iadd_places_at_end_and_records world_gap 1 [VStr "x"; VStr "y"]);
      try done.
Defined.

(** Where [+=] writes past a gap, [extend] fills it: on [None, A], [extend]
    with ["x"] gives ["x", A] and [+=] with ["x"] gives [None, A, "x"]. *)
Lemma iadd_bypasses_gap_filling :
  attr items (BiDirectionalLookupNonTerminalNode.extend 1 [VStr "x"] world_gap).1 1
    = [VStr "x"; VRef 0] ∧
  attr items (BiDirectionalLookupNonTerminalNode.__iadd__ 1
                (Sequence [VStr "x"]) world_gap).1 1
    = [VNone; VRef 0; VStr "x"].
Proof. split; vm_compute; reflexivity. Qed.

(** * Further properties of the code *)

(** ** Subscripts *)

Lemma norm_index_nonneg {A} (l : list A) i :
  (0 <= i < len l)%Z → norm_index l i = Some (Z.to_nat i).
Proof.
  intros [H0 H1]. unfold norm_index.
  destruct (Z.ltb_spec i 0); [lia|].
  destruct (Z.leb_spec 0 i); [|lia].
  destruct (Z.ltb_spec i (len l)); [done|lia].
Qed.

Lemma norm_index_out {A} (l : list A) i :
  (i < - len l ∨ len l <= i)%Z → norm_index l i = None.
Proof.
  intros H. unfold norm_index. unfold len in *.
  destruct (Z.ltb_spec i 0).
  - destruct (Z.leb_spec 0 (i + Z.of_nat (length l))); [|done].
    destruct (Z.ltb_spec (i + Z.of_nat (length l)) (Z.of_nat (length l))); [lia|done].
  - destruct (Z.leb_spec 0 i); [|done].
    destruct (Z.ltb_spec i (Z.of_nat (length l))); [lia|done].
Qed.

Lemma norm_index_lt {A} (l : list A) i n : norm_index l i = Some n → n < length l.
Proof.
  unfold norm_index, len.
  destruct (Z.ltb_spec i 0);
    match goal with |- context [(?a <=? ?b)%Z] => destruct (Z.leb_spec a b) end;
    match goal with
    | |- context [(?a <? ?b)%Z] => destruct (Z.ltb_spec a b)
    | _ => idtac
    end; simpl; intros [= <-]; lia.
Qed.

(** [_is_assigned]: for an index from 0 on, whether the position exists and
    holds something other than [None]; a negative index down to [-len] is
    counted from the end; below that the subscript raises IndexError. *)
Theorem is_assigned_spec idx seq :
  _is_assigned idx seq
  = let occupied (n : nat) :=
      match seq !! n with
      | Some v => negb (bool_decide (v = VNone))
      | None => false
      end in
    if (0 <=? idx)%Z then Ret (occupied (Z.to_nat idx))
    else if (- len seq <=? idx)%Z then Ret (occupied (Z.to_nat (len seq + idx)))
    else Raise IndexError.
Proof.
  cbv zeta. unfold _is_assigned, list_getitem.
  destruct (Z.leb_spec 0 idx) as [H0|H0].
  - destruct (Z.leb_spec (len seq) idx) as [Hle|Hlt].
    + rewrite lookup_ge_None_2; [done|]. unfold len in *. lia.
    + rewrite norm_index_nonneg by lia.
      destruct (seq !! Z.to_nat idx) eqn:E; [done|].
      apply lookup_ge_None in E. unfold len in *. lia.
  - destruct (Z.leb_spec (len seq) idx) as [Hle|Hlt]; [unfold len in *; lia|].
    destruct (Z.leb_spec (- len seq) idx) as [Hin|Hout].
    + unfold norm_index.
      destruct (Z.ltb_spec idx 0); [|lia].
      destruct (Z.leb_spec 0 (idx + len seq)); [|lia].
      destruct (Z.ltb_spec (idx + len seq) (len seq)); [|lia]. simpl.
      replace (len seq + idx)%Z with (idx + len seq)%Z by lia.
      destruct (seq !! Z.to_nat (idx + len seq)) eqn:E; [done|].
      apply lookup_ge_None in E. unfold len in *. lia.
    + by rewrite norm_index_out by lia.
Qed.

(** ** Creation of instances *)

Lemma alloc_run c w : alloc c w = (alloc_w c w, Ret (fresh (dom (heap w)))).
Proof. reflexivity. Qed.

Lemma fresh_not_live w : ¬ live w (fresh (dom (heap w))).
Proof.
  unfold live. rewrite <- elem_of_dom. apply is_fresh.
Qed.

Lemma live_alloc_w c w b :
  live (alloc_w c w) b ↔ b = fresh (dom (heap w)) ∨ live w b.
Proof.
  unfold live, alloc_w; simpl. rewrite lookup_insert_is_Some'.
  split; (intros [?|?]; [left|right]); done.
Qed.

Lemma obj_at_alloc_w_new c w :
  obj_at (alloc_w c w) (fresh (dom (heap w))) = empty_obj c.
Proof. unfold obj_at, alloc_w; simpl. by rewrite lookup_insert_eq. Qed.

Lemma obj_at_alloc_w_old c w b :
  live w b → obj_at (alloc_w c w) b = obj_at w b.
Proof.
  intros Hb. unfold obj_at, alloc_w; simpl.
  rewrite lookup_insert_ne; [done|].
  intros <-. by apply (fresh_not_live w).
Qed.

(** ** Parents outside a loop of [_set_parent] *)

Lemma parent_set_parents_notin l p : ∀ w b,
  VRef b ∉ l →
  attr parent (foldl (λ w child, set_parent_w child p w) w l) b = attr parent w b.
Proof.
  induction l as [|c l IH]; intros w b Hb; simpl; [done|].
  rewrite IH by (intros ?; apply Hb; by right).
  destruct c as [| |a]; simpl; try done.
  apply attr_upd_ne. intros ->. apply Hb. by left.
Qed.

Lemma parent_set_parent_w_other child p w b :
  child ≠ VRef b → attr parent (set_parent_w child p w) b = attr parent w b.
Proof.
  intros Hb. destruct child as [| |a]; simpl; try done.
  apply attr_upd_ne. congruence.
Qed.

Lemma parent_set_parent_w_same p w b :
  live w b → attr parent (set_parent_w (VRef b) p w) b = p.
Proof. intros Hb. simpl. by rewrite attr_upd_same. Qed.

(** ** Running the methods of [NonTerminalNode] *)

Lemma NT_init_run self p args w :
  NonTerminalNode.__init__ self p args w
  = (foldl (λ w child, set_parent_w child (VRef self) w)
       (upd (with_items (default [] args)) self (upd (with_parent p) self w))
       (attr items (upd (with_items (default [] args)) self
                      (upd (with_parent p) self w)) self),
     Ret tt).
Proof.
  unfold NonTerminalNode.__init__, Node.__init__.
  erewrite bind_run by reflexivity.
  erewrite bind_run by reflexivity.
  erewrite bind_run by reflexivity.
  apply for_each_set_parent_run.
Qed.

Lemma NT_delitem_run self index w n v :
  norm_index (attr items w self) index = Some n →
  attr items w self !! n = Some v →
  NonTerminalNode.__delitem__ self index w
  = (set_parent_w v VNone (upd (with_items (delete n (attr items w self))) self w),
     Ret tt).
Proof.
  intros Hn Hv. unfold NonTerminalNode.__delitem__.
  erewrite bind_run by reflexivity.
  unfold list_getitem, list_delitem. rewrite Hn, Hv.
  erewrite bind_run by reflexivity.
  erewrite bind_run by reflexivity.
  erewrite bind_run by reflexivity.
  apply _set_parent_run.
Qed.

Lemma NT_delitem_raise self index w :
  norm_index (attr items w self) index = None →
  NonTerminalNode.__delitem__ self index w = (w, Raise IndexError).
Proof.
  intros Hn. unfold NonTerminalNode.__delitem__.
  erewrite bind_run by reflexivity.
  unfold list_getitem. rewrite Hn. reflexivity.
Qed.

Lemma NT_setitem_raise self index child w :
  norm_index (attr items w self) index = None →
  NonTerminalNode.__setitem__ self index child w = (w, Raise IndexError).
Proof.
  intros Hn. unfold NonTerminalNode.__setitem__.
  erewrite bind_run by reflexivity.
  unfold list_setitem. rewrite Hn. reflexivity.
Qed.

Lemma NT_pop_run self arg w v l' :
  list_pop (attr items w self) arg = Ret (v, l') →
  NonTerminalNode.pop self arg w
  = (set_parent_w v VNone (upd (with_items l') self w), Ret v).
Proof.
  intros Hpop. unfold NonTerminalNode.pop.
  erewrite bind_run by reflexivity. rewrite Hpop.
  erewrite bind_run by reflexivity. simpl.
  erewrite bind_run by reflexivity.
  erewrite bind_run by apply _set_parent_run. reflexivity.
Qed.

Lemma NT_pop_raise self arg w :
  fits_ssize_t (default (-1)%Z arg) = true →
  norm_index (attr items w self) (default (-1)%Z arg) = None →
  NonTerminalNode.pop self arg w = (w, Raise IndexError).
Proof.
  intros Hfits Hn. unfold NonTerminalNode.pop.
  erewrite bind_run by reflexivity.
  unfold list_pop. rewrite Hfits, Hn. reflexivity.
Qed.

Lemma NT_pop_overflow self arg w :
  fits_ssize_t (default (-1)%Z arg) = false →
  NonTerminalNode.pop self arg w = (w, Raise OverflowError).
Proof.
  intros Hfits. unfold NonTerminalNode.pop.
  erewrite bind_run by reflexivity.
  unfold list_pop. rewrite Hfits. reflexivity.
Qed.

Lemma list_pop_last l c : list_pop (l ++ [c]) None = Ret (c, l).
Proof.
  unfold list_pop. change (fits_ssize_t (default (-1)%Z None)) with true.
  unfold norm_index, len. simpl.
  rewrite length_app. simpl.
  destruct (Z.leb_spec 0 (-1 + Z.of_nat (length l + 1))); [|lia].
  destruct (Z.ltb_spec (-1 + Z.of_nat (length l + 1)) (Z.of_nat (length l + 1)));
    [|lia]. simpl.
  replace (Z.to_nat (-1 + Z.of_nat (length l + 1))) with (length l) by lia.
  rewrite list_lookup_middle by done.
  by rewrite delete_middle, app_nil_r.
Qed.

(** ** The methods of [NonTerminalNode], as their caller sees them *)

(** [NonTerminalNode(parent, children)], the children being instances that
    exist: the result is a new instance of the class with the given parent,
    holding the children; every instance among the children has the new
    node as its parent afterwards; no other instance changes parent, and no
    existing instance changes its own sequence. *)
Theorem NT_new_adopts_children (w : world) (p : value) (args : option (list value)) :
  Forall (λ c, ∀ b, c = VRef b → live w b) (default [] args) →
  let r := NonTerminalNode.new p args w in
  ∃ self,
    r.2 = Ret self ∧
    ¬ live w self ∧ live r.1 self ∧
    attr cls r.1 self = ClsNonTerminalNode ∧
    attr parent r.1 self = p ∧
    attr items r.1 self = default [] args ∧
    (∀ b, VRef b ∈ default [] args → attr parent r.1 b = VRef self) ∧
    (∀ b, live w b → VRef b ∉ default [] args → attr parent r.1 b = attr parent w b) ∧
    (∀ b, live w b → attr items r.1 b = attr items w b).
Proof.
  intros Hch r. set (children := default [] args) in *.
  set (self := fresh (dom (heap w))).
  set (w0 := alloc_w ClsNonTerminalNode w).
  set (w1 := upd (with_parent p) self w0).
  set (w2 := upd (with_items children) self w1).
  set (w3 := foldl (λ w child, set_parent_w child (VRef self) w) w2 children).
  assert (¬ live w self) as Hfresh by apply fresh_not_live.
  assert (live w0 self) as Hl0 by (apply live_alloc_w; by left).
  assert (live w2 self) as Hl2 by (by do 2 apply live_upd).
  assert (attr items w2 self = children) as Hitems2.
  { unfold w2. by rewrite attr_upd_same by (by apply live_upd). }
  assert (VRef self ∉ children) as Hself.
  { intros Hin. rewrite Forall_forall in Hch. by apply Hfresh, (Hch _ Hin). }
  assert (∀ b, live w b → b ≠ self) as Hne by (intros b Hb ->; done).
  assert (r = (w3, Ret self)) as ->.
  { unfold r, NonTerminalNode.new.
    erewrite bind_run by apply alloc_run. fold self w0.
    erewrite bind_run by apply NT_init_run.
    fold children w1 w2. rewrite Hitems2. reflexivity. }
  exists self. simpl. repeat split; try done.
  - by apply live_set_parents.
  - unfold w3. rewrite attr_set_parents_frame by done.
    unfold w2, w1. rewrite !attr_upd_frame by done.
    unfold attr, w0. by rewrite obj_at_alloc_w_new.
  - unfold w3. rewrite parent_set_parents_notin by done.
    unfold w2. rewrite attr_upd_frame by done.
    unfold w1. by rewrite attr_upd_same.
  - unfold w3. rewrite attr_set_parents_frame by done. done.
  - intros b Hb. apply parent_set_parents; [|done].
    rewrite Forall_forall in Hch.
    unfold w2, w1. do 2 apply live_upd. apply live_alloc_w. right.
    by apply (Hch _ Hb).
  - intros b Hb Hnin. unfold w3. rewrite parent_set_parents_notin by done.
    unfold w2, w1. rewrite !attr_upd_ne by (symmetry; by apply Hne).
    unfold attr, w0. by rewrite obj_at_alloc_w_old.
  - intros b Hb. unfold w3. rewrite attr_set_parents_frame by done.
    unfold w2, w1. rewrite !attr_upd_ne by (symmetry; by apply Hne).
    unfold attr, w0. by rewrite obj_at_alloc_w_old.
Qed.

(** [append] then [pop]: the pop returns the appended child and the sequence
    is what it was before the append; the child, if it is an instance, had
    the node as its parent in between and has none afterwards. *)
Theorem NT_append_then_pop (w : world) (self : nat) (child : value) :
  live w self →
  let r1 := NonTerminalNode.append self child w in
  let r2 := NonTerminalNode.pop self None r1.1 in
  r1.2 = Ret tt ∧
  attr items r1.1 self = attr items w self ++ [child] ∧
  r2.2 = Ret child ∧
  attr items r2.1 self = attr items w self ∧
  (∀ b, child = VRef b → live w b →
     attr parent r1.1 b = VRef self ∧ attr parent r2.1 b = VNone).
Proof.
  intros Hlive r1 r2.
  set (l := attr items w self).
  set (w1 := set_parent_w child (VRef self) (upd (with_items (l ++ [child])) self w)).
  assert (r1 = (w1, Ret tt)) as Hr1.
  { unfold r1, w1, l. by apply NT_append_run. }
  assert (live w1 self) as Hl1.
  { unfold w1. apply live_set_parent_w. by apply live_upd. }
  assert (attr items w1 self = l ++ [child]) as Hitems1.
  { unfold w1. rewrite attr_set_parent_w_frame by done. by rewrite attr_upd_same. }
  set (w2 := set_parent_w child VNone (upd (with_items l) self w1)).
  assert (r2 = (w2, Ret child)) as ->.
  { unfold r2. rewrite Hr1. simpl. apply NT_pop_run.
    rewrite Hitems1. apply list_pop_last. }
  rewrite Hr1. simpl. repeat split; try done.
  - unfold w2. rewrite attr_set_parent_w_frame by done. by rewrite attr_upd_same.
  - subst child. unfold w1. apply parent_set_parent_w_same. by apply live_upd.
  - subst child. unfold w2. apply parent_set_parent_w_same.
    unfold w1. live_tac.
Qed.

(** [del node[index]] with the index inside the sequence: the element at
    that position is removed, the others keep their order; the removed
    element, if it is an instance, has no parent afterwards, and no other
    instance changes parent. *)
Theorem NT_delitem_in_range (w : world) (self : nat) (index : Z) :
  live w self →
  (0 <= index < len (attr items w self))%Z →
  let l := attr items w self in
  let r := NonTerminalNode.__delitem__ self index w in
  r.2 = Ret tt ∧
  attr items r.1 self = take (Z.to_nat index) l ++ drop (S (Z.to_nat index)) l ∧
  (∀ b, l !! Z.to_nat index = Some (VRef b) → live w b → attr parent r.1 b = VNone) ∧
  (∀ b, l !! Z.to_nat index ≠ Some (VRef b) → attr parent r.1 b = attr parent w b).
Proof.
  intros Hlive Hin l r. set (n := Z.to_nat index).
  assert (n < length l) as Hn by (unfold n, l, len in *; lia).
  destruct (lookup_lt_is_Some_2 l n Hn) as [v Hv].
  assert (r = (set_parent_w v VNone (upd (with_items (delete n l)) self w), Ret tt))
    as ->.
  { apply NT_delitem_run; [|done]. by apply norm_index_nonneg. }
  simpl. repeat split.
  - rewrite attr_set_parent_w_frame by done. rewrite attr_upd_same by done.
    simpl. apply delete_take_drop.
  - intros b Hb Hlb. rewrite Hv in Hb. injection Hb as ->.
    apply parent_set_parent_w_same. by apply live_upd.
  - intros b Hb. rewrite Hv in Hb.
    rewrite parent_set_parent_w_other by congruence. by rewrite attr_upd_frame.
Qed.

(** A subscript outside the sequence: deletion, assignment and [pop] raise
    IndexError and leave the store as it was; so does [pop()] on an empty
    node. *)
Theorem NT_index_out_of_range (w : world) (self : nat) (index : Z) (child : value) :
  (index < - len (attr items w self) ∨ len (attr items w self) <= index)%Z →
  NonTerminalNode.__delitem__ self index w = (w, Raise IndexError) ∧
  NonTerminalNode.__setitem__ self index child w = (w, Raise IndexError) ∧
  NonTerminalNode.pop self (Some index) w
  = (w, Raise (if fits_ssize_t index then IndexError else OverflowError)) ∧
  (attr items w self = [] →
   NonTerminalNode.pop self None w = (w, Raise IndexError)).
Proof.
  intros Hout. pose proof (norm_index_out _ _ Hout) as Hn.
  split; [by apply NT_delitem_raise|].
  split; [by apply NT_setitem_raise|].
  split.
  - destruct (fits_ssize_t index) eqn:Hfits.
    + by apply NT_pop_raise.
    + by apply NT_pop_overflow.
  - intros Hnil. apply NT_pop_raise; [done|]. by rewrite Hnil.
Qed.

(** [node[index] = child] with the index inside the sequence: the slot holds
    the child, the other slots are unchanged; the child, if it is an
    instance, has the node as its parent; no other instance changes parent,
    the replaced one included. *)
Theorem NT_setitem_in_range (w : world) (self : nat) (index : Z) (child : value) :
  live w self →
  (0 <= index < len (attr items w self))%Z →
  let l := attr items w self in
  let r := NonTerminalNode.__setitem__ self index child w in
  r.2 = Ret tt ∧
  attr items r.1 self = <[Z.to_nat index := child]> l ∧
  (∀ b, child = VRef b → live w b → attr parent r.1 b = VRef self) ∧
  (∀ b, child ≠ VRef b → attr parent r.1 b = attr parent w b).
Proof.
  intros Hlive Hin l r.
  assert (r = (set_parent_w child (VRef self)
                 (upd (with_items (<[Z.to_nat index := child]> l)) self w), Ret tt))
    as ->.
  { apply NT_setitem_run. by apply norm_index_nonneg. }
  simpl. repeat split.
  - rewrite attr_set_parent_w_frame by done. by rewrite attr_upd_same.
  - intros b -> Hb. apply parent_set_parent_w_same. by apply live_upd.
  - intros b Hb. rewrite parent_set_parent_w_other by done.
    by rewrite attr_upd_frame.
Qed.

Lemma slice_bounds_in_range {A} (l : list A) (i j : nat) :
  i ≤ j ≤ length l → slice_bounds l (Z.of_nat i) (Z.of_nat j) = (i, j).
Proof.
  intros H. unfold slice_bounds, len. f_equal; lia.
Qed.

(** [del node[start:stop]] with [0 <= start <= stop <= len]: the range is
    removed, every instance in it has no parent afterwards, and no other
    instance changes parent. *)
Theorem NT_delslice_in_range (w : world) (self : nat) (start stop : nat) :
  live w self →
  start ≤ stop ≤ length (attr items w self) →
  let l := attr items w self in
  let removed := take (stop - start) (drop start l) in
  let r := NonTerminalNode.__delslice__ self (Z.of_nat start) (Z.of_nat stop) w in
  r.2 = Ret tt ∧
  attr items r.1 self = take start l ++ drop stop l ∧
  (∀ b, VRef b ∈ removed → live w b → attr parent r.1 b = VNone) ∧
  (∀ b, VRef b ∉ removed → attr parent r.1 b = attr parent w b).
Proof.
  intros Hlive Hrange l removed r.
  set (w1 := upd (with_items (take start l ++ drop stop l)) self w).
  assert (r = (foldl (λ w child, set_parent_w child VNone w) w1 removed, Ret tt)) as ->.
  { unfold r, NonTerminalNode.__delslice__.
    erewrite bind_run by reflexivity. fold l.
    unfold list_getslice, list_delslice. rewrite slice_bounds_in_range by done.
    erewrite bind_run by reflexivity. fold w1.
    apply for_each_set_parent_run. }
  simpl. repeat split.
  - rewrite attr_set_parents_frame by done. unfold w1. by rewrite attr_upd_same.
  - intros b Hb Hlb. apply parent_set_parents; [by apply live_upd|done].
  - intros b Hb. rewrite parent_set_parents_notin by done.
    unfold w1. by rewrite attr_upd_frame.
Qed.

(** [node[start:stop] = seq] with [0 <= start <= stop <= len]: the range is
    replaced by [seq], whatever the two lengths; and every instance among
    the first [stop - start - 1] elements of [seq] has the node as its
    parent afterwards. *)
Theorem NT_setslice_in_range (w : world) (self : nat) (start stop : nat)
    (seq : list value) :
  live w self →
  start ≤ stop ≤ length (attr items w self) →
  let l := attr items w self in
  let r := NonTerminalNode.__setslice__ self (Z.of_nat start) (Z.of_nat stop) seq w in
  r.2 = Ret tt ∧
  attr items r.1 self = take start l ++ seq ++ drop stop l ∧
  (∀ k b, seq !! k = Some (VRef b) → S k < stop - start → live w b →
     attr parent r.1 b = VRef self).
Proof.
  intros Hlive Hrange l r.
  change (start ≤ stop ≤ length l) in Hrange.
  set (l' := take start l ++ seq ++ drop stop l).
  set (w1 := upd (with_items l') self w).
  set (cnt := Z.min (Z.of_nat stop - Z.of_nat start - 1) (len seq)).
  set (nc := slice_syntax l' (Z.of_nat start) (Z.of_nat start + cnt)).
  assert (attr items w1 self = l') as Hitems1.
  { unfold w1. by rewrite attr_upd_same. }
  assert (r = (foldl (λ w child, set_parent_w child (VRef self) w) w1 nc, Ret tt)) as ->.
  { unfold r, NonTerminalNode.__setslice__.
    erewrite bind_run by reflexivity. fold l.
    unfold list_setslice. rewrite slice_bounds_in_range by done. fold l'.
    erewrite bind_run by reflexivity. cbv zeta.
    erewrite bind_run by reflexivity. fold w1. rewrite Hitems1. fold cnt nc.
    apply for_each_set_parent_run. }
  simpl. repeat split.
  - by rewrite attr_set_parents_frame.
  - intros k b Hk Hlt Hb. apply parent_set_parents; [by apply live_upd|].
    pose proof (lookup_lt_Some _ _ _ Hk) as Hklen.
    assert (Z.of_nat k < cnt)%Z as Hkc.
    { unfold cnt, len. clear -Hlt Hklen. lia. }
    assert (length (take start l) = start) as Hlen by (rewrite length_take; lia).
    assert (nc = take (Z.to_nat cnt) seq) as ->.
    { unfold nc, slice_syntax.
      destruct (Z.ltb_spec (Z.of_nat start) 0); [lia|].
      destruct (Z.ltb_spec (Z.of_nat start + cnt) 0); [lia|].
      unfold list_getslice, slice_bounds.
      assert (len l' = Z.of_nat start + len seq + len (drop stop l))%Z as Hl'.
      { unfold l', len. rewrite !length_app, Hlen. lia. }
      assert (cnt <= len seq)%Z by (unfold cnt; lia).
      assert (0 <= len (drop stop l))%Z by (unfold len; lia).
      replace (Z.to_nat (0 `max` (Z.of_nat start `min` len l'))) with start by lia.
      replace (Z.to_nat (0 `max` ((Z.of_nat start + cnt) `min` len l')))
        with (start + Z.to_nat cnt) by lia.
      replace (start `max` (start + Z.to_nat cnt) - start) with (Z.to_nat cnt) by lia.
      unfold l'. rewrite drop_app_length' by done.
      rewrite take_app_le; [done|]. unfold len in *. lia. }
    apply list_elem_of_lookup. exists k. rewrite lookup_take_lt by lia. done.
Qed.

(** [extend]: what the argument yields follows the old sequence.  With a
    list or tuple, every instance among the elements has the node as its
    parent afterwards and no other instance changes parent.  With an
    iterator, which the built-in has consumed when the parent loop starts,
    no parent changes.  [+=] does the same and returns the node. *)
Theorem NT_extend_appends (w : world) (self : nat) (l : list value) :
  live w self →
  (let r := NonTerminalNode.extend self (Sequence l) w in
   r.2 = Ret tt ∧
   attr items r.1 self = attr items w self ++ l ∧
   (∀ b, VRef b ∈ l → live w b → attr parent r.1 b = VRef self) ∧
   (∀ b, VRef b ∉ l → attr parent r.1 b = attr parent w b) ∧
   NonTerminalNode.__iadd__ self (Sequence l) w = (r.1, Ret (VRef self))) ∧
  (let r := NonTerminalNode.extend self (Iterator l) w in
   r.2 = Ret tt ∧
   attr items r.1 self = attr items w self ++ l ∧
   (∀ b, attr parent r.1 b = attr parent w b) ∧
   NonTerminalNode.__iadd__ self (Iterator l) w = (r.1, Ret (VRef self))).
Proof.
  intros Hlive.
  set (w1 := upd (λ o, with_items (items o ++ l) o) self w).
  assert (attr items w1 self = attr items w self ++ l) as Hitems1.
  { unfold w1. by rewrite attr_upd_same. }
  split.
  - intros r.
    assert (r = (foldl (λ w child, set_parent_w child (VRef self) w) w1 l, Ret tt))
      as ->.
    { unfold r, NonTerminalNode.extend, list_extend.
      erewrite bind_run by reflexivity.
      erewrite bind_run by reflexivity.
      apply for_each_set_parent_run. }
    simpl. repeat split.
    + by rewrite attr_set_parents_frame.
    + intros b Hb Hlb. apply parent_set_parents; [by apply live_upd|done].
    + intros b Hb. rewrite parent_set_parents_notin by done.
      unfold w1. by rewrite attr_upd_frame.
    + apply NT_iadd_run.
  - intros r.
    assert (r = (w1, Ret tt)) as -> by reflexivity.
    simpl. repeat split.
    + done.
    + intros b. unfold w1. by rewrite attr_upd_frame.
Qed.

(** ** Deep copies *)

Lemma list_comprehension_atoms fuel (l : list value) w :
  Forall (λ v, ∀ b, v ≠ VRef b) l →
  list_comprehension (λ child, let* r := deepcopy (S fuel) child ∅ in ret r.1) l w
  = (w, Ret l).
Proof.
  induction l as [|x l IH]; intros Hl; [done|].
  inversion Hl as [|? ? Hx Hl']; subst. simpl list_comprehension.
  erewrite bind_run.
  2:{ erewrite bind_run; [reflexivity|].
      destruct x as [| |b]; [reflexivity..|]. by destruct (Hx b). }
  erewrite bind_run by (by apply IH). reflexivity.
Qed.

(** The deep copy of a container whose children are [None] or strings raises
    TypeError as soon as the recursion limit lets it reach the container's
    own [__deepcopy__], and the store is left as it was. *)
Theorem deepcopy_flat_container_raises (fuel : nat) (a : nat)
    (memo : gmap nat value) (w : world) :
  memo !! a = None →
  attr cls w a ≠ ClsNode →
  Forall (λ v, ∀ b, v ≠ VRef b) (attr items w a) →
  deepcopy (S (S fuel)) (VRef a) memo w = (w, Raise TypeError).
Proof.
  intros Hmemo Hcls Hatoms.
  cbn [deepcopy]. rewrite Hmemo.
  erewrite bind_run by reflexivity.
  assert (NonTerminalNode.__deepcopy__
            (λ child, let* r := deepcopy (S fuel) child ∅ in ret r.1) a memo w
          = (w, Raise TypeError)) as Hcopy.
  { unfold NonTerminalNode.__deepcopy__.
    erewrite bind_run by reflexivity.
    erewrite bind_run by (by apply list_comprehension_atoms).
    erewrite bind_run by reflexivity.
    apply list___new___raises. }
  destruct (attr cls w a); [done| |]; by erewrite bind_raise by exact Hcopy.
Qed.

(** The deep copy of a plain node whose parent is a container never returns,
    whatever the recursion limit: its state holds the parent, whose own deep
    copy raises. *)
Theorem deepcopy_child_of_container_raises (fuel : nat) (a p : nat)
    (memo : gmap nat value) (w : world) :
  live w a → live w p →
  attr cls w a = ClsNode →
  attr parent w a = VRef p →
  attr cls w p ≠ ClsNode →
  memo !! a = None → memo !! p = None →
  ∃ w' e, deepcopy fuel (VRef a) memo w = (w', Raise e).
Proof.
  intros Ha Hp Hcls Hpar Hclsp Hma Hmp.
  destruct fuel as [|fuel]; [by eexists _, _|].
  cbn [deepcopy]. rewrite Hma.
  erewrite bind_run by reflexivity. rewrite Hcls.
  erewrite bind_run by apply alloc_run.
  erewrite bind_run by reflexivity.
  set (w0 := alloc_w ClsNode w).
  assert (attr parent w0 a = VRef p) as ->.
  { unfold attr, w0. by rewrite obj_at_alloc_w_old. }
  assert (a ≠ p) as Hne by (intros ->; congruence).
  destruct (deepcopy_container_raises fuel p
              (<[a := VRef (fresh (dom (heap w)))]> memo) w0) as (w' & e & Hraise).
  - by rewrite lookup_insert_ne.
  - unfold attr, w0. by rewrite obj_at_alloc_w_old.
  - erewrite bind_raise by exact Hraise. by eexists _, _.
Qed.

(** ** Lookups in the map *)

Lemma dict_getitem_run self key w i :
  is_hashable (heap w) key = true →
  attr indices w self !! key = Some i →
  dict_getitem self key w = (w, Ret i).
Proof.
  intros Hh Hi. unfold dict_getitem, check_hashable.
  unfold bind at 1. rewrite Hh.
  erewrite bind_run by reflexivity. by rewrite Hi.
Qed.

Lemma dict_getitem_missing self key w :
  is_hashable (heap w) key = true →
  attr indices w self !! key = None →
  dict_getitem self key w = (w, Raise KeyError).
Proof.
  intros Hh Hi. unfold dict_getitem, check_hashable.
  unfold bind at 1. rewrite Hh.
  erewrite bind_run by reflexivity. by rewrite Hi.
Qed.

Lemma dict_getitem_unhashable self key w :
  is_hashable (heap w) key = false →
  dict_getitem self key w = (w, Raise TypeError).
Proof.
  intros Hh. unfold dict_getitem, check_hashable.
  unfold bind at 1. by rewrite Hh.
Qed.

(** [index] and [remove] of a child that has no entry raise KeyError, and of
    an unhashable value (a container) TypeError; the store is left as it
    was. *)
Theorem index_and_remove_of_absent (w : world) (self : nat) (item : value) :
  attr indices w self !! item = None →
  let e := if is_hashable (heap w) item then KeyError else TypeError in
  BiDirectionalLookupNonTerminalNode.index self item w = (w, Raise e) ∧
  BiDirectionalLookupNonTerminalNode.remove self item w = (w, Raise e).
Proof.
  intros Hi e. unfold BiDirectionalLookupNonTerminalNode.index,
    BiDirectionalLookupNonTerminalNode.remove, e.
  destruct (is_hashable (heap w) item) eqn:Hh.
  - split; [by apply dict_getitem_missing|].
    erewrite bind_raise; [reflexivity|]. by apply dict_getitem_missing.
  - split; [by apply dict_getitem_unhashable|].
    erewrite bind_raise; [reflexivity|]. by apply dict_getitem_unhashable.
Qed.

(** ** The map of a sequence with one slot replaced *)

Lemma unique_children_set l n child :
  unique_children l → child ∉ l → unique_children (<[n := child]> l).
Proof.
  intros Hu Hfresh j k c Hj Hk Hc.
  assert (∀ i, <[n := child]> l !! i = Some c →
               (i = n ∧ c = child) ∨ (i ≠ n ∧ l !! i = Some c)) as Hpos.
  { intros i Hi. destruct (decide (i = n)) as [->|Hne].
    - left. split; [done|].
      rewrite list_lookup_insert_eq in Hi; [congruence|].
      apply lookup_lt_Some in Hi. by rewrite length_insert in Hi.
    - right. by rewrite list_lookup_insert_ne in Hi. }
  destruct (Hpos j Hj) as [[-> ->]|[Hjn Hj']];
    destruct (Hpos k Hk) as [[-> Hck]|[Hkn Hk']]; try done.
  - destruct Hfresh. by eapply list_elem_of_lookup_2.
  - subst c. destruct Hfresh. by eapply list_elem_of_lookup_2.
  - by apply (Hu j k c).
Qed.

Lemma rederive_set l n old child :
  unique_children l → l !! n = Some old →
  child ≠ VNone → child ∉ l →
  <[child := Z.of_nat n]> (delete old (rederive l)) = rederive (<[n := child]> l).
Proof.
  intros Hu Hn Hchild Hfresh.
  pose proof (lookup_lt_Some _ _ _ Hn) as Hlt.
  pose proof (unique_children_set l n child Hu Hfresh) as Hu'.
  apply map_eq. intros c. unfold rederive.
  destruct (decide (child = c)) as [<-|Hne].
  - rewrite lookup_insert_eq. symmetry.
    rewrite (lookup_rederive_from (<[n := child]> l) 0 n child);
      [f_equal; lia|done|done|]. by apply list_lookup_insert_eq.
  - rewrite lookup_insert_ne by done.
    destruct (decide (c ≠ VNone ∧ c ∈ l)) as [[Hc Hin]|Hout].
    + apply list_elem_of_lookup in Hin as [k Hk].
      destruct (decide (k = n)) as [->|Hkn].
      * assert (old = c) as -> by congruence.
        rewrite lookup_delete_eq. symmetry.
        apply lookup_rederive_from_None. right.
        intros [i Hi]%list_elem_of_lookup.
        destruct (decide (i = n)) as [->|Hin'].
        -- rewrite list_lookup_insert_eq in Hi by done. congruence.
        -- rewrite list_lookup_insert_ne in Hi by done.
           by specialize (Hu i n c Hi Hk Hc).
      * assert (old ≠ c) as Hoc.
        { intros ->. by specialize (Hu k n c Hk Hn Hc). }
        rewrite lookup_delete_ne by done.
        rewrite (lookup_rederive_from l 0 k c) by done.
        rewrite (lookup_rederive_from (<[n := child]> l) 0 k c); [done..|].
        by rewrite list_lookup_insert_ne.
    + assert (c = VNone ∨ c ∉ l) as Hout'.
      { destruct (decide (c = VNone)); [by left|]. right.
        intros ?. by apply Hout. }
      rewrite (lookup_rederive_from_None (<[n := child]> l)).
      * destruct (decide (old = c)) as [->|]; [by rewrite lookup_delete_eq|].
        rewrite lookup_delete_ne by done. by apply lookup_rederive_from_None.
      * destruct Hout' as [?|Hout']; [by left|]. right.
        intros [i Hi]%list_elem_of_lookup.
        destruct (decide (i = n)) as [->|Hin'].
        -- rewrite list_lookup_insert_eq in Hi by done. congruence.
        -- rewrite list_lookup_insert_ne in Hi by done.
           apply Hout'. by eapply list_elem_of_lookup_2.
Qed.

(** ** Assignment inside the sequence *)

Lemma Bi_setitem_in_bounds_run self index child w n replacee :
  live w self →
  (0 <= index < len (attr items w self))%Z →
  n = Z.to_nat index →
  attr items w self !! n = Some replacee →
  is_hashable (heap w) replacee = true →
  is_hashable (heap w) child = true →
  BiDirectionalLookupNonTerminalNode.__setitem__ self index child w
  = (set_index_w self child index
       (del_index_w self replacee
          (set_parent_w child (VRef self)
             (upd (with_items (<[n := child]> (attr items w self))) self w))),
     Ret tt).
Proof.
  intros Hlive Hin -> Hrep Hhr Hhc.
  unfold BiDirectionalLookupNonTerminalNode.__setitem__.
  erewrite bind_run by reflexivity.
  destruct (Z.gtb_spec (len (attr items w self)) index) as [_|?]; [|lia].
  unfold list_getitem. rewrite norm_index_nonneg, Hrep by done.
  erewrite bind_run by reflexivity.
  erewrite bind_run by (apply NT_setitem_run; by apply norm_index_nonneg).
  erewrite bind_run.
  2:{ apply delete_from_indices_run.
      rewrite is_hashable_set_parent_w. by rewrite is_hashable_upd. }
  apply dict_setitem_run.
  rewrite is_hashable_del_index_w, is_hashable_set_parent_w.
  by rewrite is_hashable_upd.
Qed.

(** [node[index] = child] with the index inside the sequence, the child and
    the element it replaces being hashable: the slot holds the child, the
    entry of the replaced element is gone and the child has the entry
    [index], so [index(child)] returns it; the child, if it is an instance,
    has the node as its parent.  If the node was
    consistent, its children distinct and the child a new one, the node is
    consistent again. *)
Theorem Bi_setitem_in_bounds (w : world) (self : nat) (index : Z)
    (child replacee : value) :
  live w self →
  (0 <= index < len (attr items w self))%Z →
  attr items w self !! Z.to_nat index = Some replacee →
  is_hashable (heap w) replacee = true →
  is_hashable (heap w) child = true →
  let l := attr items w self in
  let r := BiDirectionalLookupNonTerminalNode.__setitem__ self index child w in
  r.2 = Ret tt ∧
  attr items r.1 self = <[Z.to_nat index := child]> l ∧
  attr indices r.1 self = <[child := index]> (delete replacee (attr indices w self)) ∧
  BiDirectionalLookupNonTerminalNode.index self child r.1 = (r.1, Ret index) ∧
  (∀ b, child = VRef b → live w b → attr parent r.1 b = VRef self) ∧
  (consistent w self → unique_children l → child ≠ VNone → child ∉ l →
   consistent r.1 self).
Proof.
  intros Hlive Hin Hrep Hhr Hhc l r. set (n := Z.to_nat index) in *.
  set (w1 := upd (with_items (<[n := child]> l)) self w).
  set (w2 := set_parent_w child (VRef self) w1).
  set (w3 := del_index_w self replacee w2).
  set (w4 := set_index_w self child index w3).
  assert (r = (w4, Ret tt)) as ->.
  { by apply (Bi_setitem_in_bounds_run self index child w n replacee). }
  simpl.
  assert (attr items w4 self = <[n := child]> l) as Hitems.
  { unfold w4, set_index_w, w3, del_index_w. rewrite !attr_upd_frame by done.
    unfold w2. rewrite attr_set_parent_w_frame by done.
    unfold w1. by rewrite attr_upd_same. }
  assert (attr indices w4 self = <[child := index]> (delete replacee (attr indices w self)))
    as Hidx.
  { unfold w4, set_index_w.
    rewrite attr_upd_same by (unfold w3, w2, w1; live_tac). simpl.
    change (indices (obj_at w3 self)) with (attr indices w3 self).
    unfold w3, del_index_w.
    rewrite attr_upd_same by (unfold w2, w1; live_tac). simpl.
    change (indices (obj_at w2 self)) with (attr indices w2 self).
    unfold w2. rewrite attr_set_parent_w_frame by done.
    unfold w1. by rewrite attr_upd_frame. }
  split; [done|]. split; [done|]. split; [done|]. split; [|split].
  - apply dict_getitem_run.
    + unfold w4, w3, w2, w1.
      rewrite is_hashable_set_index_w, is_hashable_del_index_w,
        is_hashable_set_parent_w. by rewrite is_hashable_upd.
    + rewrite Hidx. apply lookup_insert_eq.
  - intros b -> Hb. unfold w4, set_index_w, w3, del_index_w.
    rewrite !attr_upd_frame by done.
    unfold w2. apply parent_set_parent_w_same. unfold w1. live_tac.
  - intros Hcons Hu Hchild Hfresh. unfold consistent.
    rewrite Hidx, Hitems, Hcons. fold l.
    replace index with (Z.of_nat n) by (unfold n; lia).
    by apply rederive_set.
Qed.

(** ** The next free index *)

Lemma _is_assigned_nat l (i : nat) :
  (_is_assigned (Z.of_nat i) l = Ret true ∧ assigned l i) ∨
  (_is_assigned (Z.of_nat i) l = Ret false ∧ ¬ assigned l i).
Proof.
  rewrite is_assigned_spec. cbv zeta.
  destruct (Z.leb_spec 0 (Z.of_nat i)); [|lia].
  rewrite Nat2Z.id. destruct (l !! i) as [v|] eqn:E.
  - destruct (decide (v = VNone)) as [->|Hv].
    + right. split; [done|]. intros (v' & Hv' & Hne). congruence.
    + left. rewrite bool_decide_eq_false_2 by done. split; [done|]. by exists v.
  - right. split; [done|]. intros (v' & Hv' & _). congruence.
Qed.

Lemma foldl_print_w_heap zs : ∀ w,
  heap (foldl (λ w z, print_w z w) w zs) = heap w.
Proof. induction zs as [|z zs IH]; intros w; simpl; [done|]. by rewrite IH. Qed.

Lemma foldl_print_w_stdout zs : ∀ w,
  stdout (foldl (λ w z, print_w z w) w zs) = stdout w ++ zs.
Proof.
  induction zs as [|z zs IH]; intros w; simpl; [by rewrite app_nil_r|].
  rewrite IH. simpl. by rewrite <- app_assoc.
Qed.

Lemma next_free_index_loop_run self : ∀ fuel (i : nat) w,
  length (attr items w self) - i < fuel →
  ∃ j, i ≤ j ∧
    BiDirectionalLookupNonTerminalNode.next_free_index_loop fuel self (Z.of_nat i) w
    = (foldl (λ w z, print_w z w) w (Z.of_nat <$> seq i (j - i)), Ret (Z.of_nat j)) ∧
    (∀ k, i ≤ k < j → assigned (attr items w self) k) ∧
    ¬ assigned (attr items w self) j.
Proof.
  induction fuel as [|fuel IH]; intros i w Hfuel; [lia|].
  rewrite next_free_index_loop_S.
  destruct (_is_assigned_nat (attr items w self) i) as [[-> Ha]|[-> Ha]].
  - assert (i < length (attr items w self)) as Hlt.
    { destruct Ha as (v & Hv & _). by eapply lookup_lt_Some. }
    destruct (IH (S i) (print_w (Z.of_nat i) w)) as (j & Hj & Hrun & Hbelow & Hfree).
    { change (attr items (print_w (Z.of_nat i) w) self) with (attr items w self). lia. }
    exists j. split; [lia|]. split; [|split].
    + replace (Z.of_nat i + 1)%Z with (Z.of_nat (S i)) by lia. rewrite Hrun.
      replace (j - i) with (S (j - S i)) by lia. reflexivity.
    + intros k Hk. destruct (decide (k = i)) as [->|]; [done|].
      apply Hbelow. lia.
    + exact Hfree.
  - exists i. split; [done|]. rewrite Nat.sub_diag. simpl.
    split; [done|]. split; [intros k ?; lia|done].
Qed.

(** [__get_next_free_index], the last automatically added index being at
    least -1: it returns the first index from the one after the last on
    whose slot is empty or past the end; every slot it passed is occupied;
    it prints the indices it passed and changes nothing else. *)
Theorem get_next_free_index_spec (w : world) (self : nat) :
  (-1 <= attr last_automatically_added_index w self)%Z →
  let l := attr items w self in
  let first := Z.to_nat (attr last_automatically_added_index w self + 1) in
  let r := BiDirectionalLookupNonTerminalNode.__get_next_free_index self w in
  ∃ j, first ≤ j ∧
    r.2 = Ret (Z.of_nat j) ∧
    (∀ k, first ≤ k < j → assigned l k) ∧
    ¬ assigned l j ∧
    heap r.1 = heap w ∧
    stdout r.1 = stdout w ++ (Z.of_nat <$> seq first (j - first)).
Proof.
  intros Hlast l first r.
  destruct (next_free_index_loop_run self
              (S (Z.to_nat (len l - Z.of_nat first))) first w)
    as (j & Hj & Hrun & Hbelow & Hfree).
  { unfold len, l. lia. }
  exists j. split; [done|].
  assert (r = (foldl (λ w z, print_w z w) w (Z.of_nat <$> seq first (j - first)),
               Ret (Z.of_nat j))) as ->.
  { unfold r, BiDirectionalLookupNonTerminalNode.__get_next_free_index.
    erewrite bind_run by reflexivity. cbv zeta.
    erewrite bind_run by reflexivity. fold l.
    replace (attr last_automatically_added_index w self + 1)%Z
      with (Z.of_nat first) by (unfold first; lia).
    exact Hrun. }
  simpl. repeat split; try done.
  - apply foldl_print_w_heap.
  - apply foldl_print_w_stdout.
Qed.

(** ** Padding *)

(** [__ensure_valid_index]: it returns; the sequence is the old one followed
    by as many placeholders as it takes for the index to be inside it (none
    if it already is); no map and no parent changes. *)
Theorem ensure_valid_index_pads (w : world) (self : nat) (index : Z) :
  live w self →
  let l := attr items w self in
  let r := BiDirectionalLookupNonTerminalNode.__ensure_valid_index self index w in
  r.2 = Ret tt ∧
  attr items r.1 self = l ++ replicate (Z.to_nat (index + 1 - len l)) VNone ∧
  (index < len (attr items r.1 self))%Z ∧
  (∀ b, attr indices r.1 b = attr indices w b ∧ attr parent r.1 b = attr parent w b).
Proof.
  intros Hlive l r.
  assert (r = (upd (with_items (l ++ replicate (Z.to_nat (index + 1 - len l)) VNone))
                 self w, Ret tt)) as ->.
  { unfold r, BiDirectionalLookupNonTerminalNode.__ensure_valid_index.
    erewrite bind_run by reflexivity.
    apply ensure_valid_index_loop_run; [done|]. fold l. lia. }
  simpl. rewrite attr_upd_same by done. simpl.
  split; [done|]. split; [done|]. split.
  - unfold len. rewrite length_app, length_replicate. unfold len. lia.
  - intros b. by rewrite !attr_upd_frame.
Qed.

(** [node[index] = child] with the index at or beyond the length: the
    sequence is padded with placeholders up to the index and the child is
    stored there; the old elements keep their positions; the child, if it
    is an instance, has the node as its parent. *)
Theorem setitem_past_end_pads (w : world) (self : nat) (index : Z) (child : value) :
  live w self →
  (len (attr items w self) <= index)%Z →
  let l := attr items w self in
  let r := BiDirectionalLookupNonTerminalNode.__setitem__ self index child w in
  r.2 = Ret tt ∧
  attr items r.1 self = l ++ replicate (Z.to_nat (index - len l)) VNone ++ [child] ∧
  attr items r.1 self !! Z.to_nat index = Some child ∧
  (len (attr items r.1 self) = index + 1)%Z ∧
  (∀ b, child = VRef b → live w b → attr parent r.1 b = VRef self).
Proof.
  intros Hlive Hle l r.
  assert (r = (set_parent_w child (VRef self)
                 (upd (with_items
                         (l ++ replicate (Z.to_nat (index - len l)) VNone ++ [child]))
                    self w), Ret tt)) as ->.
  { by apply setitem_past_end_run. }
  simpl. rewrite attr_set_parent_w_frame by done. rewrite attr_upd_same by done.
  simpl. split; [done|]. split; [done|]. split; [|split].
  - rewrite app_assoc. 
    assert (Z.to_nat index = length (l ++ replicate (Z.to_nat (index - len l)) VNone))
      as ->.
    { rewrite length_app, length_replicate. unfold len, l in *. lia. }
    by rewrite list_lookup_middle.
  - unfold len. rewrite !length_app, length_replicate. simpl.
    unfold len, l in *. lia.
  - intros b -> Hb. apply parent_set_parent_w_same. by apply live_upd.
Qed.

(** ** Automatic placement *)

Lemma get_next_free_index_run self w (j : nat) :
  (-1 <= attr last_automatically_added_index w self)%Z →
  let l := attr items w self in
  let first := Z.to_nat (attr last_automatically_added_index w self + 1) in
  first ≤ j →
  (∀ k, first ≤ k < j → assigned l k) →
  ¬ assigned l j →
  BiDirectionalLookupNonTerminalNode.__get_next_free_index self w
  = (foldl (λ w z, print_w z w) w (Z.of_nat <$> seq first (j - first)),
     Ret (Z.of_nat j)).
Proof.
  intros Hlast l first Hj Hbelow Hfree.
  destruct (next_free_index_loop_run self
              (S (Z.to_nat (len l - Z.of_nat first))) first w)
    as (j' & Hj' & Hrun & Hbelow' & Hfree').
  { unfold len, l. lia. }
  assert (j' = j) as ->.
  { destruct (Nat.lt_trichotomy j' j) as [Hlt|[->|Hgt]]; [|done|].
    - destruct Hfree'. apply Hbelow. lia.
    - destruct Hfree. apply Hbelow'. lia. }
  unfold BiDirectionalLookupNonTerminalNode.__get_next_free_index.
  erewrite bind_run by reflexivity. cbv zeta.
  erewrite bind_run by reflexivity. fold l.
  replace (attr last_automatically_added_index w self + 1)%Z
    with (Z.of_nat first) by (unfold first; lia).
  exact Hrun.
Qed.

(** [append] when the first free slot after the last automatically added
    index is a placeholder inside the sequence: the child takes that slot,
    gets that index in the map (so [index(child)] returns it) and, if it is
    an instance, the node as its parent; the last automatically added index
    becomes that slot; and a consistent node with distinct children stays
    consistent when the child is a new one. *)
Theorem append_into_gap (w : world) (self : nat) (j : nat) (x : value) :
  live w self →
  (-1 <= attr last_automatically_added_index w self)%Z →
  Z.to_nat (attr last_automatically_added_index w self + 1) ≤ j →
  (∀ k, Z.to_nat (attr last_automatically_added_index w self + 1) ≤ k < j →
        assigned (attr items w self) k) →
  attr items w self !! j = Some VNone →
  is_hashable (heap w) x = true →
  let l := attr items w self in
  let r := BiDirectionalLookupNonTerminalNode.append self x w in
  r.2 = Ret tt ∧
  attr items r.1 self = <[j := x]> l ∧
  attr indices r.1 self = <[x := Z.of_nat j]> (delete VNone (attr indices w self)) ∧
  attr last_automatically_added_index r.1 self = Z.of_nat j ∧
  BiDirectionalLookupNonTerminalNode.index self x r.1 = (r.1, Ret (Z.of_nat j)) ∧
  (∀ b, x = VRef b → live w b → attr parent r.1 b = VRef self) ∧
  (consistent w self → unique_children l → x ≠ VNone → x ∉ l → consistent r.1 self).
Proof.
  intros Hlive Hlast Hj Hbelow Hgap Hx l r.
  set (first := Z.to_nat (attr last_automatically_added_index w self + 1)) in *.
  set (w0 := foldl (λ w z, print_w z w) w (Z.of_nat <$> seq first (j - first))).
  assert (heap w0 = heap w) as Hheap by apply foldl_print_w_heap.
  assert (∀ A (g : obj → A) b, attr g w0 b = attr g w b) as Hattr.
  { intros A g b. unfold attr, obj_at. by rewrite Hheap. }
  assert (live w0 self) as Hlive0 by (unfold live; by rewrite Hheap).
  set (w1 := upd (with_items (<[j := x]> l)) self w0).
  set (w2 := set_parent_w x (VRef self) w1).
  set (w3 := del_index_w self VNone w2).
  set (w4 := set_index_w self x (Z.of_nat j) w3).
  set (w5 := upd (with_last (Z.of_nat j)) self w4).
  assert (live w4 self) as Hlive4 by (unfold w4, w3, w2, w1; live_tac).
  assert (r = (w5, Ret tt)) as ->.
  { unfold r, BiDirectionalLookupNonTerminalNode.append.
    erewrite bind_run.
    2:{ apply (get_next_free_index_run self w j); try done.
        intros (v & Hv & Hne). rewrite Hgap in Hv. congruence. }
    fold first w0.
    erewrite bind_run; [reflexivity|].
    pose proof (lookup_lt_Some _ _ _ Hgap) as Hlt.
    rewrite (Bi_setitem_in_bounds_run self (Z.of_nat j) x w0 j VNone);
      rewrite ?Hattr, ?Hheap; try done.
    - unfold len. lia.
    - lia. }
  simpl.
  assert (attr items w5 self = <[j := x]> l) as Hitems.
  { unfold w5, w4, set_index_w, w3, del_index_w. rewrite !attr_upd_frame by done.
    unfold w2. rewrite attr_set_parent_w_frame by done.
    unfold w1. by rewrite attr_upd_same. }
  assert (attr indices w5 self = <[x := Z.of_nat j]> (delete VNone (attr indices w self)))
    as Hidx.
  { unfold w5. rewrite attr_upd_frame by done. unfold w4, set_index_w.
    rewrite attr_upd_same by (unfold w3, w2, w1; live_tac). simpl.
    change (indices (obj_at w3 self)) with (attr indices w3 self).
    unfold w3, del_index_w.
    rewrite attr_upd_same by (unfold w2, w1; live_tac). simpl.
    change (indices (obj_at w2 self)) with (attr indices w2 self).
    unfold w2. rewrite attr_set_parent_w_frame by done.
    unfold w1. rewrite attr_upd_frame by done. by rewrite Hattr. }
  split; [done|]. split; [done|]. split; [done|]. split; [|split; [|split]].
  - unfold w5. by rewrite attr_upd_same.
  - apply dict_getitem_run.
    + unfold w5, w4, w3, w2, w1. rewrite is_hashable_upd by done.
      rewrite is_hashable_set_index_w, is_hashable_del_index_w,
        is_hashable_set_parent_w. rewrite is_hashable_upd by done.
      by rewrite Hheap.
    + rewrite Hidx. apply lookup_insert_eq.
  - intros b -> Hb. unfold w5, w4, set_index_w, w3, del_index_w.
    rewrite !attr_upd_frame by done.
    unfold w2. apply parent_set_parent_w_same. unfold w1. apply live_upd.
    unfold live. by rewrite Hheap.
  - intros Hcons Hu Hxn Hfresh. unfold consistent.
    rewrite Hidx, Hitems, Hcons. fold l. by apply rederive_set.
Qed.

(** [append] when every slot from the one after the last automatically
    added index to the end is occupied (there is none if that index is the
    last position or lies past the end): the child is stored at the length
    or at the position after the last automatically added index, whichever
    is larger, the slots in between being filled with [None]; the last
    automatically added index becomes its position, and the child, if it is
    an instance, has the node as its parent. *)
Theorem append_at_end (w : world) (self : nat) (x : value) :
  live w self →
  (-1 <= attr last_automatically_added_index w self)%Z →
  (∀ k, Z.to_nat (attr last_automatically_added_index w self + 1) ≤ k
        < length (attr items w self) → assigned (attr items w self) k) →
  let l := attr items w self in
  let j := Z.max (len l) (attr last_automatically_added_index w self + 1) in
  let r := BiDirectionalLookupNonTerminalNode.append self x w in
  r.2 = Ret tt ∧
  attr items r.1 self = l ++ replicate (Z.to_nat (j - len l)) VNone ++ [x] ∧
  attr items r.1 self !! Z.to_nat j = Some x ∧
  attr last_automatically_added_index r.1 self = j ∧
  (∀ b, x = VRef b → live w b → attr parent r.1 b = VRef self).
Proof.
  intros Hlive Hlast Hbelow l j r.
  set (first := Z.to_nat (attr last_automatically_added_index w self + 1)) in *.
  set (n := Nat.max (length l) first).
  assert (j = Z.of_nat n) as Hj by (unfold j, n, first, len; lia).
  set (l' := l ++ replicate (Z.to_nat (j - len l)) VNone ++ [x]).
  set (w0 := foldl (λ w z, print_w z w) w (Z.of_nat <$> seq first (n - first))).
  assert (heap w0 = heap w) as Hheap by apply foldl_print_w_heap.
  assert (∀ A (g : obj → A) b, attr g w0 b = attr g w b) as Hattr.
  { intros A g b. unfold attr, obj_at. by rewrite Hheap. }
  assert (live w0 self) as Hlive0 by (unfold live; by rewrite Hheap).
  set (w1 := set_parent_w x (VRef self) (upd (with_items l') self w0)).
  assert (r = (upd (with_last j) self w1, Ret tt)) as ->.
  { unfold r, BiDirectionalLookupNonTerminalNode.append.
    erewrite bind_run.
    2:{ apply (get_next_free_index_run self w n); try done.
        - unfold n. fold first. lia.
        - fold first. intros k Hk. apply Hbelow. fold first. unfold n, l in *. lia.
        - intros (v & Hv & _). apply lookup_lt_Some in Hv. unfold n, l in *. lia. }
    fold first w0. rewrite <- Hj.
    erewrite bind_run; [reflexivity|].
    rewrite setitem_past_end_run; rewrite ?Hattr; try done.
    fold l. unfold j. lia. }
  simpl.
  assert (live w1 self) as Hlive1.
  { unfold w1. apply live_set_parent_w. by apply live_upd. }
  assert (attr items (upd (with_last j) self w1) self = l') as Hitems.
  { rewrite attr_upd_frame by done. unfold w1.
    rewrite attr_set_parent_w_frame by done. by rewrite attr_upd_same. }
  split; [done|]. split; [done|]. split; [|split].
  - rewrite Hitems. unfold l'. rewrite app_assoc.
    apply list_lookup_middle.
    rewrite length_app, length_replicate. unfold j, len. lia.
  - by rewrite attr_upd_same.
  - intros b -> Hb. rewrite attr_upd_frame by done.
    unfold w1. apply parent_set_parent_w_same. apply live_upd.
    unfold live. by rewrite Hheap.
Qed.

(** After [append("c")] on ["a", "b"], [del n[2]] and [del n[1]], the last
    automatically added index, 2, lies past the end of ["a"]: [append("e")]
    stores "e" at position 3, after two placeholders. *)
Lemma append_after_deletions :
  let r0 := (BiDirectionalLookupNonTerminalNode.append 0 (VStr "c") ;;;
             BiDirectionalLookupNonTerminalNode.__delitem__ 0 2 ;;;
             BiDirectionalLookupNonTerminalNode.__delitem__ 0 1) world_ab in
  let r := BiDirectionalLookupNonTerminalNode.append 0 (VStr "e") r0.1 in
  r0.2 = Ret tt ∧
  attr items r0.1 0 = [VStr "a"] ∧
  attr last_automatically_added_index r0.1 0 = 2%Z ∧
  r.2 = Ret tt ∧
  attr items r.1 0 = [VStr "a"; VNone; VNone; VStr "e"] ∧
  attr last_automatically_added_index r.1 0 = 3%Z.
Proof. repeat split; vm_compute; reflexivity. Qed.

(** ** Shifts *)


(** ** [insert] and [index] *)

Lemma insert_run self (n : nat) child w :
  live w self →
  n ≤ length (attr items w self) →
  Forall (λ c, is_hashable (heap w) c = true ∧ is_Some (attr indices w self !! c))
    (drop n (attr items w self)) →
  child ≠ VNone → is_hashable (heap w) child = true →
  BiDirectionalLookupNonTerminalNode.insert self (Z.of_nat n) child w
  = (set_index_w self child (Z.of_nat n)
       (upd (λ o, with_items (list_insert (items o) (Z.of_nat n) child) o) self
          (upd (λ o, with_indices
                       (shift_entries 1 (drop n (attr items w self)) (indices o)) o)
             self w)), Ret tt).
Proof.
  intros Hlive Hn Hs Hchild Hhc.
  unfold BiDirectionalLookupNonTerminalNode.insert.
  erewrite bind_run by reflexivity.
  erewrite bind_run.
  2:{ apply update_dict_indices_run; [done|].
      by rewrite list_getslice_to_end. }
  rewrite list_getslice_to_end by done.
  erewrite bind_run by reflexivity.
  rewrite bool_decide_eq_false_2 by done.
  apply dict_setitem_run. by rewrite !is_hashable_upd.
Qed.

(** [insert] then [index], on a consistent node of distinct hashable
    children whose slots from the index on are all occupied, the child being
    new: [index] returns the insertion index for the child, the old position
    for every child before it and the old position plus one for every child
    from it on. *)
Theorem insert_then_index (w : world) (self : nat) (n : nat) (child : value) :
  live w self →
  consistent w self →
  unique_children (attr items w self) →
  Forall (λ c, is_hashable (heap w) c = true) (attr items w self) →
  n ≤ length (attr items w self) →
  VNone ∉ drop n (attr items w self) →
  child ≠ VNone → child ∉ attr items w self → is_hashable (heap w) child = true →
  let l := attr items w self in
  let r := BiDirectionalLookupNonTerminalNode.insert self (Z.of_nat n) child w in
  r.2 = Ret tt ∧
  attr items r.1 self !! n = Some child ∧
  BiDirectionalLookupNonTerminalNode.index self child r.1 = (r.1, Ret (Z.of_nat n)) ∧
  (∀ k c, l !! k = Some c → c ≠ VNone →
     BiDirectionalLookupNonTerminalNode.index self c r.1
     = (r.1, Ret (Z.of_nat (if decide (k < n) then k else S k)))).
Proof.
  intros Hlive Hcons Hu Hhash Hn Hnone Hchild Hfresh Hhc l r.
  destruct (insert_shifts_and_records self n child w) as (Hret & Hitems & _ & Hcons');
    try done.
  fold r l in Hret, Hitems, Hcons'.
  assert (∀ c, is_hashable (heap r.1) c = is_hashable (heap w) c) as Hh.
  { intros c. unfold r. rewrite insert_run; try done.
    - cbn [fst]. rewrite is_hashable_set_index_w. by rewrite !is_hashable_upd.
    - apply Forall_forall. intros c' Hc'.
      assert (c' ∈ l) as Hin.
      { unfold l. rewrite <- (take_drop n (attr items w self)).
        apply elem_of_app. by right. }
      split; [by apply (proj1 (Forall_forall _ _) Hhash)|].
      rewrite Hcons. fold l. apply list_elem_of_lookup in Hin as [k Hk].
      unfold rederive. rewrite (lookup_rederive_from l 0 k c'); [done| |done..].
      intros ->. apply Hnone. done. }
  pose proof (unique_children_insert l n child Hu Hn Hfresh) as Hu'.
  assert (length (take n l) = n) as Hlen by (rewrite length_take; unfold l; lia).
  assert ((take n l ++ child :: drop n l) !! n = Some child) as Hat.
  { rewrite lookup_app_r by lia. by rewrite Hlen, Nat.sub_diag. }
  split; [done|]. split; [by rewrite Hitems|]. split.
  - apply dict_getitem_run; [by rewrite Hh|].
    rewrite Hcons', Hitems. unfold rederive.
    rewrite (lookup_rederive_from _ 0 n child); [f_equal; lia|done..].
  - intros k c Hk Hc. apply dict_getitem_run.
    + rewrite Hh. rewrite Forall_forall in Hhash. apply Hhash.
      by eapply list_elem_of_lookup_2.
    + rewrite Hcons', Hitems. unfold rederive.
      rewrite (lookup_rederive_from _ 0 (if decide (k < n) then k else S k) c);
        [f_equal; lia|done|done|].
      destruct (decide (k < n)).
      * rewrite lookup_app_l by lia. by rewrite lookup_take_lt.
      * rewrite lookup_app_r by lia. rewrite Hlen.
        replace (S k - n) with (S (k - n)) by lia. simpl.
        rewrite lookup_drop. by replace (n + (k - n)) with k by lia.
Qed.

(** ** Removal at the end *)

Lemma dict_delitem_run self key w i :
  is_hashable (heap w) key = true →
  attr indices w self !! key = Some i →
  dict_delitem self key w = (del_index_w self key w, Ret tt).
Proof.
  intros Hh Hi. unfold dict_delitem, check_hashable.
  unfold bind at 1. rewrite Hh.
  erewrite bind_run by reflexivity. by rewrite Hi.
Qed.

Lemma unique_children_app_l l1 l2 : unique_children (l1 ++ l2) → unique_children l1.
Proof.
  intros Hu j k c Hj Hk Hc.
  apply (Hu j k c); [by apply lookup_app_l_Some..|done].
Qed.

Lemma rederive_snoc l c :
  unique_children (l ++ [c]) → c ≠ VNone →
  rederive (l ++ [c]) !! c = Some (len l) ∧
  delete c (rederive (l ++ [c])) = rederive l.
Proof.
  intros Hu Hc.
  assert ((l ++ [c]) !! length l = Some c) as Hlast by (by rewrite list_lookup_middle).
  assert (c ∉ l) as Hnin.
  { intros [i Hi]%list_elem_of_lookup.
    pose proof (lookup_lt_Some _ _ _ Hi) as Hlt.
    assert (i = length l); [|lia].
    apply (Hu i (length l) c); [by apply lookup_app_l_Some|done..]. }
  split.
  - unfold rederive. by rewrite (lookup_rederive_from _ 0 (length l) c).
  - apply map_eq. intros k. unfold rederive.
    destruct (decide (c = k)) as [<-|Hne].
    + rewrite lookup_delete_eq. symmetry. apply lookup_rederive_from_None. by right.
    + rewrite lookup_delete_ne by done.
      destruct (decide (k ≠ VNone ∧ k ∈ l)) as [[Hk Hin]|Hout].
      * apply list_elem_of_lookup in Hin as [i Hi].
        rewrite (lookup_rederive_from (l ++ [c]) 0 i k);
          [|done|done|by apply lookup_app_l_Some].
        by rewrite (lookup_rederive_from l 0 i k);
          [|done|by eapply unique_children_app_l|done].
      * assert (k = VNone ∨ k ∉ l) as Hout'.
        { destruct (decide (k = VNone)); [by left|]. right.
          intros ?. by apply Hout. }
        rewrite !lookup_rederive_from_None; [done|done|].
        destruct Hout' as [?|Hout']; [by left|]. right.
        intros [?|?%list_elem_of_singleton]%elem_of_app; congruence.
Qed.

(** [pop()] on a consistent node of distinct children whose last child is
    hashable and not a placeholder: it returns the last child; the sequence
    has lost it and the map its entry; the child, if it is an instance, has
    no parent; and the node is consistent again. *)
Theorem pop_last_keeps_consistent (w : world) (self : nat) (l : list value)
    (c : value) :
  live w self →
  attr items w self = l ++ [c] →
  consistent w self →
  unique_children (l ++ [c]) →
  c ≠ VNone → is_hashable (heap w) c = true →
  let r := BiDirectionalLookupNonTerminalNode.pop self None w in
  r.2 = Ret c ∧
  attr items r.1 self = l ∧
  attr indices r.1 self = delete c (attr indices w self) ∧
  (∀ b, c = VRef b → live w b → attr parent r.1 b = VNone) ∧
  consistent r.1 self.
Proof.
  intros Hlive Hitems Hcons Hu Hc Hh r.
  destruct (rederive_snoc l c Hu Hc) as [Hentry Hdel].
  set (w1 := set_parent_w c VNone (upd (with_items l) self w)).
  assert (live w1 self) as Hlive1.
  { unfold w1. apply live_set_parent_w. by apply live_upd. }
  assert (attr indices w1 self = attr indices w self) as Hidx1.
  { unfold w1. rewrite attr_set_parent_w_frame by done. by rewrite attr_upd_frame. }
  assert (r = (del_index_w self c w1, Ret c)) as ->.
  { unfold r, BiDirectionalLookupNonTerminalNode.pop.
    erewrite bind_run.
    2:{ apply NT_pop_run. rewrite Hitems. apply list_pop_last. }
    fold w1. erewrite bind_run; [reflexivity|].
    apply (dict_delitem_run self c w1 (len l)).
    - unfold w1. rewrite is_hashable_set_parent_w. by rewrite is_hashable_upd.
    - rewrite Hidx1, Hcons, Hitems. done. }
  simpl.
  assert (attr items (del_index_w self c w1) self = l) as Hitems'.
  { unfold del_index_w. rewrite attr_upd_frame by done.
    unfold w1. rewrite attr_set_parent_w_frame by done. by rewrite attr_upd_same. }
  assert (attr indices (del_index_w self c w1) self = delete c (attr indices w self))
    as Hidx'.
  { unfold del_index_w. rewrite attr_upd_same by done. simpl.
    change (indices (obj_at w1 self)) with (attr indices w1 self). by rewrite Hidx1. }
  split; [done|]. split; [done|]. split; [done|]. split.
  - intros b -> Hb. unfold del_index_w. rewrite attr_upd_frame by done.
    unfold w1. apply parent_set_parent_w_same. by apply live_upd.
  - unfold consistent. rewrite Hidx', Hitems', Hcons, Hitems. done.
Qed.

(** [remove(c)] of the last child of a consistent node of distinct children,
    the child being hashable: the sequence has lost it and the map its
    entry; the child, if it is an instance, has no parent; and the node is
    consistent again. *)
Theorem remove_last_keeps_consistent (w : world) (self : nat) (l : list value)
    (c : value) :
  live w self →
  attr items w self = l ++ [c] →
  consistent w self →
  unique_children (l ++ [c]) →
  c ≠ VNone → is_hashable (heap w) c = true →
  let r := BiDirectionalLookupNonTerminalNode.remove self c w in
  r.2 = Ret tt ∧
  attr items r.1 self = l ∧
  attr indices r.1 self = delete c (attr indices w self) ∧
  (∀ b, c = VRef b → live w b → attr parent r.1 b = VNone) ∧
  consistent r.1 self.
Proof.
  intros Hlive Hitems Hcons Hu Hc Hh r.
  destruct (rederive_snoc l c Hu Hc) as [Hentry Hdel].
  assert ((l ++ [c]) !! length l = Some c) as Hlast by (by rewrite list_lookup_middle).
  assert (norm_index (l ++ [c]) (len l) = Some (length l)) as Hnorm.
  { rewrite norm_index_nonneg; [unfold len; by rewrite Nat2Z.id|].
    unfold len. rewrite length_app. simpl. lia. }
  assert (delete (length l) (l ++ [c]) = l) as Hdelete.
  { by rewrite delete_middle, app_nil_r. }
  set (w1 := set_parent_w c VNone (upd (with_items l) self w)).
  assert (live w1 self) as Hlive1.
  { unfold w1. apply live_set_parent_w. by apply live_upd. }
  assert (attr items w1 self = l) as Hitems1.
  { unfold w1. rewrite attr_set_parent_w_frame by done. by rewrite attr_upd_same. }
  assert (attr indices w1 self = attr indices w self) as Hidx1.
  { unfold w1. rewrite attr_set_parent_w_frame by done. by rewrite attr_upd_frame. }
  set (w2 := del_index_w self c w1).
  assert (attr items w2 self = l) as Hitems2.
  { unfold w2, del_index_w. by rewrite attr_upd_frame. }
  assert (r = (w2, Ret tt)) as ->.
  { unfold r, BiDirectionalLookupNonTerminalNode.remove.
    erewrite bind_run.
    2:{ apply (dict_getitem_run self c w (len l)); [done|].
        rewrite Hcons, Hitems. done. }
    unfold BiDirectionalLookupNonTerminalNode.__delitem__.
    erewrite bind_run by reflexivity. rewrite Hitems.
    unfold list_getitem. rewrite Hnorm, Hlast.
    erewrite bind_run by reflexivity.
    erewrite bind_run.
    2:{ apply (NT_delitem_run self (len l) w (length l) c); by rewrite Hitems. }
    rewrite Hitems, Hdelete. fold w1.
    erewrite bind_run.
    2:{ apply delete_from_indices_run.
        unfold w1. rewrite is_hashable_set_parent_w. by rewrite is_hashable_upd. }
    fold w2. erewrite bind_run by reflexivity. rewrite Hitems2.
    unfold BiDirectionalLookupNonTerminalNode.__update_dict_indices.
    erewrite bind_run by reflexivity. rewrite Hitems2.
    assert (list_getslice l (len l + 1) (len l) = []) as ->.
    { unfold list_getslice, slice_bounds, len.
      replace (Z.to_nat (0 `max` ((Z.of_nat (length l) + 1) `min` Z.of_nat (length l))))
        with (length l) by lia.
      replace (Z.to_nat (0 `max` (Z.of_nat (length l) `min` Z.of_nat (length l))))
        with (length l) by lia.
      by rewrite Nat.max_id, Nat.sub_diag. }
    reflexivity. }
  simpl.
  assert (attr indices w2 self = delete c (attr indices w self)) as Hidx2.
  { unfold w2, del_index_w. rewrite attr_upd_same by done. simpl.
    change (indices (obj_at w1 self)) with (attr indices w1 self). by rewrite Hidx1. }
  split; [done|]. split; [done|]. split; [done|]. split.
  - intros b -> Hb. unfold w2, del_index_w. rewrite attr_upd_frame by done.
    unfold w1. apply parent_set_parent_w_same. by apply live_upd.
  - unfold consistent. rewrite Hidx2, Hitems2, Hcons, Hitems. done.
Qed.

(** ** Counting *)

Lemma list_count_notin l v : v ∉ l → list_count l v = 0%Z.
Proof.
  intros Hv. unfold list_count.
  induction l as [|x l IH]; [done|].
  rewrite filter_cons. destruct (decide (x = v)) as [->|].
  - destruct Hv. by left.
  - apply IH. intros ?. apply Hv. by right.
Qed.

Lemma list_count_unique l v :
  unique_children l → v ≠ VNone → v ∈ l → list_count l v = 1%Z.
Proof.
  intros Hu Hv Hin. induction l as [|x l IH]; [by apply elem_of_nil in Hin|].
  unfold list_count. rewrite filter_cons. destruct (decide (x = v)) as [->|Hne].
  - assert (v ∉ l) as Hnin.
    { intros [i Hi]%list_elem_of_lookup.
      by specialize (Hu 0 (S i) v eq_refl Hi Hv). }
    apply list_count_notin in Hnin. unfold list_count, len in *. simpl. lia.
  - apply IH; [by eapply unique_children_tail|].
    apply elem_of_cons in Hin as [?|?]; [congruence|done].
Qed.

(** [count] on a consistent node of distinct children, for a hashable value:
    it returns the number of slots holding the value, as the count of the
    list does (1 for a child, the number of placeholders for [None], 0
    otherwise), and leaves the store as it was. *)
Theorem count_on_consistent (w : world) (self : nat) (v : value) :
  consistent w self →
  unique_children (attr items w self) →
  is_hashable (heap w) v = true →
  BiDirectionalLookupNonTerminalNode.count self v w
  = (w, Ret (list_count (attr items w self) v)).
Proof.
  intros Hcons Hu Hh. set (l := attr items w self) in *.
  unfold BiDirectionalLookupNonTerminalNode.count.
  erewrite bind_run.
  2:{ unfold dict_contains, check_hashable. unfold bind at 1. rewrite Hh.
      erewrite bind_run by reflexivity. reflexivity. }
  rewrite Hcons. fold l. unfold rederive.
  destruct (decide (v = VNone)) as [->|Hv].
  - rewrite lookup_rederive_from_None by (by left).
    rewrite bool_decide_eq_false_2 by (by intros [? ?]).
    rewrite bool_decide_eq_true_2 by done.
    erewrite bind_run by reflexivity. reflexivity.
  - destruct (decide (v ∈ l)) as [Hin|Hnin].
    + pose proof Hin as [k Hk]%list_elem_of_lookup.
      rewrite (lookup_rederive_from l 0 k v) by done.
      rewrite bool_decide_eq_true_2 by eauto.
      by rewrite list_count_unique.
    + rewrite lookup_rederive_from_None by (by right).
      rewrite bool_decide_eq_false_2 by (by intros [? ?]).
      rewrite bool_decide_eq_false_2 by done.
      by rewrite list_count_notin.
Qed.

(** ** Recomputing the whole map *)

Lemma NoDup_unique_children l : NoDup l → unique_children l.
Proof.
  intros Hnd j k c Hj Hk _. by eapply NoDup_lookup.
Qed.

Lemma lookup_fold_enumerate_notin (g : Z * value → Z) (l : list value) :
  ∀ (d : gmap value Z) c,
  c ∉ l → foldl (λ d ic, <[ic.2 := g ic]> d) d (enumerate l) !! c = d !! c.
Proof.
  induction l as [|x l IH] using rev_ind; intros d c Hc; [done|].
  rewrite enumerate_snoc, foldl_app. simpl.
  rewrite lookup_insert_ne.
  - apply IH. intros ?. apply Hc. apply elem_of_app. by left.
  - intros ->. apply Hc. apply elem_of_app. right. by apply list_elem_of_singleton.
Qed.

Lemma fold_enumerate_rederive (d : gmap value Z) (l : list value) :
  NoDup l → VNone ∉ l → (∀ c, c ∉ l → d !! c = None) →
  foldl (λ d ic, <[ic.2 := ic.1]> d) d (enumerate l) = rederive l.
Proof.
  intros Hnd Hnone Hd. apply map_eq. intros c. unfold rederive.
  destruct (decide (c ∈ l)) as [Hin|Hnin].
  - pose proof Hin as [k Hk]%list_elem_of_lookup.
    rewrite (lookup_fold_enumerate (λ ic, ic.1) l d k c) by done. simpl.
    rewrite (lookup_rederive_from l 0 k c); [f_equal; lia| |by apply NoDup_unique_children|done].
    intros ->. done.
  - rewrite lookup_fold_enumerate_notin by done.
    rewrite lookup_rederive_from_None by (by right). by apply Hd.
Qed.

Lemma rederive_notin l c : c ∉ l → rederive l !! c = None.
Proof. intros. apply lookup_rederive_from_None. by right. Qed.

(** The loop that rewrites every entry, on a consistent node whose children
    have just been permuted. *)
Lemma recompute_after_permutation self l l' w :
  live w self →
  attr items w self = l' →
  attr indices w self = rederive l →
  l' ≡ₚ l →
  NoDup l → VNone ∉ l →
  Forall (λ c, is_hashable (heap w) c = true) l →
  let r := for_each (enumerate l') (λ ic, dict_setitem self ic.2 ic.1) w in
  r.2 = Ret tt ∧
  live r.1 self ∧
  attr items r.1 self = l' ∧
  attr indices r.1 self = rederive l' ∧
  (∀ c, is_hashable (heap r.1) c = is_hashable (heap w) c) ∧
  (∀ b, attr parent r.1 b = attr parent w b).
Proof.
  intros Hlive Hitems Hidx Hperm Hnd Hnone Hhash r.
  assert (r = (foldl (λ w ic, set_index_w self ic.2 ic.1 w) w (enumerate l'), Ret tt))
    as ->.
  { apply (for_each_setitem_run self (λ ic, ic.1)).
    apply Forall_forall. intros [i c] Hin. simpl.
    rewrite Forall_forall in Hhash. apply Hhash. rewrite <- Hperm.
    unfold enumerate in Hin. apply elem_of_lookup_imap in Hin as (k & y & Heq & Hk).
    injection Heq as -> ->. by eapply list_elem_of_lookup_2. }
  simpl. split; [done|]. split; [|split; [|split; [|split]]].
  - clear -Hlive. revert w Hlive.
    induction (enumerate l') as [|ic kvs IH]; intros w Hlive; simpl; [done|].
    apply IH. by apply live_upd.
  - by rewrite (attr_set_indices_frame items self (λ ic, ic.1)).
  - rewrite (indices_set_indices self (λ ic, ic.1)) by done. rewrite Hidx.
    apply fold_enumerate_rederive.
    + by rewrite Hperm.
    + by rewrite Hperm.
    + intros c Hc. apply rederive_notin. by rewrite <- Hperm.
  - intros c. clear. revert w.
    induction (enumerate l') as [|ic kvs IH]; intros w; simpl; [done|].
    rewrite IH. apply is_hashable_set_index_w.
  - intros b. by rewrite (attr_set_indices_frame parent self (λ ic, ic.1)).
Qed.

Lemma reverse_run_consistent self w :
  live w self →
  consistent w self →
  NoDup (attr items w self) → VNone ∉ attr items w self →
  Forall (λ c, is_hashable (heap w) c = true) (attr items w self) →
  let r := BiDirectionalLookupNonTerminalNode.reverse self w in
  r.2 = Ret tt ∧
  live r.1 self ∧
  attr items r.1 self = reverse (attr items w self) ∧
  attr indices r.1 self = rederive (reverse (attr items w self)) ∧
  (∀ c, is_hashable (heap r.1) c = is_hashable (heap w) c) ∧
  (∀ b, attr parent r.1 b = attr parent w b).
Proof.
  intros Hlive Hcons Hnd Hnone Hhash r. set (l := attr items w self) in *.
  set (w1 := upd (λ o, with_items (reverse (items o)) o) self w).
  assert (attr items w1 self = reverse l) as Hitems1.
  { unfold w1. by rewrite attr_upd_same. }
  destruct (recompute_after_permutation self l (reverse l) w1)
    as (Hret & Hlive' & Hitems' & Hidx' & Hh' & Hp'); try done.
  - by apply live_upd.
  - unfold w1. by rewrite attr_upd_frame.
  - apply reverse_Permutation.
  - eapply Forall_impl; [exact Hhash|]. intros c Hc. cbv beta.
    unfold w1. by rewrite is_hashable_upd.
  - assert (r = for_each (enumerate (reverse l))
                  (λ ic, dict_setitem self ic.2 ic.1) w1) as ->.
    { unfold r, BiDirectionalLookupNonTerminalNode.reverse.
      erewrite bind_run by reflexivity. fold w1.
      erewrite bind_run by reflexivity. by rewrite Hitems1. }
    split; [done|]. split; [done|]. split; [done|]. split; [done|]. split.
    + intros c. rewrite Hh'. unfold w1. by rewrite is_hashable_upd.
    + intros b. rewrite Hp'. unfold w1. by rewrite attr_upd_frame.
Qed.

(** [reverse] on a consistent node without placeholders, of distinct
    hashable children: the sequence is reversed, the node is consistent
    again, [index] returns the mirrored position of every child, and no
    parent changes. *)
Theorem reverse_keeps_consistent (w : world) (self : nat) :
  live w self →
  consistent w self →
  NoDup (attr items w self) → VNone ∉ attr items w self →
  Forall (λ c, is_hashable (heap w) c = true) (attr items w self) →
  let l := attr items w self in
  let r := BiDirectionalLookupNonTerminalNode.reverse self w in
  r.2 = Ret tt ∧
  attr items r.1 self = reverse l ∧
  consistent r.1 self ∧
  (∀ k c, l !! k = Some c →
     BiDirectionalLookupNonTerminalNode.index self c r.1
     = (r.1, Ret (len l - 1 - Z.of_nat k)%Z)) ∧
  (∀ b, attr parent r.1 b = attr parent w b).
Proof.
  intros Hlive Hcons Hnd Hnone Hhash l r.
  destruct (reverse_run_consistent self w) as (Hret & _ & Hitems & Hidx & Hh & Hp);
    try done.
  fold r l in Hret, Hitems, Hidx, Hh, Hp.
  split; [done|]. split; [done|]. split; [|split; [|done]].
  - unfold consistent. by rewrite Hidx, Hitems.
  - intros k c Hk. pose proof (lookup_lt_Some _ _ _ Hk) as Hlt.
    apply dict_getitem_run.
    + rewrite Hh. rewrite Forall_forall in Hhash. apply Hhash.
      by eapply list_elem_of_lookup_2.
    + rewrite Hidx. unfold rederive.
      rewrite (lookup_rederive_from (reverse l) 0 (length l - S k) c).
      * f_equal. unfold len. lia.
      * intros ->. apply Hnone. by eapply list_elem_of_lookup_2.
      * apply NoDup_unique_children. by rewrite reverse_Permutation.
      * rewrite reverse_lookup by lia.
        by replace (length l - S (length l - S k)) with k by lia.
Qed.

(** [reverse] twice on such a node gives back the sequence and the map it
    started from. *)
Theorem reverse_twice_restores (w : world) (self : nat) :
  live w self →
  consistent w self →
  NoDup (attr items w self) → VNone ∉ attr items w self →
  Forall (λ c, is_hashable (heap w) c = true) (attr items w self) →
  let r1 := BiDirectionalLookupNonTerminalNode.reverse self w in
  let r2 := BiDirectionalLookupNonTerminalNode.reverse self r1.1 in
  r1.2 = Ret tt ∧ r2.2 = Ret tt ∧
  attr items r2.1 self = attr items w self ∧
  attr indices r2.1 self = attr indices w self ∧
  (∀ b, attr parent r2.1 b = attr parent w b).
Proof.
  intros Hlive Hcons Hnd Hnone Hhash r1 r2. set (l := attr items w self) in *.
  destruct (reverse_run_consistent self w) as (Hret & Hlive1 & Hitems & Hidx & Hh & Hp);
    try done.
  fold r1 l in Hret, Hlive1, Hitems, Hidx, Hh, Hp.
  destruct (reverse_run_consistent self r1.1)
    as (Hret2 & _ & Hitems2 & Hidx2 & _ & Hp2); try done.
  - unfold consistent. by rewrite Hidx, Hitems.
  - rewrite Hitems. by rewrite reverse_Permutation.
  - rewrite Hitems. by rewrite reverse_Permutation.
  - rewrite Hitems. rewrite reverse_Permutation.
    eapply Forall_impl; [exact Hhash|]. intros c Hc. cbv beta. by rewrite Hh.
  - fold r2 in Hret2, Hitems2, Hidx2, Hp2.
    rewrite Hitems in Hitems2, Hidx2. rewrite reverse_involutive in Hitems2, Hidx2.
    split; [done|]. split; [done|]. split; [done|]. split.
    + by rewrite Hidx2, Hcons.
    + intros b. by rewrite Hp2, Hp.
Qed.

(** [sort], whatever its arguments and wherever the instances lie in
    memory, on a consistent node without placeholders, of distinct hashable
    children: it returns, the new sequence is a permutation of the old one,
    the node is consistent again, and no parent changes. *)
Theorem sort_keeps_consistent (address : nat → Z) (w : world) (self : nat)
    (cmp : option (value → value → Z)) (key : option (value → value))
    (reverse_flag : bool) :
  live w self →
  consistent w self →
  NoDup (attr items w self) → VNone ∉ attr items w self →
  Forall (λ c, is_hashable (heap w) c = true) (attr items w self) →
  let r := BiDirectionalLookupNonTerminalNode.sort address self cmp key reverse_flag w in
  r.2 = Ret tt ∧
  attr items r.1 self ≡ₚ attr items w self ∧
  consistent r.1 self ∧
  (∀ b, attr parent r.1 b = attr parent w b).
Proof.
  intros Hlive Hcons Hnd Hnone Hhash r. set (l := attr items w self) in *.
  set (l' := list_sort address None None false l).
  assert (l' ≡ₚ l) as Hperm by apply stable_sort_perm.
  set (w1 := upd (λ o, with_items (list_sort address None None false (items o)) o) self w).
  assert (attr items w1 self = l') as Hitems1.
  { unfold w1. by rewrite attr_upd_same. }
  destruct (recompute_after_permutation self l l' w1)
    as (Hret & Hlive' & Hitems' & Hidx' & Hh' & Hp'); try done.
  - by apply live_upd.
  - unfold w1. by rewrite attr_upd_frame.
  - eapply Forall_impl; [exact Hhash|]. intros c Hc. cbv beta.
    unfold w1. by rewrite is_hashable_upd.
  - assert (r = for_each (enumerate l') (λ ic, dict_setitem self ic.2 ic.1) w1) as ->.
    { unfold r, BiDirectionalLookupNonTerminalNode.sort.
      erewrite bind_run by reflexivity. fold w1.
      erewrite bind_run by reflexivity. by rewrite Hitems1. }
    split; [done|]. split; [by rewrite Hitems'|]. split.
    + unfold consistent. by rewrite Hidx', Hitems'.
    + intros b. rewrite Hp'. unfold w1. by rewrite attr_upd_frame.
Qed.

(** ** Construction of a bidirectional node *)

Lemma is_hashable_alloc_w c w key :
  (∀ b, key = VRef b → live w b) →
  is_hashable (heap (alloc_w c w)) key = is_hashable (heap w) key.
Proof.
  intros Hkey. destruct key as [| |b]; try done. simpl.
  rewrite lookup_insert_ne; [done|].
  intros <-. by apply (fresh_not_live w), Hkey.
Qed.

Lemma live_set_indices_fold self (g : Z * value → Z) kvs : ∀ w b,
  live (foldl (λ w ic, set_index_w self ic.2 (g ic) w) w kvs) b ↔ live w b.
Proof.
  induction kvs as [|ic kvs IH]; intros w b; simpl; [done|].
  rewrite IH. apply live_upd.
Qed.

Lemma is_hashable_set_indices_fold self (g : Z * value → Z) kvs key : ∀ w,
  is_hashable (heap (foldl (λ w ic, set_index_w self ic.2 (g ic) w) w kvs)) key
  = is_hashable (heap w) key.
Proof.
  induction kvs as [|ic kvs IH]; intros w; simpl; [done|].
  rewrite IH. apply is_hashable_set_index_w.
Qed.

(** [BiDirectionalLookupNonTerminalNode(parent, children)], the children
    being distinct, hashable and, where they are instances, existing ones:
    the result is a new instance of the class holding the children, with the
    given parent and -1 as last automatically added index; [index] returns
    the position of every child; every instance among the children has the
    new node as its parent; and the node is consistent if no child is
    [None]. *)
Theorem Bi_new_indexes_children (w : world) (p : value) (args : option (list value)) :
  Forall (λ c, ∀ b, c = VRef b → live w b) (default [] args) →
  Forall (λ c, is_hashable (heap w) c = true) (default [] args) →
  NoDup (default [] args) →
  let children := default [] args in
  let r := BiDirectionalLookupNonTerminalNode.new p args w in
  ∃ self,
    r.2 = Ret self ∧
    ¬ live w self ∧ live r.1 self ∧
    attr cls r.1 self = ClsBiDirectionalLookupNonTerminalNode ∧
    attr parent r.1 self = p ∧
    attr items r.1 self = children ∧
    attr last_automatically_added_index r.1 self = (-1)%Z ∧
    (∀ k c, children !! k = Some c →
       BiDirectionalLookupNonTerminalNode.index self c r.1 = (r.1, Ret (Z.of_nat k))) ∧
    (∀ b, VRef b ∈ children → attr parent r.1 b = VRef self) ∧
    (VNone ∉ children → consistent r.1 self).
Proof.
  intros Hch Hhash Hnd children r. fold children in Hch, Hhash, Hnd.
  set (self := fresh (dom (heap w))).
  set (w0 := alloc_w ClsBiDirectionalLookupNonTerminalNode w).
  set (w1 := upd (with_parent p) self w0).
  set (w2 := upd (with_items children) self w1).
  set (w3 := foldl (λ w child, set_parent_w child (VRef self) w) w2 children).
  set (w4 := upd (with_indices ∅) self w3).
  set (w5 := foldl (λ w ic, set_index_w self ic.2 ic.1 w) w4 (enumerate children)).
  set (w6 := upd (with_last (-1)) self w5).
  assert (¬ live w self) as Hfresh by apply fresh_not_live.
  assert (live w0 self) as Hl0 by (apply live_alloc_w; by left).
  assert (live w2 self) as Hl2 by (by do 2 apply live_upd).
  assert (live w4 self) as Hl4.
  { unfold w4, w3. apply live_upd. by apply live_set_parents. }
  assert (live w5 self) as Hl5 by (by apply live_set_indices_fold).
  assert (attr items w2 self = children) as Hitems2.
  { unfold w2. by rewrite attr_upd_same by (by apply live_upd). }
  assert (attr items w4 self = children) as Hitems4.
  { unfold w4. rewrite attr_upd_frame by done.
    unfold w3. by rewrite attr_set_parents_frame. }
  assert (VRef self ∉ children) as Hself.
  { intros Hin. rewrite Forall_forall in Hch. by apply Hfresh, (Hch _ Hin). }
  assert (∀ c, c ∈ children → is_hashable (heap w4) c = true) as Hh4.
  { intros c Hc. unfold w4. rewrite is_hashable_upd by done.
    unfold w3. rewrite is_hashable_set_parents.
    unfold w2, w1. rewrite !is_hashable_upd by done.
    unfold w0. rewrite is_hashable_alloc_w.
    - rewrite Forall_forall in Hhash. by apply Hhash.
    - rewrite Forall_forall in Hch. by apply Hch. }
  assert (r = (w6, Ret self)) as ->.
  { unfold r, BiDirectionalLookupNonTerminalNode.new.
    erewrite bind_run by apply alloc_run. fold self w0.
    erewrite bind_run; [reflexivity|].
    unfold BiDirectionalLookupNonTerminalNode.__init__.
    erewrite bind_run by apply NT_init_run.
    fold children w1 w2. rewrite Hitems2. fold w3.
    erewrite bind_run by reflexivity. fold w4.
    erewrite bind_run by reflexivity. rewrite Hitems4.
    erewrite bind_run; [reflexivity|].
    apply (for_each_setitem_run self (λ ic, ic.1)).
    apply Forall_forall. intros [i c] Hin. simpl. apply Hh4.
    unfold enumerate in Hin. apply elem_of_lookup_imap in Hin as (k & y & Heq & Hk).
    injection Heq as -> ->. by eapply list_elem_of_lookup_2. }
  assert (attr indices w6 self
          = foldl (λ d ic, <[ic.2 := ic.1]> d) ∅ (enumerate children)) as Hidx.
  { unfold w6. rewrite attr_upd_frame by done. unfold w5.
    rewrite (indices_set_indices self (λ ic, ic.1)) by done.
    unfold w4. by rewrite attr_upd_same by (unfold w3; by apply live_set_parents). }
  assert (attr items w6 self = children) as Hitems6.
  { unfold w6. rewrite attr_upd_frame by done. unfold w5.
    by rewrite (attr_set_indices_frame items self (λ ic, ic.1)). }
  assert (∀ b, attr parent w6 b = attr parent w3 b) as Hpar.
  { intros b. unfold w6. rewrite attr_upd_frame by done. unfold w5.
    rewrite (attr_set_indices_frame parent self (λ ic, ic.1)) by done.
    unfold w4. by rewrite attr_upd_frame. }
  exists self. simpl.
  split; [done|]. split; [done|]. split; [by apply live_upd|].
  split; [|split; [|split; [done|split; [|split; [|split]]]]].
  - unfold w6. rewrite attr_upd_frame by done. unfold w5.
    rewrite (attr_set_indices_frame cls self (λ ic, ic.1)) by done.
    unfold w4. rewrite attr_upd_frame by done.
    unfold w3. rewrite attr_set_parents_frame by done.
    unfold w2, w1. rewrite !attr_upd_frame by done.
    unfold attr, w0. by rewrite obj_at_alloc_w_new.
  - rewrite Hpar. unfold w3. rewrite parent_set_parents_notin by done.
    unfold w2. rewrite attr_upd_frame by done.
    unfold w1. by rewrite attr_upd_same.
  - unfold w6. by rewrite attr_upd_same.
  - intros k c Hk. apply dict_getitem_run.
    + unfold w6. rewrite is_hashable_upd by done. unfold w5.
      rewrite is_hashable_set_indices_fold. apply Hh4.
      by eapply list_elem_of_lookup_2.
    + rewrite Hidx. by rewrite (lookup_fold_enumerate (λ ic, ic.1) children ∅ k c).
  - intros b Hb. rewrite Hpar. apply parent_set_parents; [|done].
    rewrite Forall_forall in Hch.
    unfold w2, w1. do 2 apply live_upd. apply live_alloc_w. right.
    by apply (Hch _ Hb).
  - intros Hnone. unfold consistent. rewrite Hidx, Hitems6.
    by apply fold_enumerate_rederive.
Qed.

(** ** Deleting entries *)

(** [__delete_from_indices] on a hashable key never raises: the entry of the
    key is gone if there was one, every other entry and the sequence are
    what they were, and a second call changes nothing more. *)
Lemma delete_from_indices_spec (w : world) (self : nat) (key : value) :
  live w self →
  is_hashable (heap w) key = true →
  let r := BiDirectionalLookupNonTerminalNode.__delete_from_indices self key w in
  r.2 = Ret tt ∧
  attr indices r.1 self = delete key (attr indices w self) ∧
  attr items r.1 self = attr items w self ∧
  BiDirectionalLookupNonTerminalNode.__delete_from_indices self key r.1 = (r.1, Ret tt).
Proof.
  intros Hlive Hh r. unfold r. rewrite delete_from_indices_run by done. simpl.
  assert (attr indices (del_index_w self key w) self = delete key (attr indices w self))
    as Hidx.
  { unfold del_index_w. by rewrite attr_upd_same. }
  split; [done|]. split; [done|]. split.
  - unfold del_index_w. by rewrite attr_upd_frame.
  - rewrite delete_from_indices_run by (by rewrite is_hashable_del_index_w).
    f_equal. apply upd_id. intros o Ho.
    assert (indices o = attr indices (del_index_w self key w) self) as Ho'.
    { unfold attr, obj_at. by rewrite Ho. }
    unfold with_indices. rewrite Ho', Hidx, delete_delete_eq.
    rewrite <- Hidx, <- Ho'. apply obj_eta.
Qed.

Lemma for_each_delete_run self (s : list value) : ∀ w,
  Forall (λ c, is_hashable (heap w) c = true) s →
  for_each s (λ c, BiDirectionalLookupNonTerminalNode.__delete_from_indices self c) w
  = (foldl (λ w c, del_index_w self c w) w s, Ret tt).
Proof.
  induction s as [|x s IH]; intros w Hs; simpl; [done|].
  inversion Hs as [|? ? Hx Hs']; subst.
  erewrite bind_run by (by apply delete_from_indices_run).
  apply IH. eapply Forall_impl; [exact Hs'|].
  intros c Hc. cbv beta. by rewrite is_hashable_del_index_w.
Qed.

Lemma attr_del_indices_frame {A} (f : obj → A) self (s : list value) : ∀ w b,
  (∀ d o, f (with_indices d o) = f o) →
  attr f (foldl (λ w c, del_index_w self c w) w s) b = attr f w b.
Proof.
  induction s as [|x s IH]; intros w b Hf; simpl; [done|].
  rewrite IH by done. apply attr_upd_frame. intros o. apply Hf.
Qed.

Lemma indices_del_indices self (s : list value) : ∀ w,
  live w self →
  attr indices (foldl (λ w c, del_index_w self c w) w s) self
  = foldl (λ d c, delete c d) (attr indices w self) s.
Proof.
  induction s as [|x s IH]; intros w Hl; simpl; [done|].
  rewrite IH by (by apply live_upd).
  unfold del_index_w. by rewrite attr_upd_same.
Qed.

Lemma lookup_foldl_delete (s : list value) : ∀ (d : gmap value Z) k,
  foldl (λ d c, delete c d) d s !! k = if decide (k ∈ s) then None else d !! k.
Proof.
  induction s as [|x s IH]; intros d k.
  - destruct (decide (k ∈ [])) as [H|]; [by apply elem_of_nil in H|done].
  - cbn [foldl]. rewrite IH. destruct (decide (k ∈ s)) as [Hin|Hnin].
    + rewrite decide_True; [done|]. by right.
    + destruct (decide (x = k)) as [->|Hne].
      * rewrite decide_True by (by left). apply lookup_delete_eq.
      * rewrite decide_False.
        -- by rewrite lookup_delete_ne.
        -- intros [?|?]%elem_of_cons; congruence.
Qed.

Lemma unique_children_take n l : unique_children l → unique_children (take n l).
Proof.
  intros Hu. rewrite <- (take_drop n l) in Hu. by eapply unique_children_app_l.
Qed.

(** The map of a prefix is the map of the whole without the entries of the
    rest. *)
Lemma rederive_take l n :
  unique_children l →
  foldl (λ d c, delete c d) (rederive l) (drop n l) = rederive (take n l).
Proof.
  intros Hu. apply map_eq. intros k. rewrite lookup_foldl_delete. unfold rederive.
  destruct (decide (k ∈ drop n l)) as [Hin|Hnin].
  - symmetry. destruct (decide (k = VNone)) as [->|Hk].
    + apply lookup_rederive_from_None. by left.
    + apply lookup_rederive_from_None. right.
      intros [i Hi]%list_elem_of_lookup.
      apply list_elem_of_lookup in Hin as [j Hj].
      pose proof (lookup_lt_Some _ _ _ Hi) as Hlt. rewrite length_take in Hlt.
      rewrite lookup_take_lt in Hi by lia. rewrite lookup_drop in Hj.
      assert (i = n + j) by (by apply (Hu i (n + j) k)). lia.
  - destruct (decide (k ≠ VNone ∧ k ∈ l)) as [[Hk Hin]|Hout].
    + apply list_elem_of_lookup in Hin as [i Hi].
      assert (i < n) as Hlt.
      { destruct (decide (i < n)); [done|]. destruct Hnin.
        apply list_elem_of_lookup. exists (i - n). rewrite lookup_drop.
        by replace (n + (i - n)) with i by lia. }
      rewrite (lookup_rederive_from l 0 i k) by done.
      rewrite (lookup_rederive_from (take n l) 0 i k);
        [done|done|by apply unique_children_take|by rewrite lookup_take_lt].
    + assert (k = VNone ∨ k ∉ l) as Hout'.
      { destruct (decide (k = VNone)); [by left|]. right. intros ?. by apply Hout. }
      rewrite !lookup_rederive_from_None; [done| |done].
      destruct Hout' as [?|Hout']; [by left|]. right.
      intros Hin. apply Hout'. rewrite <- (take_drop n l). apply elem_of_app. by left.
Qed.

(** [del node[start:stop]] where the range runs to the end of the sequence
    ([0 <= start <= len <= stop]), on a consistent node of distinct hashable
    children: the sequence is cut at [start], the entries of the removed
    children are gone, the removed instances have no parent, and the node
    is consistent again. *)
Theorem Bi_delslice_tail_keeps_consistent (w : world) (self : nat) (start : nat)
    (stop : Z) :
  live w self →
  consistent w self →
  unique_children (attr items w self) →
  Forall (λ c, is_hashable (heap w) c = true) (attr items w self) →
  start ≤ length (attr items w self) →
  (len (attr items w self) <= stop)%Z →
  let l := attr items w self in
  let r := BiDirectionalLookupNonTerminalNode.__delslice__ self (Z.of_nat start) stop w in
  r.2 = Ret tt ∧
  attr items r.1 self = take start l ∧
  (∀ b, VRef b ∈ drop start l → live w b → attr parent r.1 b = VNone) ∧
  (∀ b, VRef b ∉ drop start l → attr parent r.1 b = attr parent w b) ∧
  consistent r.1 self.
Proof.
  intros Hlive Hcons Hu Hhash Hstart Hstop l r.
  change (start ≤ length l) in Hstart. change (len l <= stop)%Z in Hstop.
  assert (slice_bounds l (Z.of_nat start) stop = (start, length l)) as Hb.
  { unfold slice_bounds, len in *. f_equal; lia. }
  assert (slice_syntax l (Z.of_nat start) stop = drop start l) as Hslice.
  { unfold slice_syntax.
    destruct (Z.ltb_spec (Z.of_nat start) 0); [lia|].
    destruct (Z.ltb_spec stop 0); [unfold len in *; lia|].
    unfold list_getslice. rewrite Hb. apply take_ge. rewrite length_drop. lia. }
  set (w1 := upd (with_items (take start l)) self w).
  set (w2 := foldl (λ w child, set_parent_w child VNone w) w1 (drop start l)).
  set (w3 := foldl (λ w c, del_index_w self c w) w2 (drop start l)).
  assert (live w2 self) as Hlive2.
  { unfold w2. apply live_set_parents. by apply live_upd. }
  assert (attr items w3 self = take start l) as Hitems3.
  { unfold w3. rewrite attr_del_indices_frame by done.
    unfold w2. rewrite attr_set_parents_frame by done.
    unfold w1. by rewrite attr_upd_same. }
  assert (r = (w3, Ret tt)) as ->.
  { unfold r, BiDirectionalLookupNonTerminalNode.__delslice__.
    erewrite bind_run by reflexivity. fold l. cbv zeta. rewrite Hslice.
    erewrite bind_run.
    2:{ unfold NonTerminalNode.__delslice__.
        erewrite bind_run by reflexivity. fold l.
        unfold list_getslice, list_delslice. rewrite Hb.
        rewrite (take_ge (drop start l)) by (rewrite length_drop; lia).
        rewrite drop_all, app_nil_r.
        erewrite bind_run by reflexivity. fold w1.
        apply for_each_set_parent_run. }
    fold w2.
    erewrite bind_run.
    2:{ apply for_each_delete_run. apply Forall_forall. intros c Hc.
        unfold w2. rewrite is_hashable_set_parents.
        unfold w1. rewrite is_hashable_upd by done.
        rewrite Forall_forall in Hhash. apply Hhash. change (c ∈ l).
        rewrite <- (take_drop start l). apply elem_of_app. by right. }
    fold w3.
    unfold BiDirectionalLookupNonTerminalNode.__update_dict_indices.
    erewrite bind_run by reflexivity. rewrite Hitems3.
    assert (list_getslice (take start l) (Z.of_nat start) stop = []) as ->.
    { unfold list_getslice, slice_bounds, len in *. rewrite length_take.
      replace (Z.to_nat (0 `max` (Z.of_nat start `min` Z.of_nat (start `min` length l))))
        with start by lia.
      replace (Z.to_nat (0 `max` (stop `min` Z.of_nat (start `min` length l))))
        with start by lia.
      by rewrite Nat.max_id, Nat.sub_diag. }
    reflexivity. }
  simpl. split; [done|]. split; [done|]. split; [|split].
  - intros b Hb' Hlb. unfold w3. rewrite attr_del_indices_frame by done.
    apply parent_set_parents; [by apply live_upd|done].
  - intros b Hb'. unfold w3. rewrite attr_del_indices_frame by done.
    unfold w2. rewrite parent_set_parents_notin by done.
    unfold w1. by rewrite attr_upd_frame.
  - unfold consistent. rewrite Hitems3. unfold w3.
    rewrite indices_del_indices by done.
    unfold w2. rewrite attr_set_parents_frame by done.
    unfold w1. rewrite attr_upd_frame by done. rewrite Hcons. fold l.
    by apply rederive_take.
Qed.

(** ** [_set_parent] *)

(** [_set_parent] never raises, whatever the child: an instance gets the
    parent, [None] and strings are left alone; no other parent, no sequence
    and no map changes. *)
Theorem set_parent_never_raises (child p : value) (w : world) :
  let r := _set_parent child p w in
  r.2 = Ret tt ∧
  (∀ b, child = VRef b → live w b → attr parent r.1 b = p) ∧
  (∀ b, child ≠ VRef b → attr parent r.1 b = attr parent w b) ∧
  (∀ b, attr items r.1 b = attr items w b ∧ attr indices r.1 b = attr indices w b ∧
        attr cls r.1 b = attr cls w b) ∧
  (∀ b, live r.1 b ↔ live w b).
Proof.
  intros r. unfold r. rewrite _set_parent_run. simpl.
  split; [done|]. split; [|split; [|split]].
  - intros b -> Hb. by apply parent_set_parent_w_same.
  - intros b Hb. by apply parent_set_parent_w_other.
  - intros b. by rewrite !attr_set_parent_w_frame.
  - intros b. apply live_set_parent_w.
Qed.

(** ** Assignment to a slice of the same length *)

Lemma lookup_fold_pairs_notin (s : list value) : ∀ (d : gmap value Z) i c,
  c ∉ s → foldl (λ d ic, <[ic.2 := ic.1]> d) d (pairs_from i s) !! c = d !! c.
Proof.
  induction s as [|x s IH]; intros d i c Hc; [done|]. simpl.
  rewrite IH by (intros ?; apply Hc; by right).
  apply lookup_insert_ne. intros ->. apply Hc. by left.
Qed.

Lemma lookup_fold_pairs (s : list value) : ∀ (d : gmap value Z) i k c,
  NoDup s → s !! k = Some c →
  foldl (λ d ic, <[ic.2 := ic.1]> d) d (pairs_from i s) !! c
  = Some (i + Z.of_nat k)%Z.
Proof.
  induction s as [|x s IH]; intros d i k c Hnd Hk; [done|]. simpl.
  apply NoDup_cons in Hnd as [Hx Hnd]. destruct k as [|k]; simpl in Hk.
  - injection Hk as ->. rewrite lookup_fold_pairs_notin by done.
    rewrite lookup_insert_eq. f_equal. lia.
  - rewrite (IH _ _ k c) by done. f_equal. lia.
Qed.

Lemma add_new_items_loop_run self seq stop : ∀ (n : nat) fuel (k : nat) w,
  n < fuel → k + n ≤ length seq →
  Forall (λ c, is_hashable (heap w) c = true) seq →
  BiDirectionalLookupNonTerminalNode.add_new_items_loop fuel self seq stop
    (stop - Z.of_nat n) (Z.of_nat k) w
  = (foldl (λ w ic, set_index_w self ic.2 ic.1 w) w
       (pairs_from (stop - Z.of_nat n) (take n (drop k seq))), Ret tt).
Proof.
  induction n as [|n IH]; intros fuel k w Hfuel Hk Hh;
    (destruct fuel as [|fuel]; [lia|]);
    cbn [BiDirectionalLookupNonTerminalNode.add_new_items_loop].
  - rewrite (proj2 (Z.ltb_ge _ _)) by lia. reflexivity.
  - rewrite (proj2 (Z.ltb_lt _ _)) by lia.
    destruct (lookup_lt_is_Some_2 seq k) as [x Hx]; [lia|].
    unfold list_getitem. rewrite norm_index_nonneg by (unfold len; lia).
    rewrite Nat2Z.id, Hx.
    erewrite bind_run by reflexivity.
    erewrite bind_run.
    2:{ apply dict_setitem_run. rewrite Forall_forall in Hh. apply Hh.
        by eapply list_elem_of_lookup_2. }
    replace (stop - Z.of_nat (S n) + 1)%Z with (stop - Z.of_nat n)%Z by lia.
    replace (Z.of_nat k + 1)%Z with (Z.of_nat (S k)) by lia.
    rewrite IH; [|lia|lia|].
    + rewrite (drop_S seq x k Hx). cbn [take pairs_from foldl].
      replace (stop - Z.of_nat (S n) + 1)%Z with (stop - Z.of_nat n)%Z by lia.
      reflexivity.
    + eapply Forall_impl; [exact Hh|]. intros c Hc. cbv beta.
      by rewrite is_hashable_set_index_w.
Qed.

Lemma NT_setslice_run self (start stop : nat) seq w :
  start ≤ stop ≤ length (attr items w self) →
  ∃ nc,
    NonTerminalNode.__setslice__ self (Z.of_nat start) (Z.of_nat stop) seq w
    = (foldl (λ w child, set_parent_w child (VRef self) w)
         (upd (with_items (take start (attr items w self) ++ seq
                           ++ drop stop (attr items w self))) self w) nc,
       Ret tt).
Proof.
  intros Hrange. eexists.
  unfold NonTerminalNode.__setslice__.
  erewrite bind_run by reflexivity.
  unfold list_setslice. rewrite slice_bounds_in_range by done.
  erewrite bind_run by reflexivity. cbv zeta.
  erewrite bind_run by reflexivity.
  apply for_each_set_parent_run.
Qed.

Lemma lookup_replaced (l seq : list value) (start stop : nat) :
  start ≤ stop ≤ length l → length seq = stop - start →
  ∀ i, (take start l ++ seq ++ drop stop l) !! i
       = if decide (start ≤ i < stop) then seq !! (i - start) else l !! i.
Proof.
  intros Hrange Hlen i.
  assert (length (take start l) = start) as Ht by (rewrite length_take; lia).
  destruct (decide (start ≤ i < stop)) as [Hin|Hout].
  - rewrite lookup_app_r by lia. rewrite Ht.
    by rewrite lookup_app_l by lia.
  - destruct (decide (i < start)).
    + rewrite lookup_app_l by lia. by rewrite lookup_take_lt.
    + rewrite lookup_app_r by lia. rewrite Ht.
      rewrite lookup_app_r by lia. rewrite lookup_drop. f_equal. lia.
Qed.

Lemma rederive_replaced (l seq : list value) (start stop : nat) :
  start ≤ stop ≤ length l → length seq = stop - start →
  unique_children l → NoDup seq → VNone ∉ seq → (∀ c, c ∈ seq → c ∉ l) →
  foldl (λ d ic, <[ic.2 := ic.1]> d)
    (foldl (λ d c, delete c d) (rederive l) (take (stop - start) (drop start l)))
    (pairs_from (Z.of_nat start) seq)
  = rederive (take start l ++ seq ++ drop stop l).
Proof.
  intros Hrange Hlen Hu Hnd Hnone Hdisj.
  set (l' := take start l ++ seq ++ drop stop l).
  pose proof (lookup_replaced l seq start stop Hrange Hlen) as Hl'. fold l' in Hl'.
  assert (∀ i c, l' !! i = Some c →
            (start ≤ i < stop ∧ seq !! (i - start) = Some c) ∨
            (¬ start ≤ i < stop ∧ l !! i = Some c)) as Hpos.
  { intros i c Hi. rewrite Hl' in Hi. destruct (decide (start ≤ i < stop)); eauto. }
  assert (unique_children l') as Hu'.
  { intros j k c Hj Hk Hc.
    destruct (Hpos j c Hj) as [[Hjr Hjs]|[Hjr Hjl]];
      destruct (Hpos k c Hk) as [[Hkr Hks]|[Hkr Hkl]].
    - assert (j - start = k - start) by (by eapply NoDup_lookup). lia.
    - destruct (Hdisj c); by eapply list_elem_of_lookup_2.
    - destruct (Hdisj c); by eapply list_elem_of_lookup_2.
    - by apply (Hu j k c). }
  assert (∀ c, c ∈ take (stop - start) (drop start l) ↔
               ∃ i, start ≤ i < stop ∧ l !! i = Some c) as Hold.
  { intros c. rewrite list_elem_of_lookup. split.
    - intros [i Hi]. pose proof (lookup_lt_Some _ _ _ Hi) as Hlt.
      rewrite length_take in Hlt. rewrite lookup_take_lt in Hi by lia.
      rewrite lookup_drop in Hi. exists (start + i). split; [lia|done].
    - intros (i & Hi & Hli). exists (i - start).
      rewrite lookup_take_lt by lia. rewrite lookup_drop.
      by replace (start + (i - start)) with i by lia. }
  apply map_eq. intros c. unfold rederive.
  destruct (decide (c ∈ seq)) as [Hin|Hnin].
  - pose proof Hin as [k Hk]%list_elem_of_lookup.
    pose proof (lookup_lt_Some _ _ _ Hk) as Hlt.
    rewrite (lookup_fold_pairs seq _ _ k c) by done.
    rewrite (lookup_rederive_from l' 0 (start + k) c); [f_equal; lia| |done|].
    + intros ->. done.
    + rewrite Hl'. rewrite decide_True by lia.
      by replace (start + k - start) with k by lia.
  - rewrite lookup_fold_pairs_notin by done. rewrite lookup_foldl_delete.
    destruct (decide (c ∈ take (stop - start) (drop start l))) as [Hold'|Hkept].
    + symmetry. apply Hold in Hold' as (i & Hi & Hli).
      destruct (decide (c = VNone)) as [->|Hc];
        [apply lookup_rederive_from_None; by left|].
      apply lookup_rederive_from_None. right.
      intros [j Hj]%list_elem_of_lookup.
      destruct (Hpos j c Hj) as [[_ Hjs]|[Hjr Hjl]].
      * apply Hnin. by eapply list_elem_of_lookup_2.
      * assert (j = i) by (by apply (Hu j i c)). lia.
    + destruct (decide (c ≠ VNone ∧ c ∈ l)) as [[Hc Hcl]|Hout].
      * apply list_elem_of_lookup in Hcl as [i Hi].
        assert (¬ start ≤ i < stop) as Hir.
        { intros Hir. apply Hkept, Hold. eauto. }
        rewrite (lookup_rederive_from l 0 i c) by done.
        rewrite (lookup_rederive_from l' 0 i c); [done|done|done|].
        rewrite Hl'. by rewrite decide_False.
      * assert (c = VNone ∨ c ∉ l) as Hout'.
        { destruct (decide (c = VNone)); [by left|]. right. intros ?. by apply Hout. }
        rewrite !lookup_rederive_from_None; [done| |done].
        destruct Hout' as [?|Hout']; [by left|]. right.
        intros [j Hj]%list_elem_of_lookup.
        destruct (Hpos j c Hj) as [[_ Hjs]|[_ Hjl]].
        -- apply Hnin. by eapply list_elem_of_lookup_2.
        -- apply Hout'. by eapply list_elem_of_lookup_2.
Qed.

Lemma indices_set_pairs self kvs : ∀ w,
  live w self →
  attr indices (foldl (λ w ic, set_index_w self ic.2 ic.1 w) w kvs) self
  = foldl (λ d ic, <[ic.2 := ic.1]> d) (attr indices w self) kvs.
Proof. intros w. apply (indices_set_indices self (λ ic, ic.1)). Qed.

(** [node[start:stop] = seq] on a bidirectional node, with
    [0 <= start <= stop <= len] and [seq] as long as the range, all
    elements concerned being hashable and those of [seq] distinct: it
    returns, the range is replaced by [seq], and [index] returns the new
    position of every element of [seq].  If the node was consistent, its
    children distinct and the elements of [seq] new ones, none of them
    [None], the node is consistent again. *)
Theorem Bi_setslice_same_length (w : world) (self : nat) (start stop : nat)
    (seq : list value) :
  live w self →
  start ≤ stop ≤ length (attr items w self) →
  length seq = stop - start →
  Forall (λ c, is_hashable (heap w) c = true) (attr items w self) →
  Forall (λ c, is_hashable (heap w) c = true) seq →
  NoDup seq →
  let l := attr items w self in
  let r := BiDirectionalLookupNonTerminalNode.__setslice__ self
             (Z.of_nat start) (Z.of_nat stop) seq w in
  r.2 = Ret tt ∧
  attr items r.1 self = take start l ++ seq ++ drop stop l ∧
  (∀ k c, seq !! k = Some c →
     BiDirectionalLookupNonTerminalNode.index self c r.1
     = (r.1, Ret (Z.of_nat (start + k)))) ∧
  (consistent w self → unique_children l → VNone ∉ seq → (∀ c, c ∈ seq → c ∉ l) →
   consistent r.1 self).
Proof.
  intros Hlive Hrange Hlen Hhl Hhs Hnd l r.
  change (start ≤ stop ≤ length l) in Hrange.
  set (old := take (stop - start) (drop start l)).
  assert (slice_syntax l (Z.of_nat start) (Z.of_nat stop) = old) as Hslice.
  { unfold slice_syntax.
    destruct (Z.ltb_spec (Z.of_nat start) 0); [lia|].
    destruct (Z.ltb_spec (Z.of_nat stop) 0); [lia|].
    unfold list_getslice. by rewrite slice_bounds_in_range. }
  destruct (NT_setslice_run self start stop seq w Hrange) as [nc Hnt]. fold l in Hnt.
  set (l' := take start l ++ seq ++ drop stop l) in *.
  set (w1 := upd (with_items l') self w) in *.
  set (w2 := foldl (λ w child, set_parent_w child (VRef self) w) w1 nc) in *.
  set (w3 := foldl (λ w c, del_index_w self c w) w2 old).
  set (w4 := foldl (λ w ic, set_index_w self ic.2 ic.1 w) w3
               (pairs_from (Z.of_nat start) seq)).
  assert (∀ c, is_hashable (heap w3) c = is_hashable (heap w) c) as Hh3.
  { intros c.
    assert (∀ s w0, is_hashable (heap (foldl (λ w c, del_index_w self c w) w0 s)) c
                    = is_hashable (heap w0) c) as Hdel.
    { induction s as [|x s IH]; intros w0; simpl; [done|].
      rewrite IH. apply is_hashable_del_index_w. }
    unfold w3. rewrite Hdel. unfold w2. rewrite is_hashable_set_parents.
    unfold w1. by rewrite is_hashable_upd. }
  assert (live w2 self) as Hlive2.
  { unfold w2. apply live_set_parents. by apply live_upd. }
  assert (live w3 self) as Hlive3.
  { assert (∀ s w0, live w0 self →
              live (foldl (λ w c, del_index_w self c w) w0 s) self) as Hdel.
    { induction s as [|x s IH]; intros w0 H0; simpl; [done|].
      apply IH. by apply live_del_index_w. }
    by apply Hdel. }
  assert (r = (w4, Ret tt)) as ->.
  { unfold r, BiDirectionalLookupNonTerminalNode.__setslice__.
    erewrite bind_run by reflexivity. fold l. cbv zeta. rewrite Hslice.
    erewrite bind_run by exact Hnt.
    erewrite bind_run.
    2:{ apply for_each_delete_run. apply Forall_forall. intros c Hc.
        unfold w2. rewrite is_hashable_set_parents.
        unfold w1. rewrite is_hashable_upd by done.
        rewrite Forall_forall in Hhl. apply Hhl. change (c ∈ l).
        unfold old in Hc. apply subseteq_take in Hc. by apply subseteq_drop in Hc. }
    fold w3.
    replace (Z.of_nat stop - Z.of_nat start)%Z with (Z.of_nat (length seq)) by lia.
    rewrite Nat2Z.id.
    assert (Forall (λ c, is_hashable (heap w3) c = true) seq) as Hhs3.
    { eapply Forall_impl; [exact Hhs|]. intros c Hc. cbv beta. by rewrite Hh3. }
    pose proof (add_new_items_loop_run self seq (Z.of_nat stop) (length seq)
                  (S (length seq)) 0 w3 ltac:(lia) ltac:(lia) Hhs3) as Hloop.
    rewrite drop_0, firstn_all in Hloop.
    replace (Z.of_nat stop - Z.of_nat (length seq))%Z with (Z.of_nat start)
      in Hloop by lia.
    exact Hloop. }
  simpl.
  assert (attr items w4 self = l') as Hitems.
  { unfold w4. rewrite (attr_set_indices_frame items self (λ ic, ic.1)) by done.
    unfold w3. rewrite attr_del_indices_frame by done.
    unfold w2. rewrite attr_set_parents_frame by done.
    unfold w1. by rewrite attr_upd_same. }
  assert (attr indices w4 self
          = foldl (λ d ic, <[ic.2 := ic.1]> d)
              (foldl (λ d c, delete c d) (attr indices w self) old)
              (pairs_from (Z.of_nat start) seq)) as Hidx.
  { unfold w4. rewrite indices_set_pairs by done.
    unfold w3. rewrite indices_del_indices by done.
    unfold w2. rewrite attr_set_parents_frame by done.
    unfold w1. by rewrite attr_upd_frame. }
  split; [done|]. split; [done|]. split.
  - intros k c Hk. apply dict_getitem_run.
    + unfold w4. rewrite (is_hashable_set_indices_fold self (λ ic, ic.1)).
      rewrite Hh3. rewrite Forall_forall in Hhs. apply Hhs.
      by eapply list_elem_of_lookup_2.
    + rewrite Hidx. rewrite (lookup_fold_pairs seq _ _ k c) by done.
      f_equal. lia.
  - intros Hcons Hu Hnone Hdisj. unfold consistent.
    rewrite Hidx, Hitems, Hcons. fold l. by apply rederive_replaced.
Qed.

(** ** The theorems at concrete nodes *)

Ltac nodup_tac :=
  repeat (apply NoDup_cons; split;
          [intros Hin; repeat (apply elem_of_cons in Hin as [Hin|Hin]; [discriminate Hin|]);
           by apply elem_of_nil in Hin|]);
  apply NoDup_nil_2.

Ltac notin_tac :=
  intros Hin; repeat (apply elem_of_cons in Hin as [Hin|Hin]; [discriminate Hin|]);
  by apply elem_of_nil in Hin.

(** A [NonTerminalNode] created around the plain node Y of the store of X and Y. *)
Lemma NT_new_adopts_children_witness :
  let w := world_X in
  let p := VNone in
  let args := Some [VRef 1] in
  (Forall (λ c, ∀ b, c = VRef b → live w b) (default [] args)) ∧
  (let r := NonTerminalNode.new p args w in
   ∃ self,
   r.2 = Ret self ∧
   ¬ live w self ∧ live r.1 self ∧
   attr cls r.1 self = ClsNonTerminalNode ∧
   attr parent r.1 self = p ∧
   attr items r.1 self = default [] args ∧
   (∀ b, VRef b ∈ default [] args → attr parent r.1 b = VRef self) ∧
   (∀ b, live w b → VRef b ∉ default [] args → attr parent r.1 b = attr parent w b) ∧
   (∀ b, live w b → attr items r.1 b = attr items w b)).
Proof.
  intros w p args.
  assert (Forall (λ c, ∀ b, c = VRef b → live w b) (default [] args)) as H1.
  { vm_compute; repeat constructor; intros b [= <-]; vm_compute; eauto. }
  exact (conj H1
           (NT_new_adopts_children w p args H1)).
Defined.

(** Appending the plain node Y to the node that holds X, and popping it again. *)
Lemma NT_append_then_pop_witness :
  let w := world_X in
  let self := 2 in
  let child := VRef 1 in
  (live w self) ∧
  (let r1 := NonTerminalNode.append self child w in
   let r2 := NonTerminalNode.pop self None r1.1 in
   r1.2 = Ret tt ∧
   attr items r1.1 self = attr items w self ++ [child] ∧
   r2.2 = Ret child ∧
   attr items r2.1 self = attr items w self ∧
   (∀ b, child = VRef b → live w b →
   attr parent r1.1 b = VRef self ∧ attr parent r2.1 b = VNone)).
Proof.
  intros w self child.
  assert (live w self) as H1 by (vm_compute; eauto).
  exact (conj H1
           (NT_append_then_pop w self child H1)).
Defined.

(** Deleting the one child of the node that holds X. *)
Lemma NT_delitem_in_range_witness :
  let w := world_X in
  let self := 2 in
  let index := 0%Z in
  (live w self ∧
   (0 <= index < len (attr items w self))%Z) ∧
  (let l := attr items w self in
   let r := NonTerminalNode.__delitem__ self index w in
   r.2 = Ret tt ∧
   attr items r.1 self = take (Z.to_nat index) l ++ drop (S (Z.to_nat index)) l ∧
   (∀ b, l !! Z.to_nat index = Some (VRef b) → live w b → attr parent r.1 b = VNone) ∧
   (∀ b, l !! Z.to_nat index ≠ Some (VRef b) → attr parent r.1 b = attr parent w b)).
Proof.
  intros w self index.
  assert (live w self) as H1 by (vm_compute; eauto).
  assert ((0 <= index < len (attr items w self))%Z) as H2.
  { vm_compute; first [done | lia]. }
  exact (conj (conj H1 H2)
           (NT_delitem_in_range w self index H1 H2)).
Defined.

(** Replacing X by Y in the node that holds X. *)
Lemma NT_setitem_in_range_witness :
  let w := world_X in
  let self := 2 in
  let index := 0%Z in
  let child := VRef 1 in
  (live w self ∧
   (0 <= index < len (attr items w self))%Z) ∧
  (let l := attr items w self in
   let r := NonTerminalNode.__setitem__ self index child w in
   r.2 = Ret tt ∧
   attr items r.1 self = <[Z.to_nat index := child]> l ∧
   (∀ b, child = VRef b → live w b → attr parent r.1 b = VRef self) ∧
   (∀ b, child ≠ VRef b → attr parent r.1 b = attr parent w b)).
Proof.
  intros w self index child.
  assert (live w self) as H1 by (vm_compute; eauto).
  assert ((0 <= index < len (attr items w self))%Z) as H2.
  { vm_compute; first [done | lia]. }
  exact (conj (conj H1 H2)
           (NT_setitem_in_range w self index child H1 H2)).
Defined.

(** Deleting the slice 0:1 of the node that holds X. *)
Lemma NT_delslice_in_range_witness :
  let w := world_X in
  let self := 2 in
  let start := 0 in
  let stop := 1 in
  (live w self ∧
   start ≤ stop ≤ length (attr items w self)) ∧
  (let l := attr items w self in
   let removed := take (stop - start) (drop start l) in
   let r := NonTerminalNode.__delslice__ self (Z.of_nat start) (Z.of_nat stop) w in
   r.2 = Ret tt ∧
   attr items r.1 self = take start l ++ drop stop l ∧
   (∀ b, VRef b ∈ removed → live w b → attr parent r.1 b = VNone) ∧
   (∀ b, VRef b ∉ removed → attr parent r.1 b = attr parent w b)).
Proof.
  intros w self start stop.
  assert (live w self) as H1 by (vm_compute; eauto).
  assert (start ≤ stop ≤ length (attr items w self)) as H2.
  { vm_compute; first [done | lia]. }
  exact (conj (conj H1 H2)
           (NT_delslice_in_range w self start stop H1 H2)).
Defined.

(** Extending the node that holds X by Y, given in a list and given by an iterator. *)
Lemma NT_extend_appends_witness :
  let w := world_X in
  let self := 2 in
  let l := [VRef 1] in
  (live w self) ∧
  ((let r := NonTerminalNode.extend self (Sequence l) w in
   r.2 = Ret tt ∧
   attr items r.1 self = attr items w self ++ l ∧
   (∀ b, VRef b ∈ l → live w b → attr parent r.1 b = VRef self) ∧
   (∀ b, VRef b ∉ l → attr parent r.1 b = attr parent w b) ∧
   NonTerminalNode.__iadd__ self (Sequence l) w = (r.1, Ret (VRef self))) ∧
   (let r := NonTerminalNode.extend self (Iterator l) w in
   r.2 = Ret tt ∧
   attr items r.1 self = attr items w self ++ l ∧
   (∀ b, attr parent r.1 b = attr parent w b) ∧
   NonTerminalNode.__iadd__ self (Iterator l) w = (r.1, Ret (VRef self)))).
Proof.
  intros w self l.
  assert (live w self) as H1 by (vm_compute; eauto).
  exact (conj H1
           (NT_extend_appends w self l H1)).
Defined.

(** The inner node of the tree of depth 2, which holds a string. *)
Lemma deepcopy_flat_container_raises_witness :
  let fuel := 0 in
  let a := 0 in
  let memo := (∅ : gmap nat value) in
  let w := world_tree in
  (memo !! a = None ∧
   attr cls w a ≠ ClsNode ∧
   Forall (λ v, ∀ b, v ≠ VRef b) (attr items w a)) ∧
  (deepcopy (S (S fuel)) (VRef a) memo w = (w, Raise TypeError)).
Proof.
  intros fuel a memo w.
  assert (memo !! a = None) as H1 by (vm_compute; reflexivity).
  assert (attr cls w a ≠ ClsNode) as H2 by (vm_compute; discriminate).
  assert (Forall (λ v, ∀ b, v ≠ VRef b) (attr items w a)) as H3.
  { vm_compute; repeat constructor; discriminate. }
  exact (conj (conj H1 (conj H2 H3))
           (deepcopy_flat_container_raises fuel a memo w H1 H2 H3)).
Defined.

(** The plain node X, whose parent is the node that holds it. *)
Lemma deepcopy_child_of_container_raises_witness :
  let fuel := 5 in
  let a := 0 in
  let p := 2 in
  let memo := (∅ : gmap nat value) in
  let w := world_X in
  (live w a ∧
   live w p ∧
   attr cls w a = ClsNode ∧
   attr parent w a = VRef p ∧
   attr cls w p ≠ ClsNode ∧
   memo !! a = None ∧
   memo !! p = None) ∧
  (∃ w' e, deepcopy fuel (VRef a) memo w = (w', Raise e)).
Proof.
  intros fuel a p memo w.
  assert (live w a) as H1 by (vm_compute; eauto).
  assert (live w p) as H2 by (vm_compute; eauto).
  assert (attr cls w a = ClsNode) as H3 by (vm_compute; reflexivity).
  assert (attr parent w a = VRef p) as H4 by (vm_compute; reflexivity).
  assert (attr cls w p ≠ ClsNode) as H5 by (vm_compute; discriminate).
  assert (memo !! a = None) as H6 by (vm_compute; reflexivity).
  assert (memo !! p = None) as H7 by (vm_compute; reflexivity).
  exact (conj (conj H1 (conj H2 (conj H3 (conj H4 (conj H5 (conj H6 H7))))))
           (deepcopy_child_of_container_raises fuel a p memo w H1 H2 H3 H4 H5 H6 H7)).
Defined.

(** The plain node D, which the node holding A and C does not hold. *)
Lemma index_and_remove_of_absent_witness :
  let w := world_AC in
  let self := 3 in
  let item := VRef 2 in
  (attr indices w self !! item = None) ∧
  (let e := if is_hashable (heap w) item then KeyError else TypeError in
   BiDirectionalLookupNonTerminalNode.index self item w = (w, Raise e) ∧
   BiDirectionalLookupNonTerminalNode.remove self item w = (w, Raise e)).
Proof.
  intros w self item.
  assert (attr indices w self !! item = None) as H1 by (vm_compute; reflexivity).
  exact (conj H1
           (index_and_remove_of_absent w self item H1)).
Defined.

(** Replacing C by D in the node holding A and C. *)
Lemma Bi_setitem_in_bounds_witness :
  let w := world_AC in
  let self := 3 in
  let index := 1%Z in
  let child := VRef 2 in
  let replacee := VRef 1 in
  (live w self ∧
   (0 <= index < len (attr items w self))%Z ∧
   attr items w self !! Z.to_nat index = Some replacee ∧
   is_hashable (heap w) replacee = true ∧
   is_hashable (heap w) child = true) ∧
  (let l := attr items w self in
   let r := BiDirectionalLookupNonTerminalNode.__setitem__ self index child w in
   r.2 = Ret tt ∧
   attr items r.1 self = <[Z.to_nat index := child]> l ∧
   attr indices r.1 self = <[child := index]> (delete replacee (attr indices w self)) ∧
   BiDirectionalLookupNonTerminalNode.index self child r.1 = (r.1, Ret index) ∧
   (∀ b, child = VRef b → live w b → attr parent r.1 b = VRef self) ∧
   (consistent w self → unique_children l → child ≠ VNone → child ∉ l →
   consistent r.1 self)).
Proof.
  intros w self index child replacee.
  assert (live w self) as H1 by (vm_compute; eauto).
  assert ((0 <= index < len (attr items w self))%Z) as H2.
  { vm_compute; first [done | lia]. }
  assert (attr items w self !! Z.to_nat index = Some replacee) as H3.
  { vm_compute; reflexivity. }
  assert (is_hashable (heap w) replacee = true) as H4 by (vm_compute; reflexivity).
  assert (is_hashable (heap w) child = true) as H5 by (vm_compute; reflexivity).
  exact (conj (conj H1 (conj H2 (conj H3 (conj H4 H5))))
           (Bi_setitem_in_bounds w self index child replacee H1 H2 H3 H4 H5)).
Defined.

(** The node built from ["a", None, "c", None, "e"]. *)
Lemma get_next_free_index_spec_witness :
  let w := world_sparse in
  let self := 1 in
  ((-1 <= attr last_automatically_added_index w self)%Z) ∧
  (let l := attr items w self in
   let first := Z.to_nat (attr last_automatically_added_index w self + 1) in
   let r := BiDirectionalLookupNonTerminalNode.__get_next_free_index self w in
   ∃ j, first ≤ j ∧
   r.2 = Ret (Z.of_nat j) ∧
   (∀ k, first ≤ k < j → assigned l k) ∧
   ¬ assigned l j ∧
   heap r.1 = heap w ∧
   stdout r.1 = stdout w ++ (Z.of_nat <$> seq first (j - first))).
Proof.
  intros w self.
  assert ((-1 <= attr last_automatically_added_index w self)%Z) as H1.
  { vm_compute; first [done | lia]. }
  exact (conj H1
           (get_next_free_index_spec w self H1)).
Defined.

(** Index 2 on the empty node. *)
Lemma ensure_valid_index_pads_witness :
  let w := world_empty in
  let self := 1 in
  let index := 2%Z in
  (live w self) ∧
  (let l := attr items w self in
   let r := BiDirectionalLookupNonTerminalNode.__ensure_valid_index self index w in
   r.2 = Ret tt ∧
   attr items r.1 self = l ++ replicate (Z.to_nat (index + 1 - len l)) VNone ∧
   (index < len (attr items r.1 self))%Z ∧
   (∀ b, attr indices r.1 b = attr indices w b ∧ attr parent r.1 b = attr parent w b)).
Proof.
  intros w self index.
  assert (live w self) as H1 by (vm_compute; eauto).
  exact (conj H1
           (ensure_valid_index_pads w self index H1)).
Defined.

(** Assigning A to index 1 of the empty node. *)
Lemma setitem_past_end_pads_witness :
  let w := world_empty in
  let self := 1 in
  let index := 1%Z in
  let child := VRef 0 in
  (live w self ∧
   (len (attr items w self) <= index)%Z) ∧
  (let l := attr items w self in
   let r := BiDirectionalLookupNonTerminalNode.__setitem__ self index child w in
   r.2 = Ret tt ∧
   attr items r.1 self = l ++ replicate (Z.to_nat (index - len l)) VNone ++ [child] ∧
   attr items r.1 self !! Z.to_nat index = Some child ∧
   (len (attr items r.1 self) = index + 1)%Z ∧
   (∀ b, child = VRef b → live w b → attr parent r.1 b = VRef self)).
Proof.
  intros w self index child.
  assert (live w self) as H1 by (vm_compute; eauto).
  assert ((len (attr items w self) <= index)%Z) as H2 by (vm_compute; first [done | lia]).
  exact (conj (conj H1 H2)
           (setitem_past_end_pads w self index child H1 H2)).
Defined.

(** Appending the string "q" to the node built from ["a", None, "c", None, "e"]. *)
Lemma append_into_gap_witness :
  let w := world_sparse in
  let self := 1 in
  let j := 1 in
  let x := VStr "q" in
  (live w self ∧
   (-1 <= attr last_automatically_added_index w self)%Z ∧
   Z.to_nat (attr last_automatically_added_index w self + 1) ≤ j ∧
   (∀ k, Z.to_nat (attr last_automatically_added_index w self + 1) ≤ k < j → assigned
    (attr items w self) k) ∧
   attr items w self !! j = Some VNone ∧
   is_hashable (heap w) x = true) ∧
  (let l := attr items w self in
   let r := BiDirectionalLookupNonTerminalNode.append self x w in
   r.2 = Ret tt ∧
   attr items r.1 self = <[j := x]> l ∧
   attr indices r.1 self = <[x := Z.of_nat j]> (delete VNone (attr indices w self)) ∧
   attr last_automatically_added_index r.1 self = Z.of_nat j ∧
   BiDirectionalLookupNonTerminalNode.index self x r.1 = (r.1, Ret (Z.of_nat j)) ∧
   (∀ b, x = VRef b → live w b → attr parent r.1 b = VRef self) ∧
   (consistent w self → unique_children l → x ≠ VNone → x ∉ l → consistent r.1 self)).
Proof.
  intros w self j x.
  assert (live w self) as H1 by (vm_compute; eauto).
  assert ((-1 <= attr last_automatically_added_index w self)%Z) as H2.
  { vm_compute; first [done | lia]. }
  assert (Z.to_nat (attr last_automatically_added_index w self + 1) ≤ j) as H3.
  { vm_compute; first [done | lia]. }
  assert ((∀ k, Z.to_nat (attr last_automatically_added_index w self + 1) ≤ k < j → assigned
    (attr items w self) k)) as H4.
  { intros k Hk; vm_compute in Hk; assert (k = 0) as -> by lia; exists (VStr "a");
    split; [vm_compute; reflexivity | done]. }
  assert (attr items w self !! j = Some VNone) as H5 by (vm_compute; reflexivity).
  assert (is_hashable (heap w) x = true) as H6 by (vm_compute; reflexivity).
  exact (conj (conj H1 (conj H2 (conj H3 (conj H4 (conj H5 H6)))))
           (append_into_gap w self j x H1 H2 H3 H4 H5 H6)).
Defined.

(** Appending the string "c" to the node holding "a" and "b". *)
Lemma append_at_end_witness :
  let w := world_ab in
  let self := 0 in
  let x := VStr "c" in
  (live w self ∧
   (-1 <= attr last_automatically_added_index w self)%Z ∧
   (∀ k, Z.to_nat (attr last_automatically_added_index w self + 1) ≤ k
    < length (attr items w self) → assigned (attr items w self) k)) ∧
  (let l := attr items w self in
   let j := Z.max (len l) (attr last_automatically_added_index w self + 1) in
   let r := BiDirectionalLookupNonTerminalNode.append self x w in
   r.2 = Ret tt ∧
   attr items r.1 self = l ++ replicate (Z.to_nat (j - len l)) VNone ++ [x] ∧
   attr items r.1 self !! Z.to_nat j = Some x ∧
   attr last_automatically_added_index r.1 self = j ∧
   (∀ b, x = VRef b → live w b → attr parent r.1 b = VRef self)).
Proof.
  intros w self x.
  assert (live w self) as H1 by (vm_compute; eauto).
  assert ((-1 <= attr last_automatically_added_index w self)%Z) as H2.
  { vm_compute; first [done | lia]. }
  assert ((∀ k, Z.to_nat (attr last_automatically_added_index w self + 1) ≤ k
    < length (attr items w self) → assigned (attr items w self) k)) as H3.
  { intros k Hk; vm_compute in Hk; destruct k as [|[|k]]; [| |lia]; eexists; (split;
    [vm_compute; reflexivity | done]). }
  exact (conj (conj H1 (conj H2 H3))
           (append_at_end w self x H1 H2 H3)).
Defined.


(** Inserting D between A and C. *)
Lemma insert_then_index_witness :
  let w := world_AC in
  let self := 3 in
  let n := 1 in
  let child := VRef 2 in
  (live w self ∧
   consistent w self ∧
   unique_children (attr items w self) ∧
   Forall (λ c, is_hashable (heap w) c = true) (attr items w self) ∧
   n ≤ length (attr items w self) ∧
   (VNone ∉ drop n (attr items w self)) ∧
   child ≠ VNone ∧
   (child ∉ attr items w self) ∧
   is_hashable (heap w) child = true) ∧
  (let l := attr items w self in
   let r := BiDirectionalLookupNonTerminalNode.insert self (Z.of_nat n) child w in
   r.2 = Ret tt ∧
   attr items r.1 self !! n = Some child ∧
   BiDirectionalLookupNonTerminalNode.index self child r.1 = (r.1, Ret (Z.of_nat n)) ∧
   (∀ k c, l !! k = Some c → c ≠ VNone →
   BiDirectionalLookupNonTerminalNode.index self c r.1
   = (r.1, Ret (Z.of_nat (if decide (k < n) then k else S k))))).
Proof.
  intros w self n child.
  assert (live w self) as H1 by (vm_compute; eauto).
  assert (consistent w self) as H2 by (vm_compute; reflexivity).
  assert (unique_children (attr items w self)) as H3.
  { apply NoDup_unique_children; vm_compute; nodup_tac. }
  assert (Forall (λ c, is_hashable (heap w) c = true) (attr items w self)) as H4.
  { vm_compute; repeat constructor. }
  assert (n ≤ length (attr items w self)) as H5 by (vm_compute; first [done | lia]).
  assert (VNone ∉ drop n (attr items w self)) as H6 by (vm_compute; notin_tac).
  assert (child ≠ VNone) as H7 by (done).
  assert (child ∉ attr items w self) as H8 by (vm_compute; notin_tac).
  assert (is_hashable (heap w) child = true) as H9 by (vm_compute; reflexivity).
  exact (conj (conj H1 (conj H2 (conj H3 (conj H4 (conj H5 (conj H6 (conj H7 (conj H8 H9))))))))
           (insert_then_index w self n child H1 H2 H3 H4 H5 H6 H7 H8 H9)).
Defined.

(** Popping C off the node holding A and C. *)
Lemma pop_last_keeps_consistent_witness :
  let w := world_AC in
  let self := 3 in
  let l := [VRef 0] in
  let c := VRef 1 in
  (live w self ∧
   attr items w self = l ++ [c] ∧
   consistent w self ∧
   unique_children (l ++ [c]) ∧
   c ≠ VNone ∧
   is_hashable (heap w) c = true) ∧
  (let r := BiDirectionalLookupNonTerminalNode.pop self None w in
   r.2 = Ret c ∧
   attr items r.1 self = l ∧
   attr indices r.1 self = delete c (attr indices w self) ∧
   (∀ b, c = VRef b → live w b → attr parent r.1 b = VNone) ∧
   consistent r.1 self).
Proof.
  intros w self l c.
  assert (live w self) as H1 by (vm_compute; eauto).
  assert (attr items w self = l ++ [c]) as H2 by (vm_compute; reflexivity).
  assert (consistent w self) as H3 by (vm_compute; reflexivity).
  assert (unique_children (l ++ [c])) as H4.
  { apply NoDup_unique_children; vm_compute; nodup_tac. }
  assert (c ≠ VNone) as H5 by (done).
  assert (is_hashable (heap w) c = true) as H6 by (vm_compute; reflexivity).
  exact (conj (conj H1 (conj H2 (conj H3 (conj H4 (conj H5 H6)))))
           (pop_last_keeps_consistent w self l c H1 H2 H3 H4 H5 H6)).
Defined.

(** Removing C from the node holding A, B, C. *)
Lemma remove_last_keeps_consistent_witness :
  let w := world_ABC in
  let self := 3 in
  let l := [VRef 0; VRef 1] in
  let c := VRef 2 in
  (live w self ∧
   attr items w self = l ++ [c] ∧
   consistent w self ∧
   unique_children (l ++ [c]) ∧
   c ≠ VNone ∧
   is_hashable (heap w) c = true) ∧
  (let r := BiDirectionalLookupNonTerminalNode.remove self c w in
   r.2 = Ret tt ∧
   attr items r.1 self = l ∧
   attr indices r.1 self = delete c (attr indices w self) ∧
   (∀ b, c = VRef b → live w b → attr parent r.1 b = VNone) ∧
   consistent r.1 self).
Proof.
  intros w self l c.
  assert (live w self) as H1 by (vm_compute; eauto).
  assert (attr items w self = l ++ [c]) as H2 by (vm_compute; reflexivity).
  assert (consistent w self) as H3 by (vm_compute; reflexivity).
  assert (unique_children (l ++ [c])) as H4.
  { apply NoDup_unique_children; vm_compute; nodup_tac. }
  assert (c ≠ VNone) as H5 by (done).
  assert (is_hashable (heap w) c = true) as H6 by (vm_compute; reflexivity).
  exact (conj (conj H1 (conj H2 (conj H3 (conj H4 (conj H5 H6)))))
           (remove_last_keeps_consistent w self l c H1 H2 H3 H4 H5 H6)).
Defined.

(** Counting B in the node holding A, B, C. *)
Lemma count_on_consistent_witness :
  let w := world_ABC in
  let self := 3 in
  let v := VRef 1 in
  (consistent w self ∧
   unique_children (attr items w self) ∧
   is_hashable (heap w) v = true) ∧
  (BiDirectionalLookupNonTerminalNode.count self v w
   = (w, Ret (list_count (attr items w self) v))).
Proof.
  intros w self v.
  assert (consistent w self) as H1 by (vm_compute; reflexivity).
  assert (unique_children (attr items w self)) as H2.
  { apply NoDup_unique_children; vm_compute; nodup_tac. }
  assert (is_hashable (heap w) v = true) as H3 by (vm_compute; reflexivity).
  exact (conj (conj H1 (conj H2 H3))
           (count_on_consistent w self v H1 H2 H3)).
Defined.

(** Reversing the node holding A, B, C. *)
Lemma reverse_keeps_consistent_witness :
  let w := world_ABC in
  let self := 3 in
  (live w self ∧
   consistent w self ∧
   NoDup (attr items w self) ∧
   (VNone ∉ attr items w self) ∧
   Forall (λ c, is_hashable (heap w) c = true) (attr items w self)) ∧
  (let l := attr items w self in
   let r := BiDirectionalLookupNonTerminalNode.reverse self w in
   r.2 = Ret tt ∧
   attr items r.1 self = reverse l ∧
   consistent r.1 self ∧
   (∀ k c, l !! k = Some c →
   BiDirectionalLookupNonTerminalNode.index self c r.1
   = (r.1, Ret (len l - 1 - Z.of_nat k)%Z)) ∧
   (∀ b, attr parent r.1 b = attr parent w b)).
Proof.
  intros w self.
  assert (live w self) as H1 by (vm_compute; eauto).
  assert (consistent w self) as H2 by (vm_compute; reflexivity).
  assert (NoDup (attr items w self)) as H3 by (vm_compute; nodup_tac).
  assert (VNone ∉ attr items w self) as H4 by (vm_compute; notin_tac).
  assert (Forall (λ c, is_hashable (heap w) c = true) (attr items w self)) as H5.
  { vm_compute; repeat constructor. }
  exact (conj (conj H1 (conj H2 (conj H3 (conj H4 H5))))
           (reverse_keeps_consistent w self H1 H2 H3 H4 H5)).
Defined.

(** Reversing the node holding A and C twice. *)
Lemma reverse_twice_restores_witness :
  let w := world_AC in
  let self := 3 in
  (live w self ∧
   consistent w self ∧
   NoDup (attr items w self) ∧
   (VNone ∉ attr items w self) ∧
   Forall (λ c, is_hashable (heap w) c = true) (attr items w self)) ∧
  (let r1 := BiDirectionalLookupNonTerminalNode.reverse self w in
   let r2 := BiDirectionalLookupNonTerminalNode.reverse self r1.1 in
   r1.2 = Ret tt ∧ r2.2 = Ret tt ∧
   attr items r2.1 self = attr items w self ∧
   attr indices r2.1 self = attr indices w self ∧
   (∀ b, attr parent r2.1 b = attr parent w b)).
Proof.
  intros w self.
  assert (live w self) as H1 by (vm_compute; eauto).
  assert (consistent w self) as H2 by (vm_compute; reflexivity).
  assert (NoDup (attr items w self)) as H3 by (vm_compute; nodup_tac).
  assert (VNone ∉ attr items w self) as H4 by (vm_compute; notin_tac).
  assert (Forall (λ c, is_hashable (heap w) c = true) (attr items w self)) as H5.
  { vm_compute; repeat constructor. }
  exact (conj (conj H1 (conj H2 (conj H3 (conj H4 H5))))
           (reverse_twice_restores w self H1 H2 H3 H4 H5)).
Defined.

(** Sorting the node holding A, B, C in reverse order, the later instance lying at the lower address. *)
Lemma sort_keeps_consistent_witness :
  let address := (λ a : nat, (- Z.of_nat a)%Z) in
  let w := world_ABC in
  let self := 3 in
  let cmp := (None : option (value → value → Z)) in
  let key := (None : option (value → value)) in
  let reverse_flag := true in
  (live w self ∧
   consistent w self ∧
   NoDup (attr items w self) ∧
   (VNone ∉ attr items w self) ∧
   Forall (λ c, is_hashable (heap w) c = true) (attr items w self)) ∧
  (let r := BiDirectionalLookupNonTerminalNode.sort address self cmp key reverse_flag w in
   r.2 = Ret tt ∧
   attr items r.1 self ≡ₚ attr items w self ∧
   consistent r.1 self ∧
   (∀ b, attr parent r.1 b = attr parent w b)).
Proof.
  intros address w self cmp key reverse_flag.
  assert (live w self) as H1 by (vm_compute; eauto).
  assert (consistent w self) as H2 by (vm_compute; reflexivity).
  assert (NoDup (attr items w self)) as H3 by (vm_compute; nodup_tac).
  assert (VNone ∉ attr items w self) as H4 by (vm_compute; notin_tac).
  assert (Forall (λ c, is_hashable (heap w) c = true) (attr items w self)) as H5.
  { vm_compute; repeat constructor. }
  exact (conj (conj H1 (conj H2 (conj H3 (conj H4 H5))))
           (sort_keeps_consistent address w self cmp key reverse_flag H1 H2 H3 H4 H5)).
Defined.

(** A bidirectional node created around the plain nodes X and Y. *)
Lemma Bi_new_indexes_children_witness :
  let w := world_X in
  let p := VNone in
  let args := Some [VRef 0; VRef 1] in
  (Forall (λ c, ∀ b, c = VRef b → live w b) (default [] args) ∧
   Forall (λ c, is_hashable (heap w) c = true) (default [] args) ∧
   NoDup (default [] args)) ∧
  (let children := default [] args in
   let r := BiDirectionalLookupNonTerminalNode.new p args w in
   ∃ self,
   r.2 = Ret self ∧
   ¬ live w self ∧ live r.1 self ∧
   attr cls r.1 self = ClsBiDirectionalLookupNonTerminalNode ∧
   attr parent r.1 self = p ∧
   attr items r.1 self = children ∧
   attr last_automatically_added_index r.1 self = (-1)%Z ∧
   (∀ k c, children !! k = Some c →
   BiDirectionalLookupNonTerminalNode.index self c r.1 = (r.1, Ret (Z.of_nat k))) ∧
   (∀ b, VRef b ∈ children → attr parent r.1 b = VRef self) ∧
   (VNone ∉ children → consistent r.1 self)).
Proof.
  intros w p args.
  assert (Forall (λ c, ∀ b, c = VRef b → live w b) (default [] args)) as H1.
  { vm_compute; repeat constructor; intros b [= <-]; vm_compute; eauto. }
  assert (Forall (λ c, is_hashable (heap w) c = true) (default [] args)) as H2.
  { vm_compute; repeat constructor. }
  assert (NoDup (default [] args)) as H3 by (vm_compute; nodup_tac).
  exact (conj (conj H1 (conj H2 H3))
           (Bi_new_indexes_children w p args H1 H2 H3)).
Defined.

(** Deleting the slice 1:3 of the node holding A, B, C. *)
Lemma Bi_delslice_tail_keeps_consistent_witness :
  let w := world_ABC in
  let self := 3 in
  let start := 1 in
  let stop := 3%Z in
  (live w self ∧
   consistent w self ∧
   unique_children (attr items w self) ∧
   Forall (λ c, is_hashable (heap w) c = true) (attr items w self) ∧
   start ≤ length (attr items w self) ∧
   (len (attr items w self) <= stop)%Z) ∧
  (let l := attr items w self in
   let r := BiDirectionalLookupNonTerminalNode.__delslice__ self (Z.of_nat start) stop w in
   r.2 = Ret tt ∧
   attr items r.1 self = take start l ∧
   (∀ b, VRef b ∈ drop start l → live w b → attr parent r.1 b = VNone) ∧
   (∀ b, VRef b ∉ drop start l → attr parent r.1 b = attr parent w b) ∧
   consistent r.1 self).
Proof.
  intros w self start stop.
  assert (live w self) as H1 by (vm_compute; eauto).
  assert (consistent w self) as H2 by (vm_compute; reflexivity).
  assert (unique_children (attr items w self)) as H3.
  { apply NoDup_unique_children; vm_compute; nodup_tac. }
  assert (Forall (λ c, is_hashable (heap w) c = true) (attr items w self)) as H4.
  { vm_compute; repeat constructor. }
  assert (start ≤ length (attr items w self)) as H5 by (vm_compute; first [done | lia]).
  assert ((len (attr items w self) <= stop)%Z) as H6 by (vm_compute; first [done | lia]).
  exact (conj (conj H1 (conj H2 (conj H3 (conj H4 (conj H5 H6)))))
           (Bi_delslice_tail_keeps_consistent w self start stop H1 H2 H3 H4 H5 H6)).
Defined.

(** Assigning [D] to the slice 1:2 of the node holding A and C. *)
Lemma Bi_setslice_same_length_witness :
  let w := world_AC in
  let self := 3 in
  let start := 1 in
  let stop := 2 in
  let seq := [VRef 2] in
  (live w self ∧
   start ≤ stop ≤ length (attr items w self) ∧
   length seq = stop - start ∧
   Forall (λ c, is_hashable (heap w) c = true) (attr items w self) ∧
   Forall (λ c, is_hashable (heap w) c = true) seq ∧
   NoDup seq) ∧
  (let l := attr items w self in
   let r := BiDirectionalLookupNonTerminalNode.__setslice__ self
   (Z.of_nat start) (Z.of_nat stop) seq w in
   r.2 = Ret tt ∧
   attr items r.1 self = take start l ++ seq ++ drop stop l ∧
   (∀ k c, seq !! k = Some c →
   BiDirectionalLookupNonTerminalNode.index self c r.1
   = (r.1, Ret (Z.of_nat (start + k)))) ∧
   (consistent w self → unique_children l → VNone ∉ seq → (∀ c, c ∈ seq → c ∉ l) →
   consistent r.1 self)).
Proof.
  intros w self start stop seq.
  assert (live w self) as H1 by (vm_compute; eauto).
  assert (start ≤ stop ≤ length (attr items w self)) as H2.
  { vm_compute; first [done | lia]. }
  assert (length seq = stop - start) as H3 by (vm_compute; reflexivity).
  assert (Forall (λ c, is_hashable (heap w) c = true) (attr items w self)) as H4.
  { vm_compute; repeat constructor. }
  assert (Forall (λ c, is_hashable (heap w) c = true) seq) as H5.
  { vm_compute; repeat constructor. }
  assert (NoDup seq) as H6 by (vm_compute; nodup_tac).
  exact (conj (conj H1 (conj H2 (conj H3 (conj H4 (conj H5 H6)))))
           (Bi_setslice_same_length w self start stop seq H1 H2 H3 H4 H5 H6)).
Defined.

(** Index 5 and index 2^64 on the node without children, and [pop()] on
    it: the subscripts raise IndexError for both, [pop] raises IndexError for
    the first and OverflowError for the second. *)
Lemma NT_index_out_of_range_witness :
  let w := world_childless in
  let self := 1 in
  let child := VRef 0 in
  ((5 < - len (attr items w self) ∨ len (attr items w self) <= 5)%Z ∧
   (2 ^ 64 < - len (attr items w self) ∨ len (attr items w self) <= 2 ^ 64)%Z ∧
   attr items w self = []) ∧
  (NonTerminalNode.__delitem__ self 5 w = (w, Raise IndexError) ∧
   NonTerminalNode.__setitem__ self 5 child w = (w, Raise IndexError) ∧
   NonTerminalNode.pop self (Some 5%Z) w = (w, Raise IndexError) ∧
   NonTerminalNode.__delitem__ self (2 ^ 64) w = (w, Raise IndexError) ∧
   NonTerminalNode.__setitem__ self (2 ^ 64) child w = (w, Raise IndexError) ∧
   NonTerminalNode.pop self (Some (2 ^ 64)%Z) w = (w, Raise OverflowError) ∧
   NonTerminalNode.pop self None w = (w, Raise IndexError)).
Proof.
  intros w self child.
  assert ((5 < - len (attr items w self) ∨ len (attr items w self) <= 5)%Z) as H1.
  { right; vm_compute; done. }
  assert ((2 ^ 64 < - len (attr items w self) ∨ len (attr items w self) <= 2 ^ 64)%Z)
    as H2.
  { right; vm_compute; done. }
  assert (attr items w self = []) as H3 by (vm_compute; reflexivity).
  destruct (NT_index_out_of_range w self 5 child H1) as (A1 & A2 & A3 & A4).
  destruct (NT_index_out_of_range w self (2 ^ 64) child H2) as (B1 & B2 & B3 & _).
  exact (conj (conj H1 (conj H2 H3))
           (conj A1 (conj A2 (conj A3 (conj B1 (conj B2 (conj B3 (A4 H3)))))))).
Defined.

(** Assigning [Z] to the slice 0:2 of the node that holds X and Y: Z, at
    position 0 of a range of two, gets the node as its parent. *)
Lemma NT_setslice_in_range_witness :
  let w := world_XY in
  let self := 3 in
  let start := 0 in
  let stop := 2 in
  let seq := [VRef 2] in
  (live w self ∧
   start ≤ stop ≤ length (attr items w self)) ∧
  (let l := attr items w self in
   let r := NonTerminalNode.__setslice__ self (Z.of_nat start) (Z.of_nat stop) seq w in
   r.2 = Ret tt ∧
   attr items r.1 self = take start l ++ seq ++ drop stop l ∧
   (∀ k b, seq !! k = Some (VRef b) → S k < stop - start → live w b →
      attr parent r.1 b = VRef self)) ∧
  attr parent w 2 = VNone ∧
  attr parent
    (NonTerminalNode.__setslice__ self (Z.of_nat start) (Z.of_nat stop) seq w).1 2
  = VRef self.
Proof.
  intros w self start stop seq.
  assert (live w self) as H1 by (vm_compute; eauto).
  assert (start ≤ stop ≤ length (attr items w self)) as H2 by (vm_compute; lia).
  assert (live w 2) as H3 by (vm_compute; eauto).
  pose proof (NT_setslice_in_range w self start stop seq H1 H2) as H.
  split; [exact (conj H1 H2)|]. split; [exact H|].
  split; [vm_compute; reflexivity|].
  destruct H as (_ & _ & Hparent).
  apply (Hparent 0 2); [reflexivity | vm_compute; lia | exact H3].
Defined.
